(** * torchdynamo/optimizations/normalize.py: graph rewriting passes

    A shallow embedding of the three passes of [normalize.py] over a model of
    the torch.fx graph IR: [normalize] (with [expand_module_call]),
    [Inplacifier.inplacify] and [Functionalization] (a torch.fx
    [Transformer]).  Python dictionaries are stdpp [gmap]s, mutation of the
    graph, of the module instances and of the global [counters] is explicit
    state passing in a state-and-exception monad. *)

From Stdlib Require Import ZArith.
From stdpp Require Import base option gmap strings list fin_maps.

Set Warnings "-register-all".

Open Scope string_scope.
Open Scope list_scope.

(** ** Exceptions and the state monad *)

Inductive exn :=
  | AssertionError | TypeError | KeyError | IndexError | ValueError
  | AttributeError | RuntimeError | TraceError
  | TracingFailed   (* whatever [Tracer.trace] raised on a module *)
  | ConcreteCall.   (* a method call on a concrete Python value, which the IR
                       model does not evaluate *)

Inductive result (A : Type) :=
  | Ok (a : A)
  | Raise (e : exn).
Arguments Ok {A} a.
Arguments Raise {A} e.

(** A computation over a mutable store [S]: the store survives an exception,
    as Python objects do. *)
Definition M (S A : Type) : Type := S → result A * S.

Definition ret {S A} (a : A) : M S A := λ s, (Ok a, s).
Definition raise {S A} (e : exn) : M S A := λ s, (Raise e, s).
Definition bind {S A B} (m : M S A) (k : A → M S B) : M S B :=
  λ s, match m s with
       | (Ok a, s') => k a s'
       | (Raise e, s') => (Raise e, s')
       end.
Definition gets {S A} (f : S → A) : M S A := λ s, (Ok (f s), s).
Definition modify {S} (f : S → S) : M S unit := λ s, (Ok tt, f s).
Definition lift_result {S A} (r : result A) : M S A := λ s, (r, s).
Definition from_option {S A} (e : exn) (o : option A) : M S A :=
  match o with Some a => ret a | None => raise e end.

(** [try: body finally: fin] — [fin] runs on every exit path of [body]. *)
Definition try_finally {S A} (body : M S A) (fin : M S unit) : M S A :=
  λ s, match body s with
       | (r, s') =>
           match fin s' with
           | (Ok _, s'') => (r, s'')
           | (Raise e, s'') => (Raise e, s'')
           end
       end.

(** [try: body except Exception: handler; raise] *)
Definition try_except_reraise {S A} (body : M S A) (handler : M S unit) : M S A :=
  λ s, match body s with
       | (Ok a, s') => (Ok a, s')
       | (Raise e, s') =>
           match handler s' with
           | (Ok _, s'') => (Raise e, s'')
           | (Raise e', s'') => (Raise e', s'')
           end
       end.

Global Instance M_ret {S} : MRet (M S) := λ A, ret.
Global Instance M_bind {S} : MBind (M S) := λ A B k m, bind m k.

(** [for x in xs: body x] *)
Fixpoint for_each {S A} (xs : list A) (body : A → M S unit) : M S unit :=
  match xs with
  | [] => ret tt
  | x :: xs' => body x;; for_each xs' body
  end.

(** ** The graph IR (torch.fx [Node], [Graph], [GraphModule]) *)

(** Literal (non-node) argument values. *)
Inductive Lit :=
  | LNone
  | LBool (b : bool)
  | LInt (z : Z)
  | LStr (s : string)
  | LObj (repr : string).   (* any other immutable object: a dtype, a device *)

(** An argument: a literal, a reference to a node (by identity), or an
    aggregate of arguments (tuple, list, slice). *)
Inductive Arg :=
  | ALit (l : Lit)
  | ANode (n : nat)
  | ATuple (xs : list Arg).

(** A function identity: Python callables are told apart by their
    [__module__] and [__name__]. *)
Record func := Func { f_module : string; f_name : string }.

Global Instance func_eq_dec : EqDecision func.
Proof. solve_decision. Defined.

(** Op kind together with the target it is typed with: torch.fx checks on
    construction that a [call_function] target is a callable and that every
    other target is a string. *)
Inductive NodeKind :=
  | placeholder (target : string)
  | get_attr (target : string)
  | call_function (target : func)
  | call_method (target : string)
  | call_module (target : string)
  | output.

Inductive pytype :=
  | Tensor
  | nnParameter             (* torch.nn.Parameter, a subclass of Tensor *)
  | OtherType (nm : string).

Definition issubclass_Tensor (t : pytype) : bool :=
  match t with
  | Tensor | nnParameter => true
  | OtherType _ => false
  end.

(** [node.meta]: a dictionary; an absent key reads as [None] here and raises
    [KeyError] where the code subscripts it. *)
Record Meta := {
  m_type : option pytype;
  m_is_mutation : option bool;
  m_is_input_mutation : option bool;
  m_dtype : option Lit;
  m_device : option Lit;
}.

Definition no_meta : Meta :=
  {| m_type := None; m_is_mutation := None; m_is_input_mutation := None;
     m_dtype := None; m_device := None |}.

Record Node := {
  name : nat;                      (* node identity *)
  kind : NodeKind;                 (* [op] and [target] *)
  args : list Arg;
  kwargs : gmap string Arg;
  meta : Meta;
}.

(** A graph: its nodes in order, the supply of fresh identities, and the
    insertion point set by [with graph.inserting_before(n)] ([None]: append
    at the end). *)
Record Graph := {
  nodes : list Node;
  next_name : nat;
  insert_point : option nat;
}.

(** A sub-module instance: its class, its instance [__dict__], and what
    [InliningTracer().trace(module)] yields for it. *)
Record Module := {
  class_module : string;           (* [module.__class__.__module__] *)
  class_name : string;             (* [module.__class__.__name__] *)
  inst_dict : gmap string Lit;     (* [module.__dict__] *)
  traced : result (list Node);
}.

(** The mutable world of the in-place passes: the graph module (graph and
    sub-modules), the process-wide [counters] and standard output. *)
Record World := {
  graph : Graph;
  submodules : gmap string Module;
  counters : gmap (string * string) nat;
  stdout : list string;
}.

Definition is_placeholder (n : Node) : bool :=
  match kind n with placeholder _ => true | _ => false end.
Definition is_output (n : Node) : bool :=
  match kind n with output => true | _ => false end.
Definition is_call (n : Node) : bool :=
  match kind n with
  | call_function _ | call_method _ | call_module _ => true
  | _ => false
  end.

(** *** torch.fx.map_arg *)

Fixpoint map_arg (f : nat → Arg) (a : Arg) : Arg :=
  match a with
  | ALit l => ALit l
  | ANode n => f n
  | ATuple xs => ATuple (map (map_arg f) xs)
  end.

(** [map_arg] with a function that may raise [KeyError] (a dictionary's
    [__getitem__]): [None] when some node is missing. *)
Fixpoint map_arg_opt (f : nat → option Arg) (a : Arg) : option Arg :=
  match a with
  | ALit l => Some (ALit l)
  | ANode n => f n
  | ATuple xs =>
      ATuple <$>
        (fix go (l : list Arg) : option (list Arg) :=
           match l with
           | [] => Some []
           | x :: l' =>
               match map_arg_opt f x with
               | None => None
               | Some y => match go l' with
                           | None => None
                           | Some ys => Some (y :: ys)
                           end
               end
           end) xs
  end.

Fixpoint map_args_opt (f : nat → option Arg) (l : list Arg) : option (list Arg) :=
  match l with
  | [] => Some []
  | x :: l' =>
      match map_arg_opt f x with
      | None => None
      | Some y => match map_args_opt f l' with
                  | None => None
                  | Some ys => Some (y :: ys)
                  end
      end
  end.

(** Keyword arguments are resolved value by value; the result has the same
    keys. *)
Definition map_kwargs_opt (f : nat → option Arg) (k : gmap string Arg)
  : option (gmap string Arg) :=
  if bool_decide (map_Forall (λ _ a, is_Some (map_arg_opt f a)) k)
  then Some (omap (map_arg_opt f) k)
  else None.

(** The node references of an argument, in order. *)
Fixpoint arg_nodes (a : Arg) : list nat :=
  match a with
  | ALit _ => []
  | ANode n => [n]
  | ATuple xs => flat_map arg_nodes xs
  end.

Definition node_uses (n : Node) : list nat :=
  flat_map arg_nodes (args n) ++
  flat_map arg_nodes (snd <$> map_to_list (kwargs n)).

Definition uses (x : nat) (n : Node) : bool := bool_decide (x ∈ node_uses n).

(** *** Graph mutation *)

Fixpoint insert_before (anchor : nat) (new : Node) (l : list Node) : list Node :=
  match l with
  | [] => [new]
  | n :: l' =>
      if decide (name n = anchor) then new :: n :: l'
      else n :: insert_before anchor new l'
  end.

(** [graph.create_node]: the new node takes a fresh identity and goes to the
    insertion point. *)
Definition create_node (k : NodeKind) (a : list Arg) (kw : gmap string Arg)
    (m : Meta) (g : Graph) : nat * Graph :=
  let n := {| name := next_name g; kind := k; args := a; kwargs := kw; meta := m |} in
  (next_name g,
   {| nodes := match insert_point g with
               | Some anchor => insert_before anchor n (nodes g)
               | None => nodes g ++ [n]
               end;
      next_name := S (next_name g);
      insert_point := insert_point g |}).

Definition subst_node (old : nat) (new : Arg) (n : Node) : Node :=
  let f := λ x, if decide (x = old) then new else ANode x in
  {| name := name n; kind := kind n;
     args := map (map_arg f) (args n);
     kwargs := map_arg f <$> kwargs n;
     meta := meta n |}.

(** [old.replace_all_uses_with(new)]: every user of [old] reads [new]. *)
Definition replace_all_uses_with (old : nat) (new : Arg) (g : Graph) : Graph :=
  {| nodes := map (subst_node old new) (nodes g);
     next_name := next_name g;
     insert_point := insert_point g |}.

Fixpoint remove_node (x : nat) (l : list Node) : list Node :=
  match l with
  | [] => []
  | n :: l' => if decide (name n = x) then l' else n :: remove_node x l'
  end.

(** [graph.erase_node(n)]: refuses while [n] has users.  torch.fx also nulls
    the node references in the erased node's own arguments, so that a later
    [map_arg] over them finds no node. *)
Definition erase_node (x : nat) (g : Graph) : result Graph :=
  if existsb (uses x) (nodes g) then Raise RuntimeError
  else Ok {| nodes := remove_node x (nodes g);
             next_name := next_name g;
             insert_point := insert_point g |}.

Definition find_node (x : nat) (g : Graph) : option Node :=
  find (λ n, bool_decide (name n = x)) (nodes g).

Definition set_insert_point (p : option nat) (g : Graph) : Graph :=
  {| nodes := nodes g; next_name := next_name g; insert_point := p |}.

(** Lifting to the world. *)
Definition set_graph (g : Graph) (w : World) : World :=
  {| graph := g; submodules := submodules w;
     counters := counters w; stdout := stdout w |}.
Definition set_submodules (ms : gmap string Module) (w : World) : World :=
  {| graph := graph w; submodules := ms;
     counters := counters w; stdout := stdout w |}.
Definition set_counters (c : gmap (string * string) nat) (w : World) : World :=
  {| graph := graph w; submodules := submodules w;
     counters := c; stdout := stdout w |}.
Definition print (line : string) : M World unit :=
  modify (λ w, {| graph := graph w; submodules := submodules w;
                  counters := counters w; stdout := stdout w ++ [line] |}).

(** [counters[group][key] += 1] on a [defaultdict(Counter)]. *)
Definition bump (group key : string) (c : gmap (string * string) nat)
  : gmap (string * string) nat :=
  <[(group, key) := S (default 0 (c !! (group, key)))]> c.

Definition graph_create_node (k : NodeKind) (a : list Arg)
    (kw : gmap string Arg) (m : Meta) : M World nat :=
  λ w, let '(x, g) := create_node k a kw m (graph w) in (Ok x, set_graph g w).

(** torch.fx ends [replace_all_uses_with] with [assert len(self.users) == 0]. *)
Definition graph_replace_all_uses_with (old : nat) (new : Arg) : M World unit :=
  modify (λ w, set_graph (replace_all_uses_with old new (graph w)) w);;
  g ← gets graph;
  if existsb (uses old) (nodes g) then raise AssertionError else ret tt.

Definition graph_erase_node (x : nat) : M World unit :=
  λ w, match erase_node x (graph w) with
       | Ok g => (Ok tt, set_graph g w)
       | Raise e => (Raise e, w)
       end.

(** [with graph.inserting_before(n): body] — the previous insertion point is
    restored on every exit path. *)
Definition inserting_before {A} (n : nat) (body : M World A) : M World A :=
  λ w, let saved := insert_point (graph w) in
       try_finally body
         (modify (λ w', set_graph (set_insert_point saved (graph w')) w'))
         (set_graph (set_insert_point (Some n) (graph w)) w).

(** [gm.get_submodule(target)] *)
Definition get_submodule (target : string) : M World Module :=
  ms ← gets submodules; from_option AttributeError (ms !! target).

(** ** Configuration tables *)

Definition torch_fn (nm : string) : func := Func "torch" nm.
Definition F (nm : string) : func := Func "torch.nn.functional" nm.
Definition operator_fn (nm : string) : func := Func "_operator" nm.
Definition builtins_getattr : func := Func "builtins" "getattr".

Definition VIEW_OPS : gset string :=
  list_to_set
    [ "getitem"; "as_strided"; "detach"; "diagonal"; "expand"; "expand_as";
      "movedim"; "narrow"; "permute"; "select"; "squeeze"; "transpose"; "t";
      "T"; "real"; "imag"; "view_as_real"; "view_as_imag"; "unflatten";
      "unfold"; "unsqueeze"; "view"; "view_as"; "unbind"; "split";
      "split_with_sizes"; "swapaxes"; "swapdims"; "chunk"; "indices";
      "values" ].
Definition MAYBE_VIEW_OPS : gset string := list_to_set [ "contiguous"; "reshape" ].

(** convert x.foo(...) to torch.foo(x, ...) *)
Definition NORMALIZE_METHODS : gmap string func :=
  list_to_map
    [ ("add_", operator_fn "iadd");
      ("all", torch_fn "all");
      ("chunk", torch_fn "chunk");
      ("clamp", torch_fn "clamp");
      ("clone", torch_fn "clone");
      ("exp", torch_fn "exp");
      ("flatten", torch_fn "flatten");
      ("flip", torch_fn "flip");
      ("log_softmax", F "log_softmax");
      ("max", torch_fn "max");
      ("mean", torch_fn "mean");
      ("mul_", operator_fn "imul");
      ("narrow", torch_fn "narrow");
      ("nonzero", torch_fn "nonzero");
      ("numel", torch_fn "numel");
      ("pow", torch_fn "pow");
      ("rsqrt", torch_fn "rsqrt");
      ("sigmoid", torch_fn "sigmoid");
      ("softmax", F "softmax");
      ("sort", torch_fn "sort");
      ("squeeze", torch_fn "squeeze");
      ("std", torch_fn "std");
      ("sum", torch_fn "sum");
      ("transpose", torch_fn "transpose");
      ("tril", torch_fn "tril");
      ("unsqueeze", torch_fn "unsqueeze") ].

(** These have internal control flow *)
Definition DONT_EXPAND_MODULES : gset string :=
  list_to_set [ "ConvTranspose2d"; "EmbeddingBag"; "LSTM" ].

Definition INPLACE_OPS : list func :=
  [ F "mish"; F "silu"; F "hardsigmoid"; F "rrelu"; F "leaky_relu"; F "celu";
    F "selu"; F "elu"; F "relu6"; F "hardswish"; F "hardtanh"; F "relu";
    F "threshold" ].

(** The callables found in the dictionaries of [math], [builtins] and
    [operator]: the functions that belong to one of these modules (the
    functions of [operator] are implemented in [_operator]). *)
Definition SKIP_INPLACE (f : func) : bool :=
  bool_decide (f_module f ∈ [ "math"; "builtins"; "_operator"; "operator" ]).

Definition always_true : Lit := LObj "always_true".

(** ** normalize and expand_module_call *)

(** [module.__dict__[key] = v] *)
Definition set_dict_item (module key : string) (v : Lit) : M World unit :=
  modify (λ w,
    set_submodules
      (alter (λ m, {| class_module := class_module m; class_name := class_name m;
                      inst_dict := <[key := v]> (inst_dict m);
                      traced := traced m |}) module (submodules w)) w).

(** [del module.__dict__[key]] *)
Definition del_dict_item (module key : string) : M World unit :=
  m ← get_submodule module;
  match inst_dict m !! key with
  | None => raise KeyError
  | Some _ =>
      modify (λ w,
        set_submodules
          (alter (λ m, {| class_module := class_module m; class_name := class_name m;
                          inst_dict := delete key (inst_dict m);
                          traced := traced m |}) module (submodules w)) w)
  end.

(** [vars[a]] and [vars.__getitem__] on the substitution table. *)
Definition vars_getitem (vars : gmap nat Arg) (a : Arg) : option Arg :=
  match a with
  | ANode x => vars !! x
  | _ => None
  end.

(** [graph.node_copy(node, vars.__getitem__)] *)
Definition node_copy (node : Node) (vars : gmap nat Arg) : M World nat :=
  a ← from_option KeyError (map_args_opt (λ x, vars !! x) (args node));
  kw ← from_option KeyError (map_kwargs_opt (λ x, vars !! x) (kwargs node));
  graph_create_node (kind node) a kw (meta node).

(** The loop of [expand_module_call] over the traced nodes; [arg_index] is
    the state of [itertools.count()]. *)
Fixpoint expand_nodes (prefix : string) (args0 : list Arg) (sub : list Node)
    (arg_index : nat) (vars : gmap nat Arg) : M World Arg :=
  match sub with
  | [] => raise AssertionError                         (* assert False *)
  | node :: rest =>
      match kind node with
      | placeholder _ =>
          v ← from_option IndexError (args0 !! arg_index);
          expand_nodes prefix args0 rest (S arg_index) (<[name node := v]> vars)
      | output =>
          match args node with
          | [a] => from_option KeyError (vars_getitem vars a)
          | _ => raise AssertionError                  (* assert len(node.args) == 1 *)
          end
      | get_attr t =>
          x ← graph_create_node (get_attr (prefix +:+ t)) [] ∅ no_meta;
          expand_nodes prefix args0 rest arg_index (<[name node := ANode x]> vars)
      | _ =>
          x ← node_copy node vars;
          expand_nodes prefix args0 rest arg_index (<[name node := ANode x]> vars)
      end
  end.

(** [module] is the reference to the sub-module instance (its path in the
    graph module). *)
Definition expand_module_call (prefix : string) (module : string)
    (args0 : list Arg) (kwargs0 : gmap string Arg) : M World Arg :=
  (* this patch is needed to make BatchNorm2D FX trace *)
  set_dict_item module "_check_input_dim" always_true;;
  try_finally
    (try_except_reraise
       ((if bool_decide (kwargs0 = ∅) then ret tt else raise AssertionError);;
        m ← get_submodule module;
        sub ← lift_result (traced m);
        expand_nodes prefix args0 sub 0 ∅)
       (m ← get_submodule module;
        print ("Error while expanding " +:+ class_name m)))
    (del_dict_item module "_check_input_dim").

Definition swap_node (old_node : nat) (new_node : Arg) : M World unit :=
  graph_replace_all_uses_with old_node new_node;;
  graph_erase_node old_node.

(** The body of [normalize]'s loop for the node [x] of the snapshot
    [list(graph.nodes)]; its arguments are read from the graph as it is
    now. *)
Definition normalize_node (x : nat) : M World unit :=
  g ← gets graph;
  match find_node x g with
  | None => ret tt
  | Some node =>
      inserting_before x
        match kind node with
        | call_method t =>
            match NORMALIZE_METHODS !! t with
            | Some f =>
                new ← graph_create_node (call_function f) (args node) (kwargs node) no_meta;
                swap_node x (ANode new)
            | None => ret tt
            end
        | call_module t =>
            submod ← get_submodule t;
            if bool_decide (class_name submod ∈ DONT_EXPAND_MODULES) then ret tt
            else
              new ← expand_module_call (t +:+ ".") t (args node) (kwargs node);
              swap_node x new
        | _ => ret tt
        end
  end.

Definition normalize : M World unit :=
  g ← gets graph;
  for_each (map name (nodes g)) normalize_node.

(** ** Inplacifier *)

(** [NodeCounts.usages]: an [int], or [float("inf")]. *)
Inductive usage :=
  | Count (n : nat)
  | Inf.

Definition usage_incr (u : usage) : usage :=
  match u with
  | Count n => Count (S n)
  | Inf => Inf
  end.

Definition usage_is_zero (u : usage) : bool :=
  match u with
  | Count 0 => true
  | _ => false
  end.

(** The dictionary [counts] of [inplacify].  Its values are shared mutable
    [NodeCounts] objects: [cell_of] gives the object a node is bound to (an
    object is named after the node that allocated it) and [usages] the
    current content of each object. *)
Record Counts := {
  cell_of : gmap nat nat;
  usages : gmap nat usage;
}.

Definition counts_empty : Counts := {| cell_of := ∅; usages := ∅ |}.

(** [counts[node] = NodeCounts(u)] *)
Definition counts_fresh (x : nat) (u : usage) (c : Counts) : Counts :=
  {| cell_of := <[x := x]> (cell_of c); usages := <[x := u]> (usages c) |}.

(** [counts[node] = counts[a]]: [KeyError] unless [a] is a node bound in
    [counts]. *)
Definition counts_alias (x : nat) (a : Arg) (c : Counts) : M World Counts :=
  match a with
  | ANode y =>
      cell ← from_option KeyError (cell_of c !! y);
      ret {| cell_of := <[x := cell]> (cell_of c); usages := usages c |}
  | _ => raise KeyError
  end.

(** [counts[y].usages] *)
Definition counts_usages (y : nat) (c : Counts) : option usage :=
  cell ← cell_of c !! y; usages c !! cell.

(** [record_usage(y)]: [counts[y].usages += 1] *)
Definition record_usage (y : nat) (c : Counts) : M World Counts :=
  cell ← from_option KeyError (cell_of c !! y);
  u ← from_option KeyError (usages c !! cell);
  ret {| cell_of := cell_of c; usages := <[cell := usage_incr u]> (usages c) |}.

Fixpoint record_usages (ys : list nat) (c : Counts) : M World Counts :=
  match ys with
  | [] => ret c
  | y :: ys' => c' ← record_usage y c; record_usages ys' c'
  end.

Definition short_name (node : Node) : M World string :=
  match kind node with
  | call_function target => ret (f_name target)
  | call_method target => ret target
  | call_module target => m ← get_submodule target; ret (class_name m)
  | get_attr target => ret target
  | output => ret "output"
  | placeholder _ => raise AssertionError               (* assert False, node.op *)
  end.

(** [name in VIEW_OPS or name in MAYBE_VIEW_OPS] *)
Definition view_name (nm : string) : bool :=
  bool_decide (nm ∈ VIEW_OPS) || bool_decide (nm ∈ MAYBE_VIEW_OPS).

Arguments view_name : simpl never.

Definition can_be_view (node : Node) : M World bool :=
  nm ← short_name node;
  ret (view_name nm).

(** First loop of [inplacify]: which buffer each node lives in. *)
Definition alias_node (node : Node) (c : Counts) : M World Counts :=
  if is_call node then
    v ← can_be_view node;
    (if (v : bool) then
       (* Aliasing *)
       match args node with
       | a :: _ => counts_alias (name node) a c
       | [] => raise IndexError
       end
     else
       match kwargs node !! "out" with
       | Some a => counts_alias (name node) a c
       | None => ret (counts_fresh (name node) (Count 0) c)
       end : M World Counts)
  else ret (counts_fresh (name node) Inf c).

Fixpoint alias_nodes (l : list Node) (c : Counts) : M World Counts :=
  match l with
  | [] => ret c
  | node :: l' => c' ← alias_node node c; alias_nodes l' c'
  end.

(** Substring test, for [needle in haystack]. *)
Fixpoint contains (needle hay : string) : bool :=
  String.prefix needle hay ||
  match hay with
  | EmptyString => false
  | String _ hay' => contains needle hay'
  end.

(** How one iteration of the second loop ends. *)
Inductive Outcome :=
  | Skipped        (* [continue]: the usages of the node are not recorded *)
  | Rewritten      (* the node was replaced and erased *)
  | Kept.          (* no rewrite was attempted *)

Definition bump_counter (group key : string) : M World unit :=
  modify (λ w, set_counters (bump group key (counters w)) w).

Section Inplacifier.
(** [repr(get_signature_for_torch_op(target))], from torch.fx. *)
Variable signature_repr : func → string.

(** [node.target in INPLACE_OPS] *)
Definition has_inplace_variant (target : func) : bool :=
  bool_decide (target ∈ INPLACE_OPS).

(** [" out: torch.Tensor" in repr(get_signature_for_torch_op(node.target))] *)
Definition accepts_out (target : func) : bool :=
  contains " out: torch.Tensor" (signature_repr target).

(** The rewrite at the end of a successful candidate test. *)
Definition reissue (node : Node) (target : func) (kw : gmap string Arg)
  : M World unit :=
  inserting_before (name node)
    (new ← graph_create_node (call_function target) (args node) kw no_meta;
     graph_replace_all_uses_with (name node) (ANode new));;
  graph_erase_node (name node).

(** [node.args[0] if node.args else next(kwargs.values())]: a
    [dict_values] view is not an iterator, [next] raises [TypeError]. *)
Definition sole_argument (node : Node) : M World Arg :=
  match args node with
  | a :: _ => ret a
  | [] => raise TypeError
  end.

(** The candidate test and rewrite of one node in the second loop. *)
Definition rewrite_node (node : Node) (c : Counts) : M World Outcome :=
  let kw := delete "inplace" (kwargs node) in
  match kind node with
  | call_function target =>
      if (length (args node) + size kw =? 1)%nat then
        arg ← sole_argument node;
        match arg with
        | ANode a =>
            u ← from_option KeyError (counts_usages a c);
            if usage_is_zero u then
              if SKIP_INPLACE target then ret Skipped
              else if has_inplace_variant target then
                bump_counter "optimizations" "inplace";;
                reissue node target (<["inplace" := ALit (LBool true)]> kw);;
                ret Rewritten
              else if accepts_out target then
                bump_counter "optimizations" "out";;
                reissue node target (<["out" := arg]> kw);;
                ret Rewritten
              else ret Skipped
            else ret Kept
        | _ => ret Kept
        end
      else ret Kept
  | _ => ret Kept
  end.

(** Second loop of [inplacify], for the node [x] of the reversed snapshot.
    After a rewrite the final [map_arg] runs over the erased node, whose
    node references torch.fx has nulled: it records nothing. *)
Definition inplacify_node (x : nat) (c : Counts) : M World Counts :=
  g ← gets graph;
  match find_node x g with
  | None => ret c
  | Some node =>
      o ← rewrite_node node c;
      match o with
      | Skipped | Rewritten => ret c
      | Kept => record_usages (node_uses node) c
      end
  end.

Fixpoint inplacify_nodes (xs : list nat) (c : Counts) : M World Counts :=
  match xs with
  | [] => ret c
  | x :: xs' => c' ← inplacify_node x c; inplacify_nodes xs' c'
  end.

Definition inplacify : M World unit :=
  g ← gets graph;
  counts ← alias_nodes (nodes g) counts_empty;
  g' ← gets graph;
  inplacify_nodes (rev (map name (nodes g'))) counts;;
  ret tt.
End Inplacifier.

(** ** Functionalization (a torch.fx Transformer) *)

(** The interpreter's state: the world (the source graph module is only
    read, [counters] is written), the graph being built and the environment
    from source nodes to their values.  A value is an argument over the new
    graph: [ANode x] is the [Proxy] of the new node [x]. *)
Record Interp := {
  world : World;
  new_graph : Graph;
  env : gmap nat Arg;
}.

Definition in_world {A} (m : M World A) : M Interp A :=
  λ s, match m (world s) with
       | (r, w) => (r, {| world := w; new_graph := new_graph s; env := env s |})
       end.

Definition set_env (e : gmap nat Arg) (s : Interp) : Interp :=
  {| world := world s; new_graph := new_graph s; env := e |}.

(** [tracer.create_proxy(...)], [new_graph.placeholder], [new_graph.get_attr]:
    a node appended to the new graph; the value is its [Proxy]. *)
Definition emit (k : NodeKind) (a : list Arg) (kw : gmap string Arg) : M Interp Arg :=
  λ s, let '(x, g) := create_node k a kw no_meta (new_graph s) in
       (Ok (ANode x), {| world := world s; new_graph := g; env := env s |}).

(** [fetch_args_kwargs_from_env]: torch.fx raises [RuntimeError] for a node
    without a value. *)
Definition fetch_args_kwargs_from_env (n : Node)
  : M Interp (list Arg * gmap string Arg) :=
  e ← gets env;
  a ← from_option RuntimeError (map_args_opt (λ x, e !! x) (args n));
  kw ← from_option RuntimeError (map_kwargs_opt (λ x, e !! x) (kwargs n));
  ret (a, kw).

(** Python truth value of an interpreter value; a [Proxy] refuses to be used
    in control flow. *)
Definition truthy (v : Arg) : M Interp bool :=
  match v with
  | ALit LNone => ret false
  | ALit (LBool b) => ret b
  | ALit (LInt z) => ret (negb (z =? 0)%Z)
  | ALit (LStr s) => ret (negb (bool_decide (s = "")))
  | ALit (LObj _) => ret true
  | ANode _ => raise TraceError
  | ATuple xs => ret (negb (bool_decide (xs = [])))
  end.

(** [n.args[0]] *)
Definition first_arg (n : Node) : M Interp Arg :=
  from_option IndexError (args n !! 0).

Definition startswith_i (s : string) : bool := String.prefix "i" s.

(** [s[1:]] *)
Definition drop_first (s : string) : string :=
  match s with
  | EmptyString => EmptyString
  | String _ s' => s'
  end.

(** [target is builtins.getattr] *)
Definition is_builtins_getattr (k : NodeKind) : bool :=
  match k with
  | call_function target => bool_decide (target = builtins_getattr)
  | _ => false
  end.

(** The attribute name read by a folded [getattr], as a counter key. *)
Definition attr_key (a : Arg) : string :=
  match a with
  | ALit (LStr s) => s
  | ALit LNone => "None"
  | ALit (LBool true) => "True"
  | ALit (LBool false) => "False"
  | ALit (LInt _) => "<int>"
  | ALit (LObj r) => r
  | ANode _ => "<proxy>"
  | ATuple _ => "<tuple>"
  end.

Section Functionalization.
(** [_allowed_function_ids()], keyed by function identity. *)
Variable allowed_function_ids : func → option string.
(** [hasattr(torch, name)] *)
Variable torch_namespace : string → bool.

Definition long_name (node : Node) : M World string :=
  nm ← short_name node;
  match kind node with
  | call_function target =>
      ret (default (f_module target +:+ "." +:+ nm) (allowed_function_ids target))
  | call_method _ => ret nm
  | call_module target =>
      m ← get_submodule target;
      ret (class_module m +:+ "." +:+ class_name m)
  | get_attr _ => ret nm
  | output => ret "output"
  | placeholder _ => raise AssertionError
  end.

(** [getattr(torch, name)] *)
Definition torch_getattr (nm : string) : M Interp func :=
  if torch_namespace nm then ret (torch_fn nm) else raise AttributeError.

Definition tally (group : string) (n : Node) : M Interp unit :=
  in_world (key ← long_name n; bump_counter group key).

(** [not n.meta["is_input_mutation"] and issubclass(n.meta["type"], torch.Tensor)] *)
Definition purifiable (n : Node) : M Interp bool :=
  im ← from_option KeyError (m_is_input_mutation (meta n));
  if (im : bool) then ret false
  else ty ← from_option KeyError (m_type (meta n)); ret (issubclass_Tensor ty).

(** The branches of [run_node] that rename an [operator] function, for a
    node without [inplace] and [out] keywords. *)
Definition purify_target (n : Node) (kw : gmap string Arg)
  : M Interp (NodeKind * gmap string Arg * list Arg) :=
  let unresolved : M Interp (NodeKind * gmap string Arg * list Arg) :=
    mut ← from_option KeyError (m_is_mutation (meta n));
    (if (mut : bool) then tally "mutation" n else ret tt);;
    ret (kind n, kw, []) in
  match kind n with
  | call_function target =>
      if decide (target = torch_fn "relu_") then
        a0 ← first_arg n;
        ret (call_function (torch_fn "relu"), kw, [a0])
      else if bool_decide (f_module target = "_operator") && startswith_i (f_name target) then
        (* iadd, imul, etc *)
        t ← torch_getattr (drop_first (f_name target));
        a0 ← first_arg n;
        ret (call_function t, kw, [a0])
      else if bool_decide (f_module target = "_operator")
              && negb (bool_decide (target ∈ [ operator_fn "getitem";
                                              operator_fn "setitem";
                                              operator_fn "truediv" ])) then
        let nm := f_name target in
        let nm := if decide (nm = "truediv") then "div"
                  else if decide (nm = "and_") then "bitwise_and"
                  else if decide (nm = "or_") then "bitwise_or"
                  else nm in
        t ← torch_getattr nm;
        ret (call_function t, kw, [])
      else unresolved
  | _ => unresolved
  end.

(** The first conditional of [run_node]: the kind to emit, the keyword
    arguments to emit it with and the patch targets. *)
Definition purify (n : Node) (kw : gmap string Arg)
  : M Interp (NodeKind * gmap string Arg * list Arg) :=
  p ← purifiable n;
  if (p : bool) then
    match kwargs n !! "inplace" with
    | Some _ =>
        v ← from_option KeyError (kw !! "inplace");
        b ← truthy v;
        patches ← (if (b : bool) then a0 ← first_arg n; ret [a0] else ret []);
        ret (kind n, delete "inplace" kw, patches)
    | None =>
        match kwargs n !! "out" with
        | Some o => ret (kind n, delete "out" kw, [o])
        | None => purify_target n kw
        end
    end
  else ret (kind n, kw, []).

(** [n.args[0].meta[key]] of a folded [getattr]. *)
Definition arg0_meta (n : Node) (field : Meta → option Lit) : M Interp Arg :=
  a0 ← first_arg n;
  match a0 with
  | ANode x =>
      g ← gets (λ s, graph (world s));
      src ← from_option AttributeError (find_node x g);
      v ← from_option KeyError (field (meta src));
      ret (ALit v)
  | _ => raise AttributeError
  end.

(** [getattr(self, n.op)(target, args, kwargs)] with the methods of
    [Transformer]; its tracer treats every module as a leaf. *)
Definition dispatch (k : NodeKind) (a : list Arg) (kw : gmap string Arg)
  : M Interp Arg :=
  match k with
  | placeholder target => emit (placeholder target) (take 1 a) ∅
  | get_attr target => emit (get_attr target) [] ∅
  | call_function target => emit (call_function target) a kw
  | call_method target =>
      match a with
      | [] => raise ValueError                  (* self_obj, *args_tail = args *)
      | ANode _ :: _ => emit (call_method target) a kw
      | _ :: _ => raise ConcreteCall
      end
  | call_module target =>
      ms ← gets (λ s, submodules (world s));
      match ms !! target with
      | Some _ => emit (call_module target) a kw
      | None => raise RuntimeError              (* fetch_attr *)
      end
  | output => from_option IndexError (a !! 0)
  end.

(** [for patch in patches: ...] *)
Fixpoint apply_patches (patches : list Arg) (r : Arg) : M Interp unit :=
  match patches with
  | [] => ret tt
  | ANode x :: rest =>
      e ← gets env;
      (if bool_decide (is_Some (e !! x))
       then modify (set_env (<[x := r]> e)) else ret tt);;
      apply_patches rest r
  | _ :: _ => raise AssertionError     (* assert isinstance(patch, torch.fx.Node) *)
  end.

(** What [run_node] does after the first conditional: [None] stands for
    going on to emit the node, [Some v] for an early [return v]. *)
Definition fold_getattr (n : Node) (k : NodeKind) (a : list Arg)
  : M Interp (option Arg) :=
  if is_builtins_getattr k then
    a1 ← from_option IndexError (a !! 1);
    match a1 with
    | ANode _ => raise TraceError                (* if <Proxy> == "dtype" *)
    | ALit (LStr "dtype") => v ← arg0_meta n m_dtype; ret (Some v)
    | ALit (LStr "device") => v ← arg0_meta n m_device; ret (Some v)
    | _ => in_world (bump_counter "getattr" (attr_key a1));; ret None
    end
  else
    ty ← from_option KeyError (m_type (meta n));
    (if issubclass_Tensor ty then ret tt else tally "nontensor" n);;
    ret None.

Definition run_node (n : Node) : M Interp Arg :=
  '(a, kw) ← fetch_args_kwargs_from_env n;
  '(k, kw', patches) ← purify n kw;
  early ← fold_getattr n k a;
  match early with
  | Some v => ret v
  | None =>
      r ← dispatch k a kw';
      apply_patches patches r;;
      ret r
  end.

(** [user_to_last_uses[n]]: the nodes whose last reader is [n], given the
    nodes [later] that follow [n]. *)
Definition last_uses (n : Node) (later : list Node) : list nat :=
  filter (λ x, ¬ Exists (λ m, x ∈ node_uses m) later)
         (remove_dups (node_uses n)).

(** [del self.env[to_delete]] *)
Fixpoint forget (xs : list nat) : M Interp unit :=
  match xs with
  | [] => ret tt
  | x :: xs' =>
      e ← gets env;
      match e !! x with
      | Some _ => modify (set_env (delete x e));; forget xs'
      | None => raise KeyError
      end
  end.

(** One iteration of [Interpreter.run]: run the node, bind its value,
    drop the values that have no reader left. *)
Definition step (n : Node) (later : list Node) : M Interp Arg :=
  r ← run_node n;
  modify (λ s, set_env (<[name n := r]> (env s)) s);;
  forget (last_uses n later);;
  ret r.

(** [Interpreter.run]: the value of the first [output] node, or [None]
    when the loop ends without one. *)
Fixpoint run (l : list Node) : M Interp (option Arg) :=
  match l with
  | [] => ret None
  | n :: later =>
      e ← gets env;
      if bool_decide (is_Some (e !! name n)) then run later
      else
        r ← step n later;
        if is_output n then ret (Some r) else run later
  end.

(** [Functionalization(gm).transform()]: the new graph. *)
Definition transform : M Interp Graph :=
  g ← gets (λ s, graph (world s));
  result ← run (nodes g);
  match result with
  | None | Some (ALit LNone) => ret tt
  | Some v => emit output [v] ∅;; ret tt
  end;;
  gets new_graph.

Definition empty_graph : Graph :=
  {| nodes := []; next_name := 0; insert_point := None |}.

Definition functionalize (w : World) : result Graph * World :=
  match transform {| world := w; new_graph := empty_graph; env := ∅ |} with
  | (r, s) => (r, world s)
  end.
End Functionalization.

(** ** Properties the passes are checked against *)

(** The targets of the [placeholder] nodes, in graph order. *)
Definition placeholder_target (n : Node) : option string :=
  match kind n with
  | placeholder target => Some target
  | _ => None
  end.

Definition placeholders (l : list Node) : list string :=
  omap placeholder_target l.

(** No node follows an [output] node. *)
Fixpoint output_last (l : list Node) : bool :=
  match l with
  | [] => true
  | n :: l' =>
      match l' with
      | [] => true
      | _ :: _ => negb (is_output n) && output_last l'
      end
  end.

(** Structural invariant of a source graph: node identities are distinct and
    the [output] node comes last. *)
Definition graph_wf (g : Graph) : Prop :=
  NoDup (map name (nodes g)) ∧ output_last (nodes g) = true.

(** The mutation markers [Functionalization] looks for in a target:
    [torch.relu_] and the in-place functions of [operator]. *)
Definition destructive (k : NodeKind) : bool :=
  match k with
  | call_function target =>
      bool_decide (target = torch_fn "relu_")
      || (bool_decide (f_module target = "_operator") && startswith_i (f_name target))
  | _ => false
  end.


(** The calls [Transformer] re-emits as one node of the same kind: any
    function but [builtins.getattr], a method of a [Proxy], a module that
    exists. *)
Definition reemitted (k : NodeKind) (a : list Arg) (ms : gmap string Module) : bool :=
  match k with
  | call_function target => negb (bool_decide (target = builtins_getattr))
  | call_method _ => match a with ANode _ :: _ => true | _ => false end
  | call_module target => bool_decide (is_Some (ms !! target))
  | _ => false
  end.

(** The interpreter state after one node was appended to the new graph. *)
Definition appended (k : NodeKind) (a : list Arg) (kw : gmap string Arg)
    (s : Interp) : Interp :=
  {| world := world s;
     new_graph :=
       {| nodes := nodes (new_graph s) ++
                   [ {| name := next_name (new_graph s); kind := k; args := a;
                        kwargs := kw; meta := no_meta |} ];
          next_name := S (next_name (new_graph s));
          insert_point := None |};
     env := env s |}.

(** ** Sample tables and graphs *)

(** What torch.fx prints for the signatures of some torch operations. *)
Definition sample_signature_repr (f : func) : string :=
  if decide (f = torch_fn "exp") then
    "[<Signature (input: torch.Tensor, *, out: torch.Tensor = None) -> torch.Tensor>]"
  else if decide (f = torch_fn "add") then
    "[<Signature (input: torch.Tensor, other: torch.Tensor, *, alpha: Number = 1, out: torch.Tensor = None) -> torch.Tensor>]"
  else "None".

Definition sample_allowed_function_ids (f : func) : option string :=
  if decide (f_module f = "torch") then Some ("torch." +:+ f_name f) else None.

Definition sample_torch_namespace (nm : string) : bool :=
  bool_decide (nm ∈ [ "add"; "mul"; "sub"; "relu"; "relu_"; "exp"; "neg";
                      "bitwise_and"; "bitwise_or"; "div" ]).

Definition tensor_meta : Meta :=
  {| m_type := Some Tensor; m_is_mutation := Some false;
     m_is_input_mutation := Some false; m_dtype := None; m_device := None |}.

Definition input_mutation_meta : Meta :=
  {| m_type := Some Tensor; m_is_mutation := Some true;
     m_is_input_mutation := Some true; m_dtype := None; m_device := None |}.

Definition mk_node (x : nat) (k : NodeKind) (a : list Arg)
    (kw : gmap string Arg) (m : Meta) : Node :=
  {| name := x; kind := k; args := a; kwargs := kw; meta := m |}.

(** A graph as the tracer leaves it: nodes named [0 .. n-1] in order. *)
Definition mk_graph (l : list Node) : Graph :=
  {| nodes := l; next_name := length l; insert_point := None |}.

Definition mk_world (l : list Node) (ms : gmap string Module) : World :=
  {| graph := mk_graph l; submodules := ms; counters := ∅; stdout := [] |}.

(** [y = relu(x); output(y)] over the graph input [x]. *)
Definition relu_of_input : list Node :=
  [ mk_node 0 (placeholder "x") [] ∅ tensor_meta;
    mk_node 1 (call_function (F "relu")) [ANode 0] ∅ tensor_meta;
    mk_node 2 output [ANode 1] ∅ tensor_meta ].

(** [x = f(p); y = g(x); output(y)] *)
Definition chain (f g : func) (m0 m1 m2 m3 : Meta) : list Node :=
  [ mk_node 0 (placeholder "p") [] ∅ m0;
    mk_node 1 (call_function f) [ANode 0] ∅ m1;
    mk_node 2 (call_function g) [ANode 1] ∅ m2;
    mk_node 3 output [ANode 2] ∅ m3 ].

(** [chain f g] after [inplacify] has reissued the call of [g] with the
    keyword arguments [kw]. *)
Definition chain_reissued (f g : func) (kw : gmap string Arg)
    (m0 m1 m3 : Meta) : Graph :=
  {| nodes := [ mk_node 0 (placeholder "p") [] ∅ m0;
                mk_node 1 (call_function f) [ANode 0] ∅ m1;
                mk_node 4 (call_function g) [ANode 1] kw no_meta;
                mk_node 3 output [ANode 4] ∅ m3 ];
     next_name := 5;
     insert_point := None |}.

(** [y = add(a, b); output(y)] over the graph inputs [a] and [b]. *)
Definition add_of_inputs : list Node :=
  [ mk_node 0 (placeholder "a") [] ∅ tensor_meta;
    mk_node 1 (placeholder "b") [] ∅ tensor_meta;
    mk_node 2 (call_function (torch_fn "add")) [ANode 0; ANode 1] ∅ tensor_meta;
    mk_node 3 output [ANode 2] ∅ tensor_meta ].

(** [x = sin(p); y = relu(input=x); output(y)]: the sole argument of [relu]
    is passed by keyword. *)
Definition relu_by_keyword : list Node :=
  [ mk_node 0 (placeholder "p") [] ∅ tensor_meta;
    mk_node 1 (call_function (torch_fn "sin")) [ANode 0] ∅ tensor_meta;
    mk_node 2 (call_function (F "relu")) [] {[ "input" := ANode 1 ]} tensor_meta;
    mk_node 3 output [ANode 2] ∅ tensor_meta ].

(** [torch.nn.Flatten]: its forward is [input.flatten(start_dim, end_dim)]. *)
Definition Flatten : Module :=
  {| class_module := "torch.nn.modules.flatten";
     class_name := "Flatten";
     inst_dict := ∅;
     traced :=
       Ok [ mk_node 0 (placeholder "input") [] ∅ no_meta;
            mk_node 1 (call_method "flatten")
              [ANode 0; ALit (LInt 1); ALit (LInt (-1))] ∅ no_meta;
            mk_node 2 output [ANode 1] ∅ no_meta ] |}.

(** A module that cannot be traced. *)
Definition Untraceable : Module :=
  {| class_module := "user"; class_name := "Dynamic";
     inst_dict := {[ "training" := LBool true ]};
     traced := Raise TracingFailed |}.

(** [y = self.flat(x); output(y)] *)
Definition flatten_call : list Node :=
  [ mk_node 0 (placeholder "x") [] ∅ tensor_meta;
    mk_node 1 (call_module "flat") [ANode 0] ∅ tensor_meta;
    mk_node 2 output [ANode 1] ∅ tensor_meta ].

(** [y = x.add_(b); output(y)] *)
Definition add_method_call : list Node :=
  [ mk_node 0 (placeholder "x") [] ∅ tensor_meta;
    mk_node 1 (placeholder "b") [] ∅ tensor_meta;
    mk_node 2 (call_method "add_") [ANode 0; ANode 1] ∅ tensor_meta;
    mk_node 3 output [ANode 2] ∅ tensor_meta ].


(** [x = sin(p); relu_(x); z = exp(x); output(z)]: an in-place [relu_],
    then a read of the mutated [x]. *)
Definition mutation_then_read : list Node :=
  [ mk_node 0 (placeholder "p") [] ∅ tensor_meta;
    mk_node 1 (call_function (torch_fn "sin")) [ANode 0] ∅ tensor_meta;
    mk_node 2 (call_function (torch_fn "relu_")) [ANode 1] ∅ tensor_meta;
    mk_node 3 (call_function (torch_fn "exp")) [ANode 1] ∅ tensor_meta;
    mk_node 4 output [ANode 3] ∅ tensor_meta ].

(** The interpreter on [mutation_then_read] after [p] and [x = sin(p)]: the
    value of [p] has been dropped after its last reader. *)
Definition after_sin : Interp :=
  {| world := mk_world mutation_then_read ∅;
     new_graph :=
       mk_graph [ mk_node 0 (placeholder "p") [] ∅ no_meta;
                  mk_node 1 (call_function (torch_fn "sin")) [ANode 0] ∅ no_meta ];
     env := {[ 1 := ANode 1 ]} |}.

(** [y = relu(x, inplace=flag)] on the node [x = sin(p)]. *)
Definition relu_inplace (flag : bool) : Node :=
  mk_node 2 (call_function (F "relu")) [ANode 1]
    {[ "inplace" := ALit (LBool flag) ]} tensor_meta.


(** [relu_(x); z = exp(x); output(z)] on the graph input [x]: the [relu_]
    call is marked as an input mutation. *)
Definition mutation_of_input : list Node :=
  [ mk_node 0 (placeholder "x") [] ∅ tensor_meta;
    mk_node 1 (call_function (torch_fn "relu_")) [ANode 0] ∅ input_mutation_meta;
    mk_node 2 (call_function (torch_fn "exp")) [ANode 0] ∅ tensor_meta;
    mk_node 3 output [ANode 2] ∅ tensor_meta ].

(** The candidate test of the second loop of [inplacify], for a call whose
    sole effective argument is positional: a [call_function] node with
    exactly one argument once [inplace] is dropped, that argument a node
    whose buffer has no recorded use. *)
Definition candidate (node : Node) (c : Counts) : bool :=
  match kind node with
  | call_function _ =>
      (length (args node) + size (delete "inplace" (kwargs node)) =? 1)%nat
      && match args node with
         | ANode a :: _ =>
             match counts_usages a c with
             | Some u => usage_is_zero u
             | None => false
             end
         | _ => false
         end
  | _ => false
  end.

(** No function of the [operator] module is called [irelu_] or [relu_]:
    these are the only names whose renaming would land on [torch.relu_]. *)
Definition real_operator_target (k : NodeKind) : Prop :=
  k ≠ call_function (operator_fn "irelu_") ∧ k ≠ call_function (operator_fn "relu_").



(** ** Predicates used in the proofs *)

(** [leads P m Q]: started in a state satisfying [P], the computation [m]
    ends in a state satisfying [Q], whether it returns or raises. *)
Definition leads {S A} (P : S → Prop) (m : M S A) (Q : S → Prop) : Prop :=
  ∀ s, P s → Q (m s).2.

(** [keeps P m]: [P] is an invariant of [m]. *)
Definition keeps {S A} (P : S → Prop) (m : M S A) : Prop := leads P m P.

(** [edit_proof P]: [P] survives the creation of any node that is not a
    placeholder, the redirection of uses, a change of the insertion point
    and printing. *)
Definition edit_proof (P : World → Prop) : Prop :=
  (∀ k a kw m, (∀ t, k ≠ placeholder t) → keeps P (graph_create_node k a kw m)) ∧
  (∀ old new, keeps P (graph_replace_all_uses_with old new)) ∧
  (∀ p, keeps P (modify (λ w, set_graph (set_insert_point p (graph w)) w))) ∧
  (∀ line, keeps P (print line)).

(** The node the identity [x] reaches is not a placeholder. *)
Definition reaches_call (x : nat) (l : list Node) : Prop :=
  ∀ n, find (λ n, bool_decide (name n = x)) l = Some n → placeholder_target n = None.

(** The invariants of a rewrite of the node [x]: the placeholders are [L]
    and, until [x] is erased, [x] reaches a call. *)
Definition placeholders_are (L : list string) (w : World) : Prop :=
  placeholders (nodes (graph w)) = L.

Definition rewriting (x : nat) (L : list string) (w : World) : Prop :=
  placeholders (nodes (graph w)) = L ∧ reaches_call x (nodes (graph w)).

(** Predicates that only look at the graph. *)
Definition graph_only (P : World → Prop) : Prop :=
  ∀ w w', graph w' = graph w → P w → P w'.

(** Predicates of the interpreter state that do not look at the world. *)
Definition world_blind (P : Interp → Prop) : Prop :=
  ∀ s w, P s → P {| world := w; new_graph := new_graph s; env := env s |}.

(** The kind chosen by [purify]: the node's own, or another function for a
    function call. *)
Definition same_op (k k' : NodeKind) : Prop :=
  k' = k ∨ ∃ f f', k = call_function f ∧ k' = call_function f'.

(** ** Further predicates and sample graphs *)

(** *** Functionalization *)

(** The interpreter state after [counters[group][key] += 1]. *)
Definition with_counter (group key : string) (s : Interp) : Interp :=
  {| world := set_counters (bump group key (counters (world s))) (world s);
     new_graph := new_graph s; env := env s |}.

(** The part of the world [Functionalization] only reads. *)
Definition source_is (w0 : World) (s : Interp) : Prop :=
  graph (world s) = graph w0 ∧ submodules (world s) = submodules w0
  ∧ stdout (world s) = stdout w0.

(** [interp_frame P]: [P] survives what [run_node] does to the interpreter
    state: a counter update, the emission of a node that is not an output,
    and the patch of a binding that exists. *)
Definition interp_frame (P : Interp → Prop) : Prop :=
  (∀ group key, keeps P (in_world (bump_counter group key))) ∧
  (∀ k a kw, k ≠ output → keeps P (emit k a kw)) ∧
  (∀ s x r, P s → is_Some (env s !! x) → P (set_env (<[x := r]> (env s)) s)).

(** Predicates of the interpreter state that do not look at the
    environment. *)
Definition env_blind (P : Interp → Prop) : Prop :=
  ∀ s e, P s → P (set_env e s).

(** The new graph is appended to and holds no [output] node yet. *)
Definition no_output (s : Interp) : Prop :=
  insert_point (new_graph s) = None
  ∧ Forall (λ m, is_output m = false) (nodes (new_graph s)).

(** *** expand_module_call *)

(** The kinds of the nodes [expand_module_call] creates: copies of the
    calls of the traced module, and attribute reads under the prefix. *)
Definition spliced (prefix : string) (k : NodeKind) : Prop :=
  match k with
  | call_function _ | call_method _ | call_module _ => True
  | get_attr t => ∃ t0, t = prefix +:+ t0
  | placeholder _ | output => False
  end.

(** The graph [g] is the graph of [l1 ++ nx :: l2] with the fresh nodes
    [news] spliced in before [nx], the insertion point. *)
Definition spliced_before (prefix : string) (n0 : nat) (l1 : list Node)
    (nx : Node) (l2 : list Node) (news : list Node) (g : Graph) : Prop :=
  nodes g = l1 ++ news ++ nx :: l2
  ∧ map name news = seq n0 (length news)
  ∧ Forall (λ n, spliced prefix (kind n)) news
  ∧ next_name g = (n0 + length news)%nat
  ∧ insert_point g = Some (name nx).

(** The module instance with the stub installed, and once it is released. *)
Definition with_stub (m : Module) : Module :=
  {| class_module := class_module m; class_name := class_name m;
     inst_dict := <["_check_input_dim" := always_true]> (inst_dict m);
     traced := traced m |}.

Definition without_stub (m : Module) : Module :=
  {| class_module := class_module m; class_name := class_name m;
     inst_dict := delete "_check_input_dim" (inst_dict m);
     traced := traced m |}.

(** *** Inplacifier *)

(** The calls [inplacify] can rewrite: functions outside the skip list
    that have an in-place variant or accept an output buffer. *)
Definition rewritable (signature_repr : func → string) (k : NodeKind) : bool :=
  match k with
  | call_function target =>
      negb (SKIP_INPLACE target)
      && (has_inplace_variant target || accepts_out signature_repr target)
  | _ => false
  end.

(** Identity and kind of the nodes whose kind satisfies [keep], in graph
    order. *)
Definition fixed_nodes (keep : NodeKind → bool) (l : list Node)
  : list (nat * NodeKind) :=
  omap (λ n, if keep (kind n) then Some (name n, kind n) else None) l.

(** The node the identity [x] reaches is not one of the kept nodes. *)
Definition loose (keep : NodeKind → bool) (x : nat) (l : list Node) : Prop :=
  ∀ n, find (λ n, bool_decide (name n = x)) l = Some n → keep (kind n) = false.

(** The invariants of a rewrite of the node [x]: the kept nodes are [L]
    and, until [x] is erased, [x] reaches a node that is not kept. *)
Definition fixed_are (keep : NodeKind → bool) (L : list (nat * NodeKind))
    (w : World) : Prop :=
  fixed_nodes keep (nodes (graph w)) = L.

Definition loosening (keep : NodeKind → bool) (x : nat)
    (L : list (nat * NodeKind)) (w : World) : Prop :=
  fixed_nodes keep (nodes (graph w)) = L ∧ loose keep x (nodes (graph w)).

(** [counters["optimizations"]["inplace"] + counters["optimizations"]["out"]] *)
Definition optimizations (c : gmap (string * string) nat) : nat :=
  (default 0 (c !! ("optimizations", "inplace")) +
   default 0 (c !! ("optimizations", "out")))%nat.

(** Every node created since the world was [w0] is counted in
    [counters["optimizations"]], and nothing else of the world differs from
    [w0] but the graph; [pending] is the number of counted rewrites whose
    node is still to be created. *)
Definition counted (pending : nat) (w0 : World) (w : World) : Prop :=
  (next_name (graph w) + pending + optimizations (counters w0)
   = next_name (graph w0) + optimizations (counters w))%nat
  ∧ submodules w = submodules w0 ∧ stdout w = stdout w0
  ∧ ∀ key, key ≠ ("optimizations", "inplace") → key ≠ ("optimizations", "out") →
           counters w !! key = counters w0 !! key.

(** [x = f(p); y = h(x); z = g(x); output((y, z))]: the buffer of [x] has
    two readers. *)
Definition fork (f h g : func) (m0 m1 m2 m3 m4 : Meta) : list Node :=
  [ mk_node 0 (placeholder "p") [] ∅ m0;
    mk_node 1 (call_function f) [ANode 0] ∅ m1;
    mk_node 2 (call_function h) [ANode 1] ∅ m2;
    mk_node 3 (call_function g) [ANode 1] ∅ m3;
    mk_node 4 output [ATuple [ANode 2; ANode 3]] ∅ m4 ].

(** [fork f h g] after the call of [h] was reissued with [inplace=True]. *)
Definition fork_reissued (f h g : func) (m0 m1 m3 m4 : Meta) : Graph :=
  {| nodes := [ mk_node 0 (placeholder "p") [] ∅ m0;
                mk_node 1 (call_function f) [ANode 0] ∅ m1;
                mk_node 5 (call_function h) [ANode 1]
                  {[ "inplace" := ALit (LBool true) ]} no_meta;
                mk_node 3 (call_function g) [ANode 1] ∅ m3;
                mk_node 4 output [ATuple [ANode 5; ANode 3]] ∅ m4 ];
     next_name := 6;
     insert_point := None |}.

(** The identities of the nodes that are not calls (graph inputs,
    attributes, the output): their buffers are never free. *)
Definition stored (l : list Node) : list nat :=
  omap (λ n, if is_call n then None else Some (name n)) l.

(** In [counts] every node of [S] owns its buffer, whose usage count is
    infinite. *)
Definition live_forever (S : list nat) (c : Counts) : Prop :=
  ∀ y, y ∈ S → cell_of c !! y = Some y ∧ usages c !! y = Some Inf.

(** The invariant of the second loop for a node [n] that reads stored
    nodes only: [n] is in the graph as it was, and so are the nodes of [S],
    as nodes that are not calls. *)
Definition sparing (S : list nat) (n : Node) (g : Graph) : Prop :=
  NoDup (map name (nodes g))
  ∧ (∀ m, m ∈ nodes g → (name m < next_name g)%nat)
  ∧ n ∈ nodes g
  ∧ (∀ y, y ∈ S → ∃ p, p ∈ nodes g ∧ name p = y ∧ is_call p = false).

(** *** normalize *)

(** The method calls [normalize] converts. *)
Definition to_normalize (k : NodeKind) : bool :=
  match k with
  | call_method t => bool_decide (is_Some (NORMALIZE_METHODS !! t))
  | _ => false
  end.

(** What [normalize] makes of a node kind when no module is inlined. *)
Definition normalized_kind (k : NodeKind) : NodeKind :=
  match k with
  | call_method t =>
      match NORMALIZE_METHODS !! t with
      | Some f => call_function f
      | None => k
      end
  | _ => k
  end.

(** The nodes [normalize] has nothing to do for: no method call of the
    table and no module but those that are not expanded. *)
Definition settled (ms : gmap string Module) (n : Node) : Prop :=
  match kind n with
  | call_method t => NORMALIZE_METHODS !! t = None
  | call_module t => ∃ m, ms !! t = Some m ∧ class_name m ∈ DONT_EXPAND_MODULES
  | _ => True
  end.

(** A graph without [call_module] nodes. *)
Definition is_module_call (n : Node) : bool :=
  match kind n with call_module _ => true | _ => false end.

Definition module_free (l : list Node) : Prop :=
  Forall (λ n, is_module_call n = false) l.

(** Every identity in use is below the supply of fresh ones. *)
Definition named_below (g : Graph) : Prop :=
  Forall (λ n, (name n < next_name g)%nat) (nodes g).

(** The invariant of the loop of [normalize] on a graph without module
    calls: [xs] is what is left of the snapshot, [K] the kinds to reach. *)
Definition normalizing (K : list NodeKind) (xs : list nat) (g : Graph) : Prop :=
  NoDup (map name (nodes g))
  ∧ (∀ n, n ∈ nodes g → (name n < next_name g)%nat)
  ∧ map (λ n, normalized_kind (kind n)) (nodes g) = K
  ∧ (∀ n, n ∈ nodes g → to_normalize (kind n) = true → name n ∈ xs)
  ∧ (∀ n, n ∈ nodes g → ∀ t, kind n ≠ call_module t).

(** *** Samples *)

(** Metadata of a tensor with its dtype and device, of a value that is not
    a tensor, and of a tensor-producing call marked as a mutation. *)
Definition typed_meta : Meta :=
  {| m_type := Some Tensor; m_is_mutation := Some false;
     m_is_input_mutation := Some false;
     m_dtype := Some (LObj "torch.float32"); m_device := Some (LObj "cpu") |}.

Definition object_meta (ty : string) : Meta :=
  {| m_type := Some (OtherType ty); m_is_mutation := Some false;
     m_is_input_mutation := Some false; m_dtype := None; m_device := None |}.

Definition mutation_meta : Meta :=
  {| m_type := Some Tensor; m_is_mutation := Some true;
     m_is_input_mutation := Some false; m_dtype := None; m_device := None |}.

(** [d = x.dtype; s = x.shape; output((d, s))] on the graph input [x]. *)
Definition attribute_reads : list Node :=
  [ mk_node 0 (placeholder "x") [] ∅ typed_meta;
    mk_node 1 (call_function builtins_getattr) [ANode 0; ALit (LStr "dtype")] ∅
      (object_meta "torch.dtype");
    mk_node 2 (call_function builtins_getattr) [ANode 0; ALit (LStr "shape")] ∅
      (object_meta "torch.Size");
    mk_node 3 output [ATuple [ANode 1; ANode 2]] ∅ (object_meta "tuple") ].

(** The interpreter on [attribute_reads] after the placeholder. *)
Definition after_input : Interp :=
  {| world := mk_world attribute_reads ∅;
     new_graph := mk_graph [ mk_node 0 (placeholder "x") [] ∅ no_meta ];
     env := {[ 0 := ANode 0 ]} |}.

(** [flatten_call] while [normalize] visits the module call. *)
Definition at_flatten_call : World :=
  {| graph := {| nodes := flatten_call; next_name := 3; insert_point := Some 1 |};
     submodules := {[ "flat" := Flatten; "dyn" := Untraceable ]};
     counters := ∅; stdout := [] |}.

(** * Proofs *)

(** ** The monad *)

Ltac unfold_monad :=
  unfold mbind, M_bind, bind, mret, M_ret, ret, raise, gets, modify,
    from_option, lift_result in *.

Lemma bind_unfold {S A B} (m : M S A) (k : A → M S B) (s : S) :
  (m ≫= k) s =
  match m s with
  | (Ok a, s') => k a s'
  | (Raise e, s') => (Raise e, s')
  end.
Proof. reflexivity. Qed.

Lemma bind_ok {S A B} (m : M S A) (k : A → M S B) (s s' : S) (a : A) :
  m s = (Ok a, s') → (m ≫= k) s = k a s'.
Proof. intros H. rewrite bind_unfold, H. reflexivity. Qed.

Lemma bind_raise {S A B} (m : M S A) (k : A → M S B) (s s' : S) (e : exn) :
  m s = (Raise e, s') → (m ≫= k) s = (Raise e, s').
Proof. intros H. rewrite bind_unfold, H. reflexivity. Qed.

Lemma bump_lookup (group key : string) (c : gmap (string * string) nat) :
  bump group key c !! (group, key) = Some (S (default 0 (c !! (group, key)))).
Proof. unfold bump. apply lookup_insert_eq. Qed.

Lemma bump_lookup_ne (group key : string) (k' : string * string)
    (c : gmap (string * string) nat) :
  k' ≠ (group, key) → bump group key c !! k' = c !! k'.
Proof. intros H. unfold bump. by rewrite lookup_insert_ne. Qed.

(** ** Inplacifier: the scenarios *)

Section InplacifierScenarios.
Variable signature_repr : func → string.

Lemma alias_nodes_cons n l c w :
  alias_nodes (n :: l) c w =
  match alias_node n c w with
  | (Ok c', w') => alias_nodes l c' w'
  | (Raise e, w') => (Raise e, w')
  end.
Proof. reflexivity. Qed.

(** Nodes that are not calls are permanently live. *)
Lemma alias_node_other n c w :
  is_call n = false → alias_node n c w = (Ok (counts_fresh (name n) Inf c), w).
Proof. intros H. unfold alias_node. by rewrite H. Qed.

(** A function call that is not a view and names no output buffer owns a
    fresh buffer. *)
Lemma alias_node_call_function n f c w :
  kind n = call_function f → view_name (f_name f) = false →
  kwargs n !! "out" = None →
  alias_node n c w = (Ok (counts_fresh (name n) (Count 0) c), w).
Proof.
  intros Hk Hv Ho. unfold alias_node, is_call, can_be_view, short_name.
  rewrite Hk. unfold_monad. rewrite Hv, Ho. reflexivity.
Qed.

Lemma chain_alias (f g : func) m0 m1 m2 m3 w :
  view_name (f_name f) = false → view_name (f_name g) = false →
  alias_nodes (chain f g m0 m1 m2 m3) counts_empty w =
  (Ok (counts_fresh 3 Inf (counts_fresh 2 (Count 0)
        (counts_fresh 1 (Count 0) (counts_fresh 0 Inf counts_empty)))), w).
Proof.
  intros Hf Hg. unfold chain.
  rewrite alias_nodes_cons, alias_node_other by done.
  rewrite alias_nodes_cons, (alias_node_call_function _ f) by done.
  rewrite alias_nodes_cons, (alias_node_call_function _ g) by done.
  rewrite alias_nodes_cons, alias_node_other by done.
  reflexivity.
Qed.

Lemma inplacify_nodes_cons x xs c w :
  inplacify_nodes signature_repr (x :: xs) c w =
  match inplacify_node signature_repr x c w with
  | (Ok c', w') => inplacify_nodes signature_repr xs c' w'
  | (Raise e, w') => (Raise e, w')
  end.
Proof. reflexivity. Qed.

Lemma inplacify_node_found x n c w :
  find_node x (graph w) = Some n →
  inplacify_node signature_repr x c w =
  match rewrite_node signature_repr n c w with
  | (Ok Kept, w') => record_usages (node_uses n) c w'
  | (Ok _, w') => (Ok c, w')
  | (Raise e, w') => (Raise e, w')
  end.
Proof.
  intros H. unfold inplacify_node. rewrite bind_unfold. cbn [gets].
  rewrite H, bind_unfold. destruct (rewrite_node _ _ _ _) as [[[]|]]; reflexivity.
Qed.

(** The candidate test on a call whose sole argument is positional: once
    the argument is a node whose buffer has no recorded use, the target
    alone decides the rewrite. *)
Lemma rewrite_node_candidate n g a c w :
  kind n = call_function g → args n = [ANode a] →
  delete "inplace" (kwargs n) = ∅ →
  counts_usages a c = Some (Count 0) →
  rewrite_node signature_repr n c w =
  (if SKIP_INPLACE g then ret Skipped
   else if has_inplace_variant g then
     bump_counter "optimizations" "inplace";;
     reissue n g {[ "inplace" := ALit (LBool true) ]};;
     ret Rewritten
   else if accepts_out signature_repr g then
     bump_counter "optimizations" "out";;
     reissue n g {[ "out" := ANode a ]};;
     ret Rewritten
   else ret Skipped) w.
Proof.
  intros Hk Ha Hkw Hu. unfold rewrite_node, sole_argument.
  rewrite Hk, Ha, Hkw. cbn [length]. rewrite map_size_empty. cbn [Nat.add Nat.eqb].
  rewrite bind_unfold. unfold ret at 1. rewrite bind_unfold, Hu.
  cbn [from_option usage_is_zero ret]. reflexivity.
Qed.

Lemma rewrite_node_inplace n g a c w :
  kind n = call_function g → args n = [ANode a] →
  delete "inplace" (kwargs n) = ∅ →
  counts_usages a c = Some (Count 0) →
  SKIP_INPLACE g = false → has_inplace_variant g = true →
  rewrite_node signature_repr n c w =
  (reissue n g {[ "inplace" := ALit (LBool true) ]};; ret Rewritten)
    (set_counters (bump "optimizations" "inplace" (counters w)) w).
Proof.
  intros Hk Ha Hkw Hu Hs Hi.
  rewrite (rewrite_node_candidate n g a) by done. rewrite Hs, Hi. reflexivity.
Qed.

Lemma rewrite_node_out n g a c w :
  kind n = call_function g → args n = [ANode a] →
  delete "inplace" (kwargs n) = ∅ →
  counts_usages a c = Some (Count 0) →
  SKIP_INPLACE g = false → has_inplace_variant g = false →
  accepts_out signature_repr g = true →
  rewrite_node signature_repr n c w =
  (reissue n g {[ "out" := ANode a ]};; ret Rewritten)
    (set_counters (bump "optimizations" "out" (counters w)) w).
Proof.
  intros Hk Ha Hkw Hu Hs Hi Ho.
  rewrite (rewrite_node_candidate n g a) by done. rewrite Hs, Hi, Ho. reflexivity.
Qed.

(** With a positional argument whose buffer is known, the second loop
    leaves a node alone (and goes on to record its uses) exactly when it is
    no candidate. *)
Lemma rewrite_node_kept_iff node c w :
  args node ≠ [] →
  (∀ a rest, args node = ANode a :: rest → is_Some (counts_usages a c)) →
  (rewrite_node signature_repr node c w).1 = Ok Kept ↔ candidate node c = false.
Proof.
  intros Hargs Hknown. unfold rewrite_node, candidate, sole_argument.
  destruct (kind node) as [| |target| | |]; try done.
  destruct (_ =? _)%nat; [|done]. cbn [andb].
  destruct (args node) as [|[l|a|xs] rest] eqn:Ha; try done.
  rewrite bind_unfold. cbn [ret]. rewrite bind_unfold.
  destruct (Hknown a rest eq_refl) as [u Hu]. rewrite Hu. cbn [from_option ret].
  destruct (usage_is_zero u); [|done].
  split; [|done]. intros H. exfalso. revert H.
  destruct (SKIP_INPLACE target); [done|].
  destruct (has_inplace_variant target).
  { rewrite bind_unfold. cbn [bump_counter modify]. rewrite bind_unfold.
    by destruct (reissue _ _ _ _) as [[[]|] ?]. }
  destruct (accepts_out signature_repr target); [|done].
  rewrite bind_unfold. cbn [bump_counter modify]. rewrite bind_unfold.
  by destruct (reissue _ _ _ _) as [[[]|] ?].
Qed.

(** Evaluate the next iteration of the second loop. *)
Ltac eval_node :=
  match goal with
  | |- context [inplacify_node ?s ?x ?c ?w] =>
      let r := eval vm_compute in (inplacify_node s x c w) in
      replace (inplacify_node s x c w) with r by (vm_compute; reflexivity)
  end.

(** Enter the second loop of [inplacify] on a [chain] graph. *)
Ltac enter_chain f g m0 m1 m2 m3 :=
  unfold inplacify;
  rewrite bind_unfold; cbn [gets graph mk_graph nodes];
  rewrite bind_unfold, chain_alias by done;
  rewrite bind_unfold; cbn [gets graph nodes mk_graph];
  rewrite bind_unfold;
  change (rev (map name (chain f g m0 m1 m2 m3))) with [3; 2; 1; 0];
  rewrite inplacify_nodes_cons; eval_node;
  rewrite inplacify_nodes_cons;
  erewrite inplacify_node_found by (vm_compute; reflexivity).

(** C1 (amended): for [p] a placeholder, [x = f(p)] a call that owns its
    buffer (not a view) and has no other reader, [y = relu(x)] and an output
    of [y], [inplacify] replaces the [relu] call by one [call_function] node
    with [inplace=True], erases the plain call, and
    [counters["optimizations"]["inplace"]] grows by exactly one. *)
Theorem inplacify_relu_of_call (f : func) (m0 m1 m2 m3 : Meta)
    (ms : gmap string Module) (c : gmap (string * string) nat) (so : list string) :
  view_name (f_name f) = false →
  let w := {| graph := mk_graph (chain f (F "relu") m0 m1 m2 m3);
              submodules := ms; counters := c; stdout := so |} in
  inplacify signature_repr w =
    (Ok tt,
     {| graph := chain_reissued f (F "relu") {[ "inplace" := ALit (LBool true) ]} m0 m1 m3;
        submodules := ms;
        counters := bump "optimizations" "inplace" c;
        stdout := so |})
  ∧ bump "optimizations" "inplace" c !! ("optimizations", "inplace")
    = Some (S (default 0 (c !! ("optimizations", "inplace")))).
Proof.
  intros Hv w. split; [|apply bump_lookup]. unfold w.
  enter_chain f (F "relu") m0 m1 m2 m3.
  erewrite rewrite_node_inplace by (vm_compute; reflexivity).
  cbn [counters set_counters graph submodules stdout].
  generalize (bump "optimizations" "inplace" c). intros c'.
  vm_compute. reflexivity.
Qed.

(** C2 (amended): for [p] a placeholder, [x = f(p)] a call that owns its
    buffer and has no other reader, [y = g(x)] a call with that single
    argument whose target [g] is not skip-listed, has no in-place variant
    and exposes an output-buffer parameter, and an output of [y],
    [inplacify] replaces the call by one node with [out=x], and
    [counters["optimizations"]["out"]] grows by exactly one. *)
Theorem inplacify_out_of_call (f g : func) (m0 m1 m2 m3 : Meta)
    (ms : gmap string Module) (c : gmap (string * string) nat) (so : list string) :
  view_name (f_name f) = false →
  view_name (f_name g) = false →
  SKIP_INPLACE g = false →
  has_inplace_variant g = false →
  accepts_out signature_repr g = true →
  let w := {| graph := mk_graph (chain f g m0 m1 m2 m3);
              submodules := ms; counters := c; stdout := so |} in
  inplacify signature_repr w =
    (Ok tt,
     {| graph := chain_reissued f g {[ "out" := ANode 1 ]} m0 m1 m3;
        submodules := ms;
        counters := bump "optimizations" "out" c;
        stdout := so |})
  ∧ bump "optimizations" "out" c !! ("optimizations", "out")
    = Some (S (default 0 (c !! ("optimizations", "out")))).
Proof.
  intros Hf Hg Hs Hi Ho w. split; [|apply bump_lookup]. unfold w.
  enter_chain f g m0 m1 m2 m3.
  erewrite rewrite_node_out;
    [| reflexivity | reflexivity | vm_compute; reflexivity
     | vm_compute; reflexivity | done | done | done ].
  cbn [counters set_counters graph submodules stdout].
  generalize (bump "optimizations" "out" c). intros c'.
  vm_compute. reflexivity.
Qed.

End InplacifierScenarios.

(** C1: the witness of the amended claim, with [x = exp(p)]. *)
Lemma inplacify_relu_of_call_witness :
  view_name (f_name (torch_fn "exp")) = false ∧
  (inplacify sample_signature_repr
     (mk_world (chain (torch_fn "exp") (F "relu") tensor_meta tensor_meta
                  tensor_meta tensor_meta) ∅)
   = (Ok tt,
      {| graph := chain_reissued (torch_fn "exp") (F "relu")
                    {[ "inplace" := ALit (LBool true) ]}
                    tensor_meta tensor_meta tensor_meta;
         submodules := ∅;
         counters := bump "optimizations" "inplace" ∅;
         stdout := [] |})
   ∧ bump "optimizations" "inplace" ∅ !! ("optimizations", "inplace")
     = Some (S (default 0 ((∅ : gmap (string * string) nat)
                             !! ("optimizations", "inplace"))))).
Proof.
  split; [reflexivity|].
  apply (inplacify_relu_of_call sample_signature_repr (torch_fn "exp")
           tensor_meta tensor_meta tensor_meta tensor_meta ∅ ∅ []).
  reflexivity.
Defined.

(** C1, as stated, fails: [x] is a graph input, whose buffer is permanently
    live; [inplacify] leaves [y = relu(x)] as it is and counts nothing. *)
Lemma inplacify_relu_of_input_unchanged :
  SKIP_INPLACE (F "relu") = false ∧ has_inplace_variant (F "relu") = true ∧
  inplacify sample_signature_repr (mk_world relu_of_input ∅)
  = (Ok tt, mk_world relu_of_input ∅).
Proof. repeat split; vm_compute; reflexivity. Qed.

(** C2: the witness of the amended claim, with [x = sin(p)] and [y = exp(x)]. *)
Lemma inplacify_out_of_call_witness :
  view_name (f_name (torch_fn "sin")) = false ∧
  view_name (f_name (torch_fn "exp")) = false ∧
  SKIP_INPLACE (torch_fn "exp") = false ∧
  has_inplace_variant (torch_fn "exp") = false ∧
  accepts_out sample_signature_repr (torch_fn "exp") = true ∧
  (inplacify sample_signature_repr
     (mk_world (chain (torch_fn "sin") (torch_fn "exp") tensor_meta tensor_meta
                  tensor_meta tensor_meta) ∅)
   = (Ok tt,
      {| graph := chain_reissued (torch_fn "sin") (torch_fn "exp")
                    {[ "out" := ANode 1 ]} tensor_meta tensor_meta tensor_meta;
         submodules := ∅;
         counters := bump "optimizations" "out" ∅;
         stdout := [] |})
   ∧ bump "optimizations" "out" ∅ !! ("optimizations", "out")
     = Some (S (default 0 ((∅ : gmap (string * string) nat)
                             !! ("optimizations", "out"))))).
Proof.
  repeat (split; [reflexivity|]).
  apply (inplacify_out_of_call sample_signature_repr (torch_fn "sin")
           (torch_fn "exp") tensor_meta tensor_meta tensor_meta tensor_meta
           ∅ ∅ []); reflexivity.
Defined.

(** C2, as stated, fails: [add(a, b)] has two arguments and is no rewrite
    candidate (and [a] is a graph input); [inplacify] leaves the graph as it
    is and counts nothing. *)
Lemma inplacify_add_of_inputs_unchanged :
  SKIP_INPLACE (torch_fn "add") = false ∧
  accepts_out sample_signature_repr (torch_fn "add") = true ∧
  inplacify sample_signature_repr (mk_world add_of_inputs ∅)
  = (Ok tt, mk_world add_of_inputs ∅).
Proof. repeat split; vm_compute; reflexivity. Qed.

(** C7: when the sole effective argument of a call is passed by keyword, the
    candidate test itself raises [TypeError] ([next] of a [dict_values]
    view) instead of completing; the graph is left untouched. *)
Theorem inplacify_keyword_argument_raises :
  inplacify sample_signature_repr (mk_world relu_by_keyword ∅)
  = (Raise TypeError, mk_world relu_by_keyword ∅).
Proof. vm_compute. reflexivity. Qed.

(** ** normalize is not idempotent *)

(** C5: on [y = self.flat(x); output(y)] with [flat] a [torch.nn.Flatten],
    the first [normalize] inlines the module and leaves the method call
    [flatten] of its body in the graph; a second [normalize] rewrites that
    call into [torch.flatten]: the two results differ in their op kinds. *)
Theorem normalize_twice_differs :
  let w0 := mk_world flatten_call {[ "flat" := Flatten ]} in
  let w1 := (normalize w0).2 in
  let w2 := (normalize w1).2 in
  (normalize w0).1 = Ok tt ∧ (normalize w1).1 = Ok tt ∧
  map kind (nodes (graph w1)) =
    [ placeholder "x"; call_method "flatten"; output ] ∧
  map kind (nodes (graph w2)) =
    [ placeholder "x"; call_function (torch_fn "flatten"); output ].
Proof. cbv zeta. repeat split; vm_compute; reflexivity. Qed.

(** ** State predicates along a computation *)

Section Leads.
Context {S : Type}.
Implicit Types P Q R : S → Prop.

Lemma keeps_ret {A} P (a : A) : keeps P (ret a).
Proof. intros s H. exact H. Qed.

Lemma keeps_raise {A} P (e : exn) : keeps P (raise e : M S A).
Proof. intros s H. exact H. Qed.

Lemma keeps_gets {A} P (f : S → A) : keeps P (gets f).
Proof. intros s H. exact H. Qed.

Lemma keeps_from_option {A} P (e : exn) (o : option A) :
  keeps P (from_option e o).
Proof. destruct o; [apply keeps_ret | apply keeps_raise]. Qed.

Lemma keeps_lift_result {A} P (r : result A) : keeps P (lift_result r).
Proof. intros s H. exact H. Qed.

Lemma leads_modify P Q (f : S → S) :
  (∀ s, P s → Q (f s)) → leads P (modify f) Q.
Proof. intros H s Hs. apply H, Hs. Qed.

Lemma leads_bind {A B} P Q R (m : M S A) (k : A → M S B) :
  leads P m Q → (∀ a, leads Q (k a) R) → (∀ s, Q s → R s) →
  leads P (m ≫= k) R.
Proof.
  intros Hm Hk HQR s Hs. specialize (Hm s Hs). rewrite bind_unfold.
  destruct (m s) as [[a|e] s']; cbn in *; [apply Hk, Hm | apply HQR, Hm].
Qed.

Lemma keeps_bind {A B} P (m : M S A) (k : A → M S B) :
  keeps P m → (∀ a, keeps P (k a)) → keeps P (m ≫= k).
Proof. intros Hm Hk. apply (leads_bind P P P); auto. Qed.

Lemma leads_weaken {A} P P' Q Q' (m : M S A) :
  leads P m Q → (∀ s, P' s → P s) → (∀ s, Q s → Q' s) → leads P' m Q'.
Proof. intros H HP HQ s Hs. apply HQ, H, HP, Hs. Qed.

Lemma leads_try_finally {A} P Q R (body : M S A) (fin : M S unit) :
  leads P body Q → leads Q fin R → leads P (try_finally body fin) R.
Proof.
  intros Hb Hf s Hs. specialize (Hb s Hs). unfold try_finally.
  destruct (body s) as [r s']. specialize (Hf s' Hb).
  destruct (fin s') as [[[]|e] s'']; exact Hf.
Qed.

Lemma keeps_try_except_reraise {A} P (body : M S A) (handler : M S unit) :
  keeps P body → keeps P handler → keeps P (try_except_reraise body handler).
Proof.
  intros Hb Hh s Hs. specialize (Hb s Hs). unfold try_except_reraise.
  destruct (body s) as [[a|e] s']; [exact Hb|].
  specialize (Hh s' Hb). destruct (handler s') as [[[]|e'] s'']; exact Hh.
Qed.

Lemma keeps_for_each {A} P (xs : list A) (body : A → M S unit) :
  (∀ x, keeps P (body x)) → keeps P (for_each xs body).
Proof.
  intros H. induction xs as [|x xs IH]; [apply keeps_ret|].
  cbn [for_each]. apply keeps_bind; auto.
Qed.

Lemma keeps_if {A} P (b : bool) (m1 m2 : M S A) :
  keeps P m1 → keeps P m2 → keeps P (if b then m1 else m2).
Proof. destruct b; auto. Qed.

End Leads.

(** ** Predicates of the world that graph edits cannot break *)

Lemma keeps_get_submodule P target : keeps P (get_submodule target).
Proof.
  unfold get_submodule. apply keeps_bind; [apply keeps_gets|].
  intros ms. apply keeps_from_option.
Qed.

Lemma keeps_inserting_before {A} P (x : nat) (body : M World A) :
  edit_proof P → keeps P body → keeps P (inserting_before x body).
Proof.
  intros (_ & _ & Hp & _) Hb w Hw. unfold inserting_before.
  apply (leads_try_finally P P P); [exact Hb | apply Hp |].
  apply (Hp (Some x) w Hw).
Qed.

Lemma keeps_node_copy P node vars :
  edit_proof P → (∀ t, kind node ≠ placeholder t) → keeps P (node_copy node vars).
Proof.
  intros (Hc & _) Hk. unfold node_copy.
  apply keeps_bind; [apply keeps_from_option|]. intros a.
  apply keeps_bind; [apply keeps_from_option|]. intros kw.
  by apply Hc.
Qed.

Lemma keeps_expand_nodes P prefix args0 sub i vars :
  edit_proof P → keeps P (expand_nodes prefix args0 sub i vars).
Proof.
  intros HP. revert i vars.
  induction sub as [|node rest IH]; intros i vars; cbn [expand_nodes].
  { apply keeps_raise. }
  destruct (kind node) eqn:Hk.
  - apply keeps_bind; [apply keeps_from_option|]. intros v. apply IH.
  - apply keeps_bind; [by apply HP|]. intros x. apply IH.
  - apply keeps_bind; [|intros x; apply IH].
    apply keeps_node_copy; [done|]. intros t. by rewrite Hk.
  - apply keeps_bind; [|intros x; apply IH].
    apply keeps_node_copy; [done|]. intros t. by rewrite Hk.
  - apply keeps_bind; [|intros x; apply IH].
    apply keeps_node_copy; [done|]. intros t. by rewrite Hk.
  - destruct (args node) as [|a [|]]; try apply keeps_raise.
    apply keeps_from_option.
Qed.

(** ** expand_module_call releases the validation stub *)

(** The sub-modules are not touched by graph edits. *)
Lemma submodules_edit_proof (ms : gmap string Module) :
  edit_proof (λ w, submodules w = ms).
Proof.
  split; [|split; [|split]].
  - intros k a kw m _ w Hw. unfold graph_create_node.
    destruct (create_node k a kw m (graph w)). exact Hw.
  - intros old new. unfold graph_replace_all_uses_with.
    apply keeps_bind; [by apply leads_modify|]. intros _.
    apply keeps_bind; [apply keeps_gets|]. intros g.
    apply keeps_if; [apply keeps_raise | apply keeps_ret].
  - intros p. by apply leads_modify.
  - intros line. by apply leads_modify.
Qed.

(** The guarded body of [expand_module_call] leaves the sub-modules as they
    are. *)
Lemma expand_body_submodules (ms : gmap string Module) (prefix module : string)
    (args0 : list Arg) (kwargs0 : gmap string Arg) :
  keeps (λ w, submodules w = ms)
    (try_except_reraise
       ((if bool_decide (kwargs0 = ∅) then ret tt else raise AssertionError);;
        m ← get_submodule module;
        sub ← lift_result (traced m);
        expand_nodes prefix args0 sub 0 ∅)
       (m ← get_submodule module;
        print ("Error while expanding " +:+ class_name m))).
Proof.
  pose proof (submodules_edit_proof ms) as HP.
  apply keeps_try_except_reraise.
  - apply keeps_bind.
    { apply keeps_if; [apply keeps_ret | apply keeps_raise]. }
    intros _. apply keeps_bind; [apply keeps_get_submodule|]. intros m.
    apply keeps_bind; [apply keeps_lift_result|]. intros sub.
    by apply keeps_expand_nodes.
  - apply keeps_bind; [apply keeps_get_submodule|]. intros m. apply HP.
Qed.

(** C8: whatever the arguments and on every exit path (return or
    exception), after [expand_module_call] the module instance's [__dict__]
    holds no [_check_input_dim] entry: it is the [__dict__] found on entry
    minus that key, and the rest of the instance is as it was. *)
Theorem expand_module_call_releases_stub (prefix module : string)
    (args0 : list Arg) (kwargs0 : gmap string Arg) (w : World) (m : Module) :
  submodules w !! module = Some m →
  let w' := (expand_module_call prefix module args0 kwargs0 w).2 in
  ∃ m', submodules w' !! module = Some m'
        ∧ inst_dict m' !! "_check_input_dim" = None
        ∧ inst_dict m' = delete "_check_input_dim" (inst_dict m)
        ∧ class_name m' = class_name m ∧ traced m' = traced m.
Proof.
  intros Hm w'. subst w'. unfold expand_module_call.
  rewrite bind_unfold. unfold set_dict_item at 1. cbn [modify].
  set (m1 := {| class_module := class_module m; class_name := class_name m;
                inst_dict := <["_check_input_dim" := always_true]> (inst_dict m);
                traced := traced m |}).
  set (w1 := set_submodules _ w).
  assert (Hw1 : submodules w1 = <[module := m1]> (submodules w)).
  { unfold w1. cbn. apply map_eq. intros i.
    destruct (decide (module = i)) as [<-|Hne].
    - by rewrite lookup_alter_eq, Hm, lookup_insert_eq.
    - by rewrite lookup_alter_ne, lookup_insert_ne. }
  unfold try_finally.
  pose proof (expand_body_submodules _ prefix module args0 kwargs0 w1 Hw1) as Hb.
  destruct (try_except_reraise _ _ w1) as [r w2]. cbn [snd] in Hb.
  unfold del_dict_item. rewrite bind_unfold.
  unfold get_submodule. rewrite bind_unfold. cbn [gets].
  rewrite Hb, lookup_insert_eq. cbn [from_option ret inst_dict m1].
  rewrite lookup_insert_eq. cbn [modify snd].
  exists {| class_module := class_module m; class_name := class_name m;
            inst_dict := delete "_check_input_dim" (inst_dict m);
            traced := traced m |}.
  cbn. rewrite Hb, lookup_alter_eq, lookup_insert_eq. cbn.
  rewrite delete_insert_eq. repeat split; try done.
  apply lookup_delete_eq.
Qed.

(** C8: a witness, the normal return for a [torch.nn.Flatten] instance. *)
Lemma expand_module_call_releases_stub_witness :
  submodules (mk_world flatten_call {[ "flat" := Flatten ]}) !! "flat" = Some Flatten ∧
  let w' := (expand_module_call "flat." "flat" [ANode 0] ∅
               (mk_world flatten_call {[ "flat" := Flatten ]})).2 in
  ∃ m', submodules w' !! "flat" = Some m'
        ∧ inst_dict m' !! "_check_input_dim" = None
        ∧ inst_dict m' = delete "_check_input_dim" (inst_dict Flatten)
        ∧ class_name m' = class_name Flatten ∧ traced m' = traced Flatten.
Proof.
  split; [reflexivity|].
  apply (expand_module_call_releases_stub "flat." "flat" [ANode 0] ∅
           (mk_world flatten_call {[ "flat" := Flatten ]}) Flatten).
  reflexivity.
Defined.

(** The three exit paths of [expand_module_call] are taken: a normal
    return, the assertion on keyword arguments, an exception from tracing;
    the last two print the diagnostic before re-raising. *)
Example expand_module_call_exit_paths :
  let w := mk_world flatten_call {[ "flat" := Flatten; "dyn" := Untraceable ]} in
  let r1 := expand_module_call "flat." "flat" [ANode 0] ∅ w in
  let r2 := expand_module_call "flat." "flat" [ANode 0] {[ "dim" := ALit (LInt 1) ]} w in
  let r3 := expand_module_call "dyn." "dyn" [ANode 0] ∅ w in
  r1.1 = Ok (ANode 3) ∧ stdout r1.2 = [] ∧
  r2.1 = Raise AssertionError ∧ stdout r2.2 = ["Error while expanding Flatten"] ∧
  r3.1 = Raise TracingFailed ∧ stdout r3.2 = ["Error while expanding Dynamic"] ∧
  submodules r1.2 = submodules w ∧ submodules r2.2 = submodules w ∧
  submodules r3.2 = submodules w.
Proof. cbv zeta. repeat split; vm_compute; reflexivity. Qed.

(** ** Placeholders are preserved by the in-place passes *)

Lemma placeholders_app l1 l2 :
  placeholders (l1 ++ l2) = (placeholders l1 ++ placeholders l2)%list.
Proof. apply omap_app. Qed.

Lemma placeholders_insert_before anchor new l :
  placeholder_target new = None →
  placeholders (insert_before anchor new l) = placeholders l.
Proof.
  intros Hn. induction l as [|n l IH]; cbn [insert_before].
  - unfold placeholders. cbn. by rewrite Hn.
  - destruct (decide (name n = anchor)).
    + unfold placeholders. cbn [omap list_omap]. by rewrite Hn.
    + unfold placeholders in *. cbn [omap list_omap]. by rewrite IH.
Qed.

Lemma reaches_call_cons x n l :
  reaches_call x (n :: l) →
  (name n = x → placeholder_target n = None) ∧ (name n ≠ x → reaches_call x l).
Proof.
  intros H. split.
  - intros Hx. apply H. cbn. by rewrite bool_decide_true.
  - intros Hx n' Hf. apply H. cbn. by rewrite bool_decide_false.
Qed.

Lemma reaches_call_insert_before x anchor new l :
  placeholder_target new = None → reaches_call x l →
  reaches_call x (insert_before anchor new l).
Proof.
  intros Hn. induction l as [|n l IH]; intros Hl; cbn [insert_before].
  - intros n'. cbn. case_bool_decide; [|done]. by intros [= <-].
  - destruct (decide (name n = anchor)).
    + intros n'. cbn [find]. case_bool_decide; [by intros [= <-]|]. apply Hl.
    + apply reaches_call_cons in Hl as [Hl1 Hl2].
      intros n'. cbn [find]. case_bool_decide; [intros [= <-]; auto|].
      apply IH; auto.
Qed.

Lemma reaches_call_app x new l :
  placeholder_target new = None → reaches_call x l →
  reaches_call x (l ++ [new]).
Proof.
  intros Hn. induction l as [|n l IH]; intros Hl; cbn [app].
  - intros n'. cbn. case_bool_decide; [|done]. by intros [= <-].
  - apply reaches_call_cons in Hl as [Hl1 Hl2].
    intros n'. cbn [find]. case_bool_decide; [intros [= <-]; auto|].
    apply IH; auto.
Qed.

Lemma placeholder_target_subst old new n :
  placeholder_target (subst_node old new n) = placeholder_target n.
Proof. reflexivity. Qed.

Lemma placeholders_subst old new l :
  placeholders (map (subst_node old new) l) = placeholders l.
Proof.
  induction l as [|n l IH]; [done|].
  unfold placeholders in *. cbn [map omap list_omap].
  by rewrite placeholder_target_subst, IH.
Qed.

Lemma reaches_call_subst x old new l :
  reaches_call x l → reaches_call x (map (subst_node old new) l).
Proof.
  induction l as [|n l IH]; intros Hl; [done|].
  apply reaches_call_cons in Hl as [Hl1 Hl2].
  intros n'. cbn [map find name subst_node].
  case_bool_decide; [intros [= <-]; auto|]. apply IH; auto.
Qed.

Lemma placeholders_remove_node x l :
  reaches_call x l → placeholders (remove_node x l) = placeholders l.
Proof.
  induction l as [|n l IH]; intros Hl; [done|].
  apply reaches_call_cons in Hl as [Hl1 Hl2]. cbn [remove_node].
  destruct (decide (name n = x)) as [Hx|Hx].
  - unfold placeholders. cbn [omap list_omap]. by rewrite Hl1.
  - unfold placeholders in *. cbn [omap list_omap]. by rewrite IH by auto.
Qed.

Lemma kind_placeholder_target k a kw m x :
  (∀ t, k ≠ placeholder t) →
  placeholder_target {| name := x; kind := k; args := a; kwargs := kw; meta := m |} = None.
Proof. intros H. unfold placeholder_target. cbn. destruct k; try done. by destruct (H target). Qed.

Lemma create_node_nodes k a kw m g :
  nodes (create_node k a kw m g).2 =
  let n := {| name := next_name g; kind := k; args := a; kwargs := kw; meta := m |} in
  match insert_point g with
  | Some anchor => insert_before anchor n (nodes g)
  | None => nodes g ++ [n]
  end.
Proof. reflexivity. Qed.

Lemma keeps_replace_all_uses_with (P : World → Prop) old new :
  (∀ w, P w → P (set_graph (replace_all_uses_with old new (graph w)) w)) →
  keeps P (graph_replace_all_uses_with old new).
Proof.
  intros H. unfold graph_replace_all_uses_with.
  apply keeps_bind; [by apply leads_modify|]. intros _.
  apply keeps_bind; [apply keeps_gets|]. intros g.
  apply keeps_if; [apply keeps_raise | apply keeps_ret].
Qed.

Lemma rewriting_edit_proof x L : edit_proof (rewriting x L).
Proof.
  split; [|split; [|split]].
  - intros k a kw m Hk w [Hw1 Hw2]. unfold graph_create_node, rewriting.
    pose proof (create_node_nodes k a kw m (graph w)) as Hn.
    destruct (create_node k a kw m (graph w)) as [y g]. cbn in *.
    rewrite Hn. pose proof (kind_placeholder_target k a kw m (next_name (graph w)) Hk) as Hp.
    destruct (insert_point (graph w)); split.
    + by rewrite placeholders_insert_before.
    + by apply reaches_call_insert_before.
    + rewrite placeholders_app. unfold placeholders at 2. cbn.
      rewrite Hp. by rewrite app_nil_r.
    + by apply reaches_call_app.
  - intros old new. apply keeps_replace_all_uses_with. intros w [Hw1 Hw2].
    unfold rewriting. split; cbn.
    + by rewrite placeholders_subst.
    + by apply reaches_call_subst.
  - intros p. by apply leads_modify.
  - intros line. by apply leads_modify.
Qed.

Lemma placeholders_are_edit_proof L : edit_proof (placeholders_are L).
Proof.
  split; [|split; [|split]].
  - intros k a kw m Hk w Hw. unfold graph_create_node, placeholders_are in *.
    pose proof (create_node_nodes k a kw m (graph w)) as Hn.
    destruct (create_node k a kw m (graph w)) as [y g]. cbn in *.
    rewrite Hn. pose proof (kind_placeholder_target k a kw m (next_name (graph w)) Hk) as Hp.
    destruct (insert_point (graph w)).
    + by rewrite placeholders_insert_before.
    + rewrite placeholders_app. unfold placeholders at 2. cbn.
      rewrite Hp. by rewrite app_nil_r.
  - intros old new. apply keeps_replace_all_uses_with. intros w Hw.
    unfold placeholders_are in *. cbn. by rewrite placeholders_subst.
  - intros p. by apply leads_modify.
  - intros line. by apply leads_modify.
Qed.

(** Erasing [x] ends the rewrite; the placeholders are still [L]. *)
Lemma leads_erase_node x L :
  leads (rewriting x L) (graph_erase_node x) (placeholders_are L).
Proof.
  intros w [Hw1 Hw2]. unfold graph_erase_node, erase_node, placeholders_are.
  destruct (existsb (uses x) (nodes (graph w))); cbn; [done|].
  by rewrite placeholders_remove_node.
Qed.

Lemma rewriting_placeholders_are x L w : rewriting x L w → placeholders_are L w.
Proof. by intros [H _]. Qed.

Lemma leads_swap_node x new L :
  leads (rewriting x L) (swap_node x new) (placeholders_are L).
Proof.
  unfold swap_node.
  apply (leads_bind _ (rewriting x L)); [apply rewriting_edit_proof | |].
  - intros _. apply leads_erase_node.
  - apply rewriting_placeholders_are.
Qed.

Lemma rewriting_graph_only x L : graph_only (rewriting x L).
Proof. intros w w' Hg. unfold rewriting. by rewrite Hg. Qed.

Lemma placeholders_are_graph_only L : graph_only (placeholders_are L).
Proof. intros w w' Hg. unfold placeholders_are. by rewrite Hg. Qed.

Lemma keeps_set_dict_item P module key v :
  graph_only P → keeps P (set_dict_item module key v).
Proof. intros HP. apply leads_modify. intros w. by apply HP. Qed.

Lemma keeps_del_dict_item P module key :
  graph_only P → keeps P (del_dict_item module key).
Proof.
  intros HP. unfold del_dict_item.
  apply keeps_bind; [apply keeps_get_submodule|]. intros m.
  destruct (inst_dict m !! key); [|apply keeps_raise].
  apply leads_modify. intros w. by apply HP.
Qed.

Lemma keeps_bump_counter P group key :
  graph_only P → keeps P (bump_counter group key).
Proof. intros HP. apply leads_modify. intros w. by apply HP. Qed.

Lemma keeps_expand_module_call P prefix module args0 kwargs0 :
  edit_proof P → graph_only P →
  keeps P (expand_module_call prefix module args0 kwargs0).
Proof.
  intros HP HG. unfold expand_module_call.
  apply keeps_bind; [by apply keeps_set_dict_item|]. intros _.
  apply (leads_try_finally P P P); [|by apply keeps_del_dict_item].
  apply keeps_try_except_reraise.
  - apply keeps_bind.
    { apply keeps_if; [apply keeps_ret | apply keeps_raise]. }
    intros _. apply keeps_bind; [apply keeps_get_submodule|]. intros m.
    apply keeps_bind; [apply keeps_lift_result|]. intros sub.
    by apply keeps_expand_nodes.
  - apply keeps_bind; [apply keeps_get_submodule|]. intros m. apply HP.
Qed.

Lemma leads_of_keeps {S A} (P Q : S → Prop) (m : M S A) :
  keeps P m → (∀ s, P s → Q s) → leads P m Q.
Proof. intros H HPQ. by apply (leads_weaken P P P Q). Qed.

Lemma leads_inserting_before {A} (P Q : World → Prop) (x : nat) (body : M World A) :
  edit_proof P → edit_proof Q → leads P body Q →
  leads P (inserting_before x body) Q.
Proof.
  intros (_ & _ & HpP & _) (_ & _ & HpQ & _) Hb w Hw. unfold inserting_before.
  apply (leads_try_finally P Q Q); [exact Hb | apply HpQ |].
  apply (HpP (Some x) w Hw).
Qed.

(** The node found under the identity [x]. *)
Lemma find_node_name x g n : find_node x g = Some n → name n = x.
Proof.
  unfold find_node. intros H. apply find_some in H as [_ H].
  by apply bool_decide_eq_true in H.
Qed.

Lemma find_node_rewriting x L w n :
  placeholders_are L w → find_node x (graph w) = Some n →
  placeholder_target n = None → rewriting x L w.
Proof.
  intros HL Hf Hn. split; [exact HL|]. intros n' Hf'.
  unfold find_node in Hf. rewrite Hf in Hf'. by injection Hf' as <-.
Qed.

(** One iteration of [normalize] keeps the placeholders. *)
Lemma keeps_normalize_node L x : keeps (placeholders_are L) (normalize_node x).
Proof.
  intros w Hw. unfold normalize_node. rewrite bind_unfold. cbn [gets].
  destruct (find_node x (graph w)) as [node|] eqn:Hf; [|exact Hw].
  destruct (kind node) eqn:Hk;
    try (clear Hf; revert w Hw; apply keeps_inserting_before;
         [apply placeholders_are_edit_proof | apply keeps_ret]).
  - (* call_method *)
    assert (rewriting x L w) as HR.
    { apply (find_node_rewriting x L w node); auto.
      unfold placeholder_target. by rewrite Hk. }
    revert HR. generalize w. clear.
    apply leads_inserting_before;
      [apply rewriting_edit_proof | apply placeholders_are_edit_proof |].
    destruct (NORMALIZE_METHODS !! target) as [f|].
    + apply (leads_bind _ (rewriting x L)).
      * by apply rewriting_edit_proof.
      * intros new. apply leads_swap_node.
      * apply rewriting_placeholders_are.
    + apply leads_of_keeps; [apply keeps_ret | apply rewriting_placeholders_are].
  - (* call_module *)
    assert (rewriting x L w) as HR.
    { apply (find_node_rewriting x L w node); auto.
      unfold placeholder_target. by rewrite Hk. }
    revert HR. generalize w. clear.
    apply leads_inserting_before;
      [apply rewriting_edit_proof | apply placeholders_are_edit_proof |].
    apply (leads_bind _ (rewriting x L)).
    + apply keeps_get_submodule.
    + intros submod. destruct (bool_decide _).
      * apply leads_of_keeps; [apply keeps_ret | apply rewriting_placeholders_are].
      * apply (leads_bind _ (rewriting x L)).
        -- apply keeps_expand_module_call;
             [apply rewriting_edit_proof | apply rewriting_graph_only].
        -- intros new. apply leads_swap_node.
        -- apply rewriting_placeholders_are.
    + apply rewriting_placeholders_are.
Qed.

Lemma normalize_placeholders w :
  placeholders (nodes (graph (normalize w).2)) = placeholders (nodes (graph w)).
Proof.
  assert (keeps (placeholders_are (placeholders (nodes (graph w)))) normalize) as H.
  { unfold normalize. apply keeps_bind; [apply keeps_gets|]. intros g.
    apply keeps_for_each. intros x. apply keeps_normalize_node. }
  by apply H.
Qed.

Section InplacifierPlaceholders.
Variable signature_repr : func → string.

Lemma keeps_counts_alias (P : World → Prop) x a c : keeps P (counts_alias x a c).
Proof.
  destruct a; try apply keeps_raise. cbn [counts_alias].
  apply keeps_bind; [apply keeps_from_option|]. intros cell. apply keeps_ret.
Qed.

Lemma keeps_short_name (P : World → Prop) node : keeps P (short_name node).
Proof.
  unfold short_name. destruct (kind node); try apply keeps_ret; try apply keeps_raise.
  apply keeps_bind; [apply keeps_get_submodule|]. intros m. apply keeps_ret.
Qed.

(** The first loop only reads. *)
Lemma keeps_alias_node (P : World → Prop) node c : keeps P (alias_node node c).
Proof.
  unfold alias_node. destruct (is_call node); [|apply keeps_ret].
  apply keeps_bind.
  { unfold can_be_view. apply keeps_bind; [apply keeps_short_name|].
    intros nm. apply keeps_ret. }
  intros [].
  - destruct (args node); [apply keeps_raise | apply keeps_counts_alias].
  - destruct (kwargs node !! "out"); [apply keeps_counts_alias | apply keeps_ret].
Qed.

Lemma keeps_alias_nodes (P : World → Prop) l c : keeps P (alias_nodes l c).
Proof.
  revert c. induction l as [|n l IH]; intros c; cbn [alias_nodes].
  - apply keeps_ret.
  - apply keeps_bind; [apply keeps_alias_node | intros c'; apply IH].
Qed.

Lemma keeps_record_usages (P : World → Prop) ys c : keeps P (record_usages ys c).
Proof.
  revert c. induction ys as [|y ys IH]; intros c; cbn [record_usages].
  - apply keeps_ret.
  - apply keeps_bind; [|intros c'; apply IH]. unfold record_usage.
    apply keeps_bind; [apply keeps_from_option|]. intros cell.
    apply keeps_bind; [apply keeps_from_option|]. intros u. apply keeps_ret.
Qed.

Lemma leads_reissue L node target kw :
  leads (rewriting (name node) L) (reissue node target kw) (placeholders_are L).
Proof.
  unfold reissue. apply (leads_bind _ (rewriting (name node) L)).
  - apply keeps_inserting_before; [apply rewriting_edit_proof|].
    apply keeps_bind; [by apply rewriting_edit_proof|]. intros new.
    apply rewriting_edit_proof.
  - intros _. apply leads_erase_node.
  - apply rewriting_placeholders_are.
Qed.

Lemma leads_rewrite_node L node c :
  leads (λ w, placeholders_are L w ∧ find_node (name node) (graph w) = Some node)
        (rewrite_node signature_repr node c) (placeholders_are L).
Proof.
  intros w [Hw Hf]. unfold rewrite_node.
  destruct (kind node) as [| |target| | |] eqn:Hk; try exact Hw.
  assert (rewriting (name node) L w) as HR.
  { apply (find_node_rewriting _ L w node); auto.
    unfold placeholder_target. by rewrite Hk. }
  revert HR. generalize w. clear.
  pose proof (rewriting_placeholders_are (name node) L) as Hweak.
  assert (∀ o : Outcome, leads (rewriting (name node) L) (ret o) (placeholders_are L))
    as Hret by (intros o; apply leads_of_keeps; [apply keeps_ret | done]).
  destruct (_ =? _)%nat; [|apply Hret].
  apply (leads_bind _ (rewriting (name node) L)); [| |done].
  { unfold sole_argument. destruct (args node); [apply keeps_raise | apply keeps_ret]. }
  intros [ | a | ]; try apply Hret.
  apply (leads_bind _ (rewriting (name node) L)); [apply keeps_from_option | |done].
  intros u. destruct (usage_is_zero u); [|apply Hret].
  destruct (SKIP_INPLACE target); [apply Hret|].
  destruct (has_inplace_variant target).
  { apply (leads_bind _ (rewriting (name node) L)); [| |done].
    - apply keeps_bump_counter, rewriting_graph_only.
    - intros _. apply (leads_bind _ (placeholders_are L)); [apply leads_reissue | |done].
      intros _. apply keeps_ret. }
  destruct (accepts_out signature_repr target); [|apply Hret].
  apply (leads_bind _ (rewriting (name node) L)); [| |done].
  - apply keeps_bump_counter, rewriting_graph_only.
  - intros _. apply (leads_bind _ (placeholders_are L)); [apply leads_reissue | |done].
    intros _. apply keeps_ret.
Qed.

Lemma keeps_inplacify_node L x c :
  keeps (placeholders_are L) (inplacify_node signature_repr x c).
Proof.
  intros w Hw. unfold inplacify_node. rewrite bind_unfold. cbn [gets].
  destruct (find_node x (graph w)) as [node|] eqn:Hf; [|exact Hw].
  pose proof (find_node_name _ _ _ Hf) as <-.
  assert (placeholders_are L w ∧ find_node (name node) (graph w) = Some node)
    as Hpre by done.
  revert Hpre. generalize w. clear.
  apply (leads_bind _ (placeholders_are L)); [apply leads_rewrite_node | |done].
  intros []; try apply keeps_ret. apply keeps_record_usages.
Qed.

Lemma keeps_inplacify_nodes L xs c :
  keeps (placeholders_are L) (inplacify_nodes signature_repr xs c).
Proof.
  revert c. induction xs as [|x xs IH]; intros c; cbn [inplacify_nodes].
  - apply keeps_ret.
  - apply keeps_bind; [apply keeps_inplacify_node | intros c'; apply IH].
Qed.

Lemma inplacify_placeholders w :
  placeholders (nodes (graph (inplacify signature_repr w).2))
  = placeholders (nodes (graph w)).
Proof.
  assert (keeps (placeholders_are (placeholders (nodes (graph w))))
            (inplacify signature_repr)) as H.
  { unfold inplacify. apply keeps_bind; [apply keeps_gets|]. intros g.
    apply keeps_bind; [apply keeps_alias_nodes|]. intros counts.
    apply keeps_bind; [apply keeps_gets|]. intros g'.
    apply keeps_bind; [apply keeps_inplacify_nodes|]. intros _. apply keeps_ret. }
  by apply H.
Qed.

End InplacifierPlaceholders.

(** ** Functionalization: one node *)

Lemma bind_Ok_inv {S A B} (m : M S A) (k : A → M S B) s b s' :
  (m ≫= k) s = (Ok b, s') → ∃ a s1, m s = (Ok a, s1) ∧ k a s1 = (Ok b, s').
Proof.
  rewrite bind_unfold. destruct (m s) as [[a|e] s1]; [|done].
  intros H. by exists a, s1.
Qed.

Lemma emit_appended k a kw s :
  insert_point (new_graph s) = None →
  emit k a kw s = (Ok (ANode (next_name (new_graph s))), appended k a kw s).
Proof. intros H. unfold emit, create_node, appended. by rewrite H. Qed.

(** Resolving keyword arguments keeps the keys. *)
Lemma map_kwargs_opt_lookup f (k kw : gmap string Arg) key :
  map_kwargs_opt f k = Some kw → kw !! key = k !! key ≫= map_arg_opt f.
Proof.
  unfold map_kwargs_opt. case_bool_decide; [|done]. intros [= <-].
  apply lookup_omap.
Qed.


Lemma fetch_args_kwargs_from_env_ok n s a kw :
  map_args_opt (λ x, env s !! x) (args n) = Some a →
  map_kwargs_opt (λ x, env s !! x) (kwargs n) = Some kw →
  fetch_args_kwargs_from_env n s = (Ok (a, kw), s).
Proof.
  intros Ha Hkw. unfold fetch_args_kwargs_from_env.
  rewrite bind_unfold. cbn [gets]. rewrite Ha, bind_unfold. cbn [from_option ret].
  rewrite Hkw, bind_unfold. reflexivity.
Qed.

Section FunctionalizationNode.
Variable allowed_function_ids : func → option string.
Variable torch_namespace : string → bool.

Implicit Types (n : Node) (s : Interp).

Lemma purifiable_true n s ty :
  m_is_input_mutation (meta n) = Some false →
  m_type (meta n) = Some ty → issubclass_Tensor ty = true →
  purifiable n s = (Ok true, s).
Proof.
  intros Him Hty Hsub. unfold purifiable.
  rewrite Him, bind_unfold. cbn [from_option ret].
  rewrite Hty, bind_unfold. cbn [from_option ret]. by rewrite Hsub.
Qed.

Lemma dispatch_reemitted k a kw s :
  insert_point (new_graph s) = None →
  reemitted k a (submodules (world s)) = true →
  dispatch k a kw s = (Ok (ANode (next_name (new_graph s))), appended k a kw s).
Proof.
  intros Hi Hr. destruct k as [| |f|t|t|]; try done; cbn [dispatch reemitted] in *.
  - by apply emit_appended.
  - destruct a as [|[] ?]; try done. by apply emit_appended.
  - rewrite bind_unfold. cbn [gets].
    apply bool_decide_eq_true in Hr as [m Hm]. rewrite Hm. by apply emit_appended.
Qed.

(** C9: for a call node that is tensor-producing, not an input mutation and
    carries [inplace=False], [run_node] emits the same call with the
    resolved arguments and with the resolved keyword arguments minus
    [inplace]; it records no patch and tallies nothing: the environment
    (so the binding of the first positional argument) and the counters are
    left as they were. *)
Theorem functionalization_inplace_false (n : Node) (s : Interp) (ty : pytype)
    (a : list Arg) (kw : gmap string Arg) :
  m_is_input_mutation (meta n) = Some false →
  m_type (meta n) = Some ty → issubclass_Tensor ty = true →
  kwargs n !! "inplace" = Some (ALit (LBool false)) →
  map_args_opt (λ x, env s !! x) (args n) = Some a →
  map_kwargs_opt (λ x, env s !! x) (kwargs n) = Some kw →
  insert_point (new_graph s) = None →
  reemitted (kind n) a (submodules (world s)) = true →
  run_node allowed_function_ids torch_namespace n s =
    (Ok (ANode (next_name (new_graph s))),
     appended (kind n) a (delete "inplace" kw) s)
  ∧ env (run_node allowed_function_ids torch_namespace n s).2 = env s
  ∧ world (run_node allowed_function_ids torch_namespace n s).2 = world s.
Proof.
  intros Him Hty Hsub Hin Ha Hkw Hip Hre.
  assert (run_node allowed_function_ids torch_namespace n s =
          (Ok (ANode (next_name (new_graph s))),
           appended (kind n) a (delete "inplace" kw) s)) as Hrun.
  { unfold run_node. rewrite bind_unfold.
    rewrite (fetch_args_kwargs_from_env_ok n s a kw Ha Hkw).
    rewrite bind_unfold. unfold purify.
    rewrite bind_unfold, (purifiable_true n s ty Him Hty Hsub), Hin.
    rewrite bind_unfold.
    rewrite (map_kwargs_opt_lookup _ _ _ "inplace" Hkw), Hin.
    cbn [mbind option_bind map_arg_opt from_option ret].
    rewrite bind_unfold. cbn [truthy ret]. rewrite bind_unfold. cbn [ret].
    rewrite bind_unfold. unfold fold_getattr.
    assert (is_builtins_getattr (kind n) = false) as ->.
    { destruct (kind n); try done. cbn in *. by destruct (bool_decide _). }
    rewrite bind_unfold, Hty. cbn [from_option ret].
    rewrite bind_unfold, Hsub. cbn [ret].
    rewrite bind_unfold, (dispatch_reemitted _ _ _ _ Hip Hre).
    reflexivity. }
  rewrite Hrun. done.
Qed.

End FunctionalizationNode.

Lemma map_kwargs_opt_empty f : map_kwargs_opt f ∅ = Some ∅.
Proof.
  unfold map_kwargs_opt. rewrite bool_decide_true by apply map_Forall_empty.
  by rewrite omap_empty.
Qed.

Lemma node_uses_single n x :
  args n = [ANode x] → kwargs n = ∅ → node_uses n = [x].
Proof.
  intros Ha Hk. unfold node_uses. rewrite Ha, Hk, map_to_list_empty. reflexivity.
Qed.

Lemma last_uses_single n x later :
  node_uses n = [x] →
  last_uses n later =
  if decide (Exists (λ m, x ∈ node_uses m) later) then [] else [x].
Proof.
  intros Hn. unfold last_uses. rewrite Hn. cbn [remove_dups].
  destruct (decide_rel elem_of x []) as [H|_]; [by apply elem_of_nil in H|].
  rewrite filter_cons, filter_nil.
  destruct (decide (Exists _ later)) as [He|He].
  - rewrite decide_False; [done|]. intros H. by apply H.
  - by rewrite decide_True.
Qed.

Section FunctionalizationScenario.
Variable allowed_function_ids : func → option string.
Variable torch_namespace : string → bool.
Implicit Types (n : Node) (s : Interp).

(** The purified [relu_]: a [torch.relu] call is emitted and the binding of
    the mutated argument is redirected to it. *)
Lemma run_node_relu_ r s x vx ty :
  kind r = call_function (torch_fn "relu_") → args r = [ANode x] → kwargs r = ∅ →
  m_is_input_mutation (meta r) = Some false →
  m_type (meta r) = Some ty → issubclass_Tensor ty = true →
  env s !! x = Some vx →
  insert_point (new_graph s) = None →
  run_node allowed_function_ids torch_namespace r s =
    (Ok (ANode (next_name (new_graph s))),
     set_env (<[x := ANode (next_name (new_graph s))]> (env s))
       (appended (call_function (torch_fn "relu")) [vx] ∅ s)).
Proof.
  intros Hk Ha Hkw Him Hty Hsub Hx Hip.
  unfold run_node. rewrite bind_unfold.
  rewrite (fetch_args_kwargs_from_env_ok r s [vx] ∅).
  2:{ rewrite Ha. cbn. by rewrite Hx. }
  2:{ rewrite Hkw. apply map_kwargs_opt_empty. }
  rewrite bind_unfold. unfold purify.
  rewrite bind_unfold, (purifiable_true r s ty Him Hty Hsub), Hkw.
  rewrite !lookup_empty. unfold purify_target. rewrite Hk.
  rewrite decide_True by done. rewrite bind_unfold.
  unfold first_arg. rewrite Ha. cbn [lookup list_lookup from_option ret].
  rewrite bind_unfold. unfold fold_getattr.
  cbn [is_builtins_getattr]. rewrite bool_decide_false by done.
  rewrite bind_unfold, Hty. cbn [from_option ret].
  rewrite bind_unfold, Hsub. cbn [ret].
  rewrite bind_unfold, (dispatch_reemitted _ _ _ _ Hip) by done.
  rewrite bind_unfold. cbn [apply_patches].
  rewrite bind_unfold. cbn [gets appended env].
  rewrite bind_unfold, bool_decide_true by (by rewrite Hx).
  cbn [modify]. reflexivity.
Qed.

(** A pure function call is re-emitted over the current bindings. *)
Lemma run_node_pure_call n s f a kw ty :
  kind n = call_function f →
  f ≠ torch_fn "relu_" → f_module f ≠ "_operator" → f ≠ builtins_getattr →
  kwargs n !! "inplace" = None → kwargs n !! "out" = None →
  m_is_input_mutation (meta n) = Some false →
  m_type (meta n) = Some ty → issubclass_Tensor ty = true →
  m_is_mutation (meta n) = Some false →
  map_args_opt (λ x, env s !! x) (args n) = Some a →
  map_kwargs_opt (λ x, env s !! x) (kwargs n) = Some kw →
  insert_point (new_graph s) = None →
  run_node allowed_function_ids torch_namespace n s =
    (Ok (ANode (next_name (new_graph s))), appended (call_function f) a kw s).
Proof.
  intros Hk Hr Ho Hg Hin Hout Him Hty Hsub Hmut Ha Hkw Hip.
  unfold run_node. rewrite bind_unfold.
  rewrite (fetch_args_kwargs_from_env_ok n s a kw Ha Hkw).
  rewrite bind_unfold. unfold purify.
  rewrite bind_unfold, (purifiable_true n s ty Him Hty Hsub), Hin, Hout.
  unfold purify_target. rewrite Hk.
  rewrite decide_False by done.
  rewrite (bool_decide_false (f_module f = "_operator")) by done.
  cbn [andb]. rewrite bind_unfold, Hmut. cbn [from_option ret].
  rewrite bind_unfold. cbn [ret]. rewrite bind_unfold.
  unfold fold_getattr. cbn [is_builtins_getattr].
  rewrite bool_decide_false by done.
  rewrite bind_unfold, Hty. cbn [from_option ret].
  rewrite bind_unfold, Hsub. cbn [ret].
  rewrite bind_unfold, (dispatch_reemitted _ _ _ _ Hip).
  2:{ cbn. by rewrite bool_decide_false. }
  rewrite bind_unfold. reflexivity.
Qed.

Lemma forget_nil s : forget [] s = (Ok tt, s).
Proof. reflexivity. Qed.

Lemma forget_one x v s :
  env s !! x = Some v → forget [x] s = (Ok tt, set_env (delete x (env s)) s).
Proof.
  intros H. cbn [forget]. rewrite bind_unfold. cbn [gets]. rewrite H.
  rewrite bind_unfold. reflexivity.
Qed.

(** C3 (amended): for [relu_(x)] followed by [z = exp(x)], both
    tensor-producing and not marked as input mutations, the interpreter
    emits [torch.relu] on the value of [x], rebinds [x] to that new node,
    and then emits [exp] reading the new [relu] node, not the value [x] had
    before. *)
Theorem functionalization_relu_then_exp (s : Interp) (x : nat) (vx : Arg)
    (r z : Node) (later : list Node) (tyr tyz : pytype) :
  kind r = call_function (torch_fn "relu_") → args r = [ANode x] → kwargs r = ∅ →
  m_is_input_mutation (meta r) = Some false →
  m_type (meta r) = Some tyr → issubclass_Tensor tyr = true →
  kind z = call_function (torch_fn "exp") → args z = [ANode x] → kwargs z = ∅ →
  m_is_input_mutation (meta z) = Some false →
  m_type (meta z) = Some tyz → issubclass_Tensor tyz = true →
  m_is_mutation (meta z) = Some false →
  env s !! x = Some vx →
  insert_point (new_graph s) = None →
  let k := next_name (new_graph s) in
  ∃ s1 s2,
    step allowed_function_ids torch_namespace r (z :: later) s = (Ok (ANode k), s1)
    ∧ env s1 !! x = Some (ANode k)
    ∧ step allowed_function_ids torch_namespace z later s1 = (Ok (ANode (S k)), s2)
    ∧ nodes (new_graph s2) =
        nodes (new_graph s) ++
        [ {| name := k; kind := call_function (torch_fn "relu"); args := [vx];
             kwargs := ∅; meta := no_meta |};
          {| name := S k; kind := call_function (torch_fn "exp"); args := [ANode k];
             kwargs := ∅; meta := no_meta |} ].
Proof.
  intros Hkr Har Hkwr Himr Htyr Hsubr Hkz Haz Hkwz Himz Htyz Hsubz Hmutz Hx Hip k.
  set (s0 := set_env (<[x := ANode k]> (env s))
               (appended (call_function (torch_fn "relu")) [vx] ∅ s)).
  set (s1 := set_env (<[name r := ANode k]> (env s0)) s0).
  assert (step allowed_function_ids torch_namespace r (z :: later) s
          = (Ok (ANode k), s1)) as Hstep1.
  { unfold step. rewrite bind_unfold.
    rewrite (run_node_relu_ r s x vx tyr) by done. fold k s0.
    rewrite bind_unfold. cbn [modify]. fold s1.
    assert (last_uses r (z :: later) = []) as ->.
    { rewrite (last_uses_single r x) by (by apply node_uses_single).
      rewrite decide_True; [done|]. apply Exists_cons_hd.
      rewrite (node_uses_single z x) by done. set_solver. }
    rewrite bind_unfold, forget_nil. reflexivity. }
  assert (env s1 !! x = Some (ANode k)) as Hx1.
  { unfold s1, s0. cbn. destruct (decide (name r = x)) as [->|Hne].
    - by rewrite lookup_insert_eq.
    - by rewrite lookup_insert_ne, lookup_insert_eq. }
  assert (insert_point (new_graph s1) = None) as Hip1 by done.
  assert (next_name (new_graph s1) = S k) as Hk1 by done.
  pose proof (run_node_pure_call z s1 (torch_fn "exp") [ANode k] ∅ tyz) as Hz.
  rewrite Hk1 in Hz.
  set (s2' := appended (call_function (torch_fn "exp")) [ANode k] ∅ s1) in Hz.
  set (s2'' := set_env (<[name z := ANode (S k)]> (env s2')) s2').
  assert (env s2'' !! x = Some (if decide (name z = x) then ANode (S k) else ANode k))
    as Hx2.
  { unfold s2'', s2'. cbn [env set_env appended]. case_decide as Hzx.
    - by rewrite Hzx, lookup_insert_eq.
    - by rewrite lookup_insert_ne. }
  exists s1.
  exists (match decide (Exists (λ m, x ∈ node_uses m) later) with
          | left _ => s2''
          | right _ => set_env (delete x (env s2'')) s2''
          end).
  split; [exact Hstep1|]. split; [exact Hx1|]. split.
  - unfold step. rewrite bind_unfold, Hz; try done.
    2:{ by rewrite Hkwz. } 2:{ by rewrite Hkwz. }
    2:{ rewrite Haz. cbn [map_args_opt map_arg_opt]. by rewrite Hx1. }
    2:{ rewrite Hkwz. apply map_kwargs_opt_empty. }
    rewrite bind_unfold. cbn [modify]. fold s2''.
    rewrite (last_uses_single z x) by (by apply node_uses_single).
    destruct (decide (Exists (λ m, x ∈ node_uses m) later)) as [He|He].
    + rewrite bind_unfold, forget_nil. reflexivity.
    + rewrite bind_unfold, (forget_one x _ _ Hx2). reflexivity.
  - clear Hz Hx2. subst s2'' s2' s1 s0.
    destruct (decide (Exists _ later)); cbn; by rewrite <- app_assoc.
Qed.
End FunctionalizationScenario.

(** ** Functionalization: what one node can do to the state *)

Lemma from_option_Ok_inv {S A} (e : exn) (o : option A) (s s' : S) a :
  from_option e o s = (Ok a, s') → o = Some a ∧ s' = s.
Proof. destruct o; cbn; [by intros [= -> ->] | done]. Qed.

Lemma ret_Ok_inv {S A} (a b : A) (s s' : S) :
  ret a s = (Ok b, s') → b = a ∧ s' = s.
Proof. by intros [= -> ->]. Qed.

Lemma keeps_in_world {A} (P : Interp → Prop) (m : M World A) :
  world_blind P → keeps P (in_world m).
Proof.
  intros HP s Hs. unfold in_world. destruct (m (world s)) as [r w]. by apply HP.
Qed.

Lemma keeps_truthy (P : Interp → Prop) v : keeps P (truthy v).
Proof.
  destruct v as [[]| |]; cbn [truthy]; try apply keeps_ret; apply keeps_raise.
Qed.

Section FunctionalizationFrame.
Variable allowed_function_ids : func → option string.
Variable torch_namespace : string → bool.
Implicit Types (n : Node) (s : Interp) (P : Interp → Prop).

Lemma keeps_tally P group n :
  world_blind P → keeps P (tally allowed_function_ids group n).
Proof. intros HP. by apply keeps_in_world. Qed.

Lemma keeps_purifiable P n : keeps P (purifiable n).
Proof.
  unfold purifiable. apply keeps_bind; [apply keeps_from_option|].
  intros []; [apply keeps_ret|].
  apply keeps_bind; [apply keeps_from_option|]. intros ty. apply keeps_ret.
Qed.

Lemma keeps_first_arg P n : keeps P (first_arg n).
Proof. apply keeps_from_option. Qed.

Lemma keeps_torch_getattr P nm : keeps P (torch_getattr torch_namespace nm).
Proof. unfold torch_getattr. destruct (torch_namespace nm); [apply keeps_ret | apply keeps_raise]. Qed.

Lemma keeps_purify_target P n kw :
  world_blind P →
  keeps P (purify_target allowed_function_ids torch_namespace n kw).
Proof.
  intros HP.
  assert (keeps P (mut ← from_option KeyError (m_is_mutation (meta n));
                   (if (mut : bool) then tally allowed_function_ids "mutation" n
                    else ret tt);;
                   ret (kind n, kw, @nil Arg))) as Hun.
  { apply keeps_bind; [apply keeps_from_option|]. intros mut.
    apply keeps_bind; [|intros _; apply keeps_ret].
    destruct mut; [by apply keeps_tally | apply keeps_ret]. }
  unfold purify_target. destruct (kind n) as [| |target| | |]; try exact Hun.
  destruct (decide _).
  { apply keeps_bind; [apply keeps_first_arg|]. intros a0. apply keeps_ret. }
  destruct (_ && _).
  { apply keeps_bind; [apply keeps_torch_getattr|]. intros t.
    apply keeps_bind; [apply keeps_first_arg|]. intros a0. apply keeps_ret. }
  destruct (_ && _); [|exact Hun].
  apply keeps_bind; [apply keeps_torch_getattr|]. intros t. apply keeps_ret.
Qed.

Lemma keeps_purify P n kw :
  world_blind P → keeps P (purify allowed_function_ids torch_namespace n kw).
Proof.
  intros HP. unfold purify. apply keeps_bind; [apply keeps_purifiable|].
  intros []; [|apply keeps_ret].
  destruct (kwargs n !! "inplace").
  { apply keeps_bind; [apply keeps_from_option|]. intros v.
    apply keeps_bind; [apply keeps_truthy|]. intros b.
    apply keeps_bind; [|intros p; apply keeps_ret].
    destruct b; [|apply keeps_ret].
    apply keeps_bind; [apply keeps_first_arg|]. intros a0. apply keeps_ret. }
  destruct (kwargs n !! "out"); [apply keeps_ret|].
  by apply keeps_purify_target.
Qed.

Lemma keeps_arg0_meta P n field : keeps P (arg0_meta n field).
Proof.
  unfold arg0_meta. apply keeps_bind; [apply keeps_first_arg|].
  intros [| x |]; try apply keeps_raise.
  apply keeps_bind; [apply keeps_gets|]. intros g.
  apply keeps_bind; [apply keeps_from_option|]. intros src.
  apply keeps_bind; [apply keeps_from_option|]. intros v. apply keeps_ret.
Qed.

Lemma keeps_fold_getattr P n k a :
  world_blind P → keeps P (fold_getattr allowed_function_ids n k a).
Proof.
  intros HP. unfold fold_getattr. destruct (is_builtins_getattr k).
  - apply keeps_bind; [apply keeps_from_option|]. intros a1.
    assert (keeps P (in_world (bump_counter "getattr" (attr_key a1));;
                     ret (@None Arg))) as Hother.
    { apply keeps_bind; [by apply keeps_in_world | intros _; apply keeps_ret]. }
    destruct a1 as [[]| |]; try exact Hother; try apply keeps_raise.
    repeat (match goal with
            | |- context [match ?x with _ => _ end] => destruct x
            end; try exact Hother);
    (apply keeps_bind; [apply keeps_arg0_meta | intros v; apply keeps_ret]).
  - apply keeps_bind; [apply keeps_from_option|]. intros ty.
    apply keeps_bind; [|intros _; apply keeps_ret].
    destruct (issubclass_Tensor ty); [apply keeps_ret | by apply keeps_tally].
Qed.

End FunctionalizationFrame.

Lemma same_op_placeholder_target k k' x a kw m x' a' kw' m' :
  same_op k k' →
  placeholder_target {| name := x'; kind := k'; args := a'; kwargs := kw'; meta := m' |}
  = placeholder_target {| name := x; kind := k; args := a; kwargs := kw; meta := m |}.
Proof. intros [->|(f & f' & -> & ->)]; reflexivity. Qed.

Section FunctionalizationSpec.
Variable allowed_function_ids : func → option string.
Variable torch_namespace : string → bool.
Implicit Types (n : Node) (s : Interp) (P : Interp → Prop).

Lemma torch_getattr_Ok_inv nm s t s' :
  torch_getattr torch_namespace nm s = (Ok t, s') → t = torch_fn nm.
Proof.
  unfold torch_getattr. destruct (torch_namespace nm); [|done]. by intros [= <- _].
Qed.

Lemma startswith_i_drop_first nm :
  startswith_i nm = true → nm = "i" +:+ drop_first nm.
Proof.
  intros H. destruct nm as [|c nm']; [done|].
  unfold startswith_i in H. cbn [String.prefix] in H.
  destruct (Ascii.ascii_dec _ c) as [<-|]; [reflexivity | discriminate].
Qed.

(** The target chosen by the renaming branches carries no marker. *)
Lemma purify_target_clean n kw s k kw' p s1 :
  purify_target allowed_function_ids torch_namespace n kw s = (Ok (k, kw', p), s1) →
  kw' = kw ∧ same_op (kind n) k ∧ (real_operator_target (kind n) → destructive k = false).
Proof.
  assert (∀ (m : M Interp unit), (mut ← from_option KeyError (m_is_mutation (meta n));
             (if (mut : bool) then tally allowed_function_ids "mutation" n else ret tt);;
             ret (kind n, kw, @nil Arg)) s = (Ok (k, kw', p), s1) →
          kw' = kw ∧ k = kind n) as Hun.
  { intros _ H. apply bind_Ok_inv in H as (mut & s2 & _ & H).
    apply bind_Ok_inv in H as (? & s3 & _ & H). by injection H as <- <- _ _. }
  unfold purify_target.
  destruct (kind n) as [| |target| | |] eqn:Hk;
    try (intros H; apply (Hun (ret tt)) in H as [-> ->];
         split; [done|]; split; [by left|]; done).
  destruct (decide (target = torch_fn "relu_")) as [->|Hrelu].
  { intros H. apply bind_Ok_inv in H as (a0 & s2 & _ & H).
    injection H as <- <- _ _. split; [done|]. split; [right; eauto|]. done. }
  destruct (bool_decide (f_module target = "_operator")) eqn:Hmod; cbn [andb].
  2:{ intros H. apply (Hun (ret tt)) in H as [-> ->].
      split; [done|]. split; [by left|]. intros _. cbn.
      rewrite bool_decide_false by done. by rewrite Hmod. }
  apply bool_decide_eq_true in Hmod.
  destruct (startswith_i (f_name target)) eqn:Hi.
  { intros H. apply bind_Ok_inv in H as (t & s2 & Ht & H).
    apply torch_getattr_Ok_inv in Ht as ->.
    apply bind_Ok_inv in H as (a0 & s3 & _ & H). injection H as <- <- _ _.
    split; [done|]. split; [right; eauto|]. intros [Hph _]. cbn.
    rewrite orb_false_r. apply bool_decide_eq_false. intros [= Hd].
    apply Hph. f_equal. destruct target as [md nm]. cbn in *. subst md.
    unfold operator_fn. f_equal. apply startswith_i_drop_first in Hi.
    by rewrite Hi, Hd. }
  destruct (negb _).
  2:{ intros H. apply (Hun (ret tt)) in H as [-> ->].
      split; [done|]. split; [by left|]. intros _. cbn.
      rewrite bool_decide_false by done. rewrite Hi. by rewrite andb_false_r. }
  intros H. apply bind_Ok_inv in H as (t & s2 & Ht & H).
  apply torch_getattr_Ok_inv in Ht as ->. injection H as <- <- _ _.
  split; [done|]. split; [right; eauto|]. intros [_ Hph]. cbn.
  rewrite orb_false_r. apply bool_decide_eq_false. intros [= Hd].
  apply Hph. f_equal. destruct target as [md nm]. cbn in *. subst md.
  unfold operator_fn. f_equal.
  repeat case_decide; try done.
Qed.


Lemma purify_same_op n kw s k kw' p s1 :
  purify allowed_function_ids torch_namespace n kw s = (Ok (k, kw', p), s1) →
  same_op (kind n) k.
Proof.
  unfold purify. intros H. apply bind_Ok_inv in H as ([] & s2 & _ & H).
  2:{ injection H as <- _ _ _. by left. }
  destruct (kwargs n !! "inplace").
  { apply bind_Ok_inv in H as (v & s3 & _ & H).
    apply bind_Ok_inv in H as (b & s4 & _ & H).
    apply bind_Ok_inv in H as (ps & s5 & _ & H). injection H as <- _ _ _. by left. }
  destruct (kwargs n !! "out"); [injection H as <- _ _ _; by left|].
  by apply purify_target_clean in H as (_ & H & _).
Qed.

End FunctionalizationSpec.

Section FunctionalizationRunNode.
Variable allowed_function_ids : func → option string.
Variable torch_namespace : string → bool.
Implicit Types (n : Node) (s : Interp) (P : Interp → Prop).

(** [dispatch] emits nothing for [output] and one node of the given kind
    otherwise, with the given keyword arguments or none. *)
Lemma dispatch_Ok_inv k a kw s r s' :
  insert_point (new_graph s) = None →
  dispatch k a kw s = (Ok r, s') →
  (s' = s ∧ k = output)
  ∨ ∃ a' kw'', (kw'' = kw ∨ kw'' = ∅) ∧ s' = appended k a' kw'' s.
Proof.
  intros Hip. destruct k as [t|t|f|t|t|]; cbn [dispatch].
  - rewrite emit_appended by done. intros [= _ <-]. right. eauto.
  - rewrite emit_appended by done. intros [= _ <-]. right. eauto.
  - rewrite emit_appended by done. intros [= _ <-]. right. eauto.
  - destruct a as [|[] ?]; try done.
    rewrite emit_appended by done. intros [= _ <-]. right. eauto.
  - rewrite bind_unfold. cbn [gets]. destruct (_ !! t); [|done].
    rewrite emit_appended by done. intros [= _ <-]. right. eauto.
  - intros H. apply from_option_Ok_inv in H as [_ ->]. by left.
Qed.

(** Patches overwrite bindings that exist; they bind nothing new. *)
Lemma keeps_apply_patches g w (e0 : gmap nat Arg) patches r :
  keeps (λ s, new_graph s = g ∧ world s = w ∧ ∀ y, e0 !! y = None → env s !! y = None)
        (apply_patches patches r).
Proof.
  induction patches as [|[| x |] rest IH]; cbn [apply_patches];
    try apply keeps_raise; [apply keeps_ret|].
  intros s (Hg & Hw & He). rewrite bind_unfold. cbn [gets].
  rewrite bind_unfold. case_bool_decide as Hx; cbn [modify ret].
  - apply IH. cbn. split; [done|]. split; [done|]. intros y Hy.
    destruct (decide (x = y)) as [->|Hne].
    + specialize (He y Hy). destruct Hx as [v Hv]. congruence.
    + rewrite lookup_insert_ne by done. by apply He.
  - by apply IH.
Qed.

Lemma fetch_args_kwargs_from_env_Ok_inv n s a kw s' :
  fetch_args_kwargs_from_env n s = (Ok (a, kw), s') →
  s' = s ∧ map_args_opt (λ x, env s !! x) (args n) = Some a
  ∧ map_kwargs_opt (λ x, env s !! x) (kwargs n) = Some kw.
Proof.
  unfold fetch_args_kwargs_from_env. rewrite bind_unfold. cbn [gets].
  intros H. apply bind_Ok_inv in H as (a' & s1 & Ha & H).
  apply from_option_Ok_inv in Ha as [Ha ->].
  apply bind_Ok_inv in H as (kw' & s2 & Hkw & H).
  apply from_option_Ok_inv in Hkw as [Hkw ->].
  injection H as <- <- <-. done.
Qed.

(** The anatomy of a successful [run_node]. *)
Lemma run_node_Ok_inv n s r s' :
  insert_point (new_graph s) = None →
  run_node allowed_function_ids torch_namespace n s = (Ok r, s') →
  ∃ kw k kw' p s1,
    map_kwargs_opt (λ x, env s !! x) (kwargs n) = Some kw
    ∧ purify allowed_function_ids torch_namespace n kw s = (Ok (k, kw', p), s1)
    ∧ ((new_graph s' = new_graph s ∧ ∀ t, k ≠ placeholder t)
       ∨ ∃ a' kw'', (kw'' = kw' ∨ kw'' = ∅)
                    ∧ new_graph s' = new_graph (appended k a' kw'' s))
    ∧ (∀ y, env s !! y = None → env s' !! y = None).
Proof.
  intros Hip H. unfold run_node in H.
  apply bind_Ok_inv in H as ([a kw] & s0 & Hf & H).
  apply fetch_args_kwargs_from_env_Ok_inv in Hf as (-> & Ha & Hkw).
  apply bind_Ok_inv in H as ([[k kw'] p] & s1 & Hp & H).
  exists kw, k, kw', p, s1. split; [done|]. split; [done|].
  set (P := λ s0 : Interp, new_graph s0 = new_graph s ∧ env s0 = env s).
  assert (world_blind P) as HP by (by intros ? ? ?).
  assert (P s1) as [Hg1 He1].
  { pose proof (keeps_purify allowed_function_ids torch_namespace P n kw HP s) as Hk.
    rewrite Hp in Hk. by apply Hk. }
  apply bind_Ok_inv in H as (early & s2 & Hfg & H).
  assert (P s2) as [Hg2 He2].
  { pose proof (keeps_fold_getattr allowed_function_ids P n k a HP s1) as Hk.
    rewrite Hfg in Hk. by apply Hk. }
  destruct early as [v|].
  { injection H as _ <-. split; [|by rewrite He2].
    left. split; [done|]. intros t ->.
    unfold fold_getattr in Hfg. cbn [is_builtins_getattr] in Hfg.
    apply bind_Ok_inv in Hfg as (? & ? & _ & Hfg).
    apply bind_Ok_inv in Hfg as (? & ? & _ & Hfg). done. }
  apply bind_Ok_inv in H as (r' & s3 & Hd & H).
  apply bind_Ok_inv in H as ([] & s4 & Hap & H). injection H as _ <-.
  pose proof (keeps_apply_patches (new_graph s3) (world s3) (env s3) p r' s3) as Hk.
  rewrite Hap in Hk. destruct Hk as (Hg4 & _ & He4); [done|]. cbn [snd] in *.
  assert (insert_point (new_graph s2) = None) as Hip2 by (by rewrite Hg2).
  apply (dispatch_Ok_inv _ _ _ _ _ _ Hip2) in Hd as [[-> ->]|(a' & kw'' & Hkw'' & ->)].
  - split; [left; by rewrite Hg4|]. intros y Hy. apply He4. by rewrite He2.
  - split.
    + right. exists a', kw''. split; [done|]. rewrite Hg4. cbn. by rewrite Hg2.
    + intros y Hy. apply He4. cbn. by rewrite He2.
Qed.


End FunctionalizationRunNode.

(** ** Functionalization: the placeholders of the new graph *)

Lemma placeholders_snoc l n :
  placeholders (l ++ [n]) = placeholders l ++ placeholders [n].
Proof. apply placeholders_app. Qed.

Lemma output_last_cons n l :
  output_last (n :: l) = true →
  output_last l = true ∧ (is_output n = true → l = []).
Proof.
  cbn [output_last]. destruct l as [|n' l']; [done|].
  intros [Hn Hl]%andb_true_iff. split; [done|].
  intros Ho. by rewrite Ho in Hn.
Qed.

Section FunctionalizationPlaceholders.
Variable allowed_function_ids : func → option string.
Variable torch_namespace : string → bool.
Implicit Types (n : Node) (s : Interp).

(** Dropping values binds nothing and leaves the new graph alone. *)
Lemma keeps_forget g (D : nat → Prop) xs :
  keeps (λ s, new_graph s = g ∧ ∀ y, D y → env s !! y = None) (forget xs).
Proof.
  induction xs as [|x xs IH]; cbn [forget]; [apply keeps_ret|].
  intros s (Hg & He). rewrite bind_unfold. cbn [gets].
  destruct (env s !! x) eqn:Hx; [|done].
  rewrite bind_unfold. cbn [modify]. apply IH. cbn. split; [done|].
  intros y Hy. destruct (decide (x = y)) as [->|Hne].
  - apply lookup_delete_eq.
  - rewrite lookup_delete_ne by done. by apply He.
Qed.

Lemma step_Ok_inv n later s r s1 :
  insert_point (new_graph s) = None →
  step allowed_function_ids torch_namespace n later s = (Ok r, s1) →
  placeholders (nodes (new_graph s1))
  = placeholders (nodes (new_graph s)) ++ placeholders [n]
  ∧ insert_point (new_graph s1) = None
  ∧ (∀ y, y ≠ name n → env s !! y = None → env s1 !! y = None).
Proof.
  intros Hip H. unfold step in H.
  apply bind_Ok_inv in H as (r' & s' & Hrun & H).
  apply bind_Ok_inv in H as ([] & s'' & Hmod & H).
  apply bind_Ok_inv in H as ([] & s''' & Hfg & H). injection H as _ <-.
  injection Hmod as <-.
  pose proof (run_node_Ok_inv allowed_function_ids torch_namespace n s r' s' Hip Hrun)
    as (kw & k & kw' & p & s0 & _ & Hp & Hg & He).
  apply purify_same_op in Hp.
  set (s2 := set_env _ s') in Hfg.
  pose proof (keeps_forget (new_graph s')
                (λ y, y ≠ name n ∧ env s !! y = None)
                (last_uses n later) s2) as Hk.
  rewrite Hfg in Hk. destruct Hk as [Hg3 He3].
  { split; [done|]. intros y [Hy1 Hy2]. unfold s2. cbn.
    rewrite lookup_insert_ne by done. by apply He. }
  cbn [snd] in *. rewrite Hg3. split; [|split].
  - destruct Hg as [[-> Hk]|(a' & kw'' & _ & ->)].
    + assert (placeholders [n] = []) as ->; [|by rewrite app_nil_r].
      unfold placeholders, placeholder_target. cbn.
      destruct Hp as [->|(f & f' & -> & ->)]; [|done].
      destruct (kind n); try done. by destruct (Hk target).
    + cbn [appended new_graph nodes]. rewrite placeholders_snoc. f_equal.
      unfold placeholders. cbn [omap list_omap].
      destruct n as [x kn an kwn mn].
      by rewrite (same_op_placeholder_target kn k x an kwn mn).
  - by destruct Hg as [[-> _]|(a' & kw'' & _ & ->)].
  - intros y Hy1 Hy2. by apply He3.
Qed.

(** The loop of the interpreter emits the placeholders of the source, in
    order. *)
Lemma run_placeholders l s res s' :
  insert_point (new_graph s) = None →
  NoDup (map name l) → output_last l = true →
  (∀ n, n ∈ l → env s !! name n = None) →
  run allowed_function_ids torch_namespace l s = (Ok res, s') →
  placeholders (nodes (new_graph s'))
  = placeholders (nodes (new_graph s)) ++ placeholders l
  ∧ insert_point (new_graph s') = None.
Proof.
  revert s. induction l as [|n later IH]; intros s Hip Hnd Hol Henv Hrun.
  { injection Hrun as _ <-. by rewrite app_nil_r. }
  cbn [run] in Hrun. rewrite bind_unfold in Hrun. cbn [gets] in Hrun.
  rewrite bool_decide_false in Hrun.
  2:{ rewrite (Henv n) by left. by intros [? ?]. }
  apply bind_Ok_inv in Hrun as (r & s1 & Hstep & Hrun).
  apply step_Ok_inv in Hstep as (Hph & Hip1 & He1); [|done].
  apply output_last_cons in Hol as [Hol Hout].
  cbn [map] in Hnd. apply NoDup_cons in Hnd as [Hn Hnd].
  destruct (is_output n) eqn:Ho.
  - injection Hrun as _ <-. rewrite (Hout eq_refl). by split.
  - apply IH in Hrun as [Hph' Hip']; try done.
    + split; [|done]. rewrite Hph', Hph, <- app_assoc. f_equal.
      symmetry. apply (placeholders_app [n] later).
    + intros n' Hn'. apply He1.
      * intros Heq. apply Hn. rewrite <- Heq. apply list_elem_of_fmap. eauto.
      * apply Henv. by right.
Qed.

Lemma functionalize_placeholders (w : World) g' w' :
  graph_wf (graph w) →
  functionalize allowed_function_ids torch_namespace w = (Ok g', w') →
  placeholders (nodes g') = placeholders (nodes (graph w)).
Proof.
  intros [Hnd Hol] H. unfold functionalize in H.
  destruct (transform _ _ _) as [rg sf] eqn:Ht. injection H as -> _.
  unfold transform in Ht. rewrite bind_unfold in Ht. cbn [gets world] in Ht.
  apply bind_Ok_inv in Ht as (res & s1 & Hrun & Ht).
  apply run_placeholders in Hrun as [Hph Hip]; try done.
  apply bind_Ok_inv in Ht as ([] & s2 & Hout & Ht). injection Ht as <- _.
  cbn in Hph. rewrite <- Hph.
  assert (new_graph s2 = new_graph s1 ∨ ∃ v, s2 = appended output [v] ∅ s1) as Hs2.
  { destruct res as [[[]| |]|]; try (injection Hout as <-; by left).
    all: apply bind_Ok_inv in Hout as (? & s3 & Hem & Hout);
      rewrite emit_appended in Hem by done; injection Hem as _ <-;
      injection Hout as <-; right; eauto. }
  destruct Hs2 as [->|[v ->]]; [done|].
  cbn. rewrite placeholders_snoc. unfold placeholders at 2. cbn. by rewrite app_nil_r.
Qed.

End FunctionalizationPlaceholders.

(** C6: no pass adds, removes or reorders placeholders.  For the two
    in-place passes this holds of the graph they leave behind on every exit,
    for [Functionalization] of the graph it returns for a source graph whose
    node identities are distinct and whose output comes last. *)
Theorem passes_preserve_placeholders (signature_repr : func → string)
    (allowed_function_ids : func → option string)
    (torch_namespace : string → bool) (w : World) :
  placeholders (nodes (graph (normalize w).2)) = placeholders (nodes (graph w))
  ∧ placeholders (nodes (graph (inplacify signature_repr w).2))
    = placeholders (nodes (graph w))
  ∧ (graph_wf (graph w) →
     ∀ g' w', functionalize allowed_function_ids torch_namespace w = (Ok g', w') →
              placeholders (nodes g') = placeholders (nodes (graph w))).
Proof.
  split; [apply normalize_placeholders|].
  split; [apply inplacify_placeholders|].
  intros Hwf g' w'. by apply functionalize_placeholders.
Qed.

(** ** Functionalization: every node of the new graph *)

Section FunctionalizationGraph.
Variable allowed_function_ids : func → option string.
Variable torch_namespace : string → bool.
Implicit Types (n m : Node) (s : Interp).





End FunctionalizationGraph.

(** ** normalize on the in-place methods *)

(** After [old.replace_all_uses_with(new)] no argument refers to [old]. *)
Lemma arg_nodes_subst (x k : nat) (a : Arg) :
  x ≠ k →
  x ∉ arg_nodes (map_arg (λ y, if decide (y = x) then ANode k else ANode y) a).
Proof.
  intros Hne. revert a. fix IH 1. intros [l|y|xs]; cbn [map_arg arg_nodes].
  - apply not_elem_of_nil.
  - destruct (decide (y = x)) as [->|Hy]; cbn [arg_nodes];
      intros Hin%list_elem_of_singleton; congruence.
  - induction xs as [|a xs IHxs]; cbn [map flat_map]; [apply not_elem_of_nil|].
    rewrite elem_of_app. intros [Ha|Hxs]; [exact (IH a Ha) | exact (IHxs Hxs)].
Qed.

Lemma uses_subst_node (x k : nat) (n : Node) :
  x ≠ k → uses x (subst_node x (ANode k) n) = false.
Proof.
  intros Hne. unfold uses. apply bool_decide_eq_false.
  unfold node_uses, subst_node. cbn [args kwargs].
  rewrite elem_of_app. intros [H|H].
  - apply list_elem_of_In, in_flat_map in H as (a' & Ha' & H).
    apply in_map_iff in Ha' as (a & <- & _).
    apply list_elem_of_In in H. by apply arg_nodes_subst in H.
  - apply list_elem_of_In, in_flat_map in H as (a' & Ha' & H).
    apply list_elem_of_In, list_elem_of_fmap in Ha' as ([key a''] & -> & Hk).
    apply elem_of_map_to_list in Hk. rewrite lookup_fmap in Hk.
    destruct (kwargs n !! key) as [a|]; [|done]. injection Hk as <-.
    apply list_elem_of_In in H. by apply arg_nodes_subst in H.
Qed.

Lemma existsb_uses_subst (x k : nat) (l : list Node) :
  x ≠ k → existsb (uses x) (map (subst_node x (ANode k)) l) = false.
Proof.
  intros Hne. induction l as [|n l IH]; [done|].
  cbn [map existsb]. by rewrite uses_subst_node, IH.
Qed.

Lemma existsb_uses_remove (x y : nat) (l : list Node) :
  existsb (uses x) l = false → existsb (uses x) (remove_node y l) = false.
Proof.
  induction l as [|n l IH]; [done|]. cbn [existsb remove_node].
  intros [Hn Hl]%orb_false_iff. destruct (decide (name n = y)); [done|].
  cbn [existsb]. by rewrite Hn, IH.
Qed.

Section NormalizeInplaceMethods.
Variable allowed_function_ids : func → option string.
Variable torch_namespace : string → bool.


End NormalizeInplaceMethods.

(** ** Instances on the sample graphs *)

(** The whole of [mutation_then_read] functionalized: [exp] reads the node
    of the purified [relu], and nothing is tallied. *)
Example functionalize_mutation_then_read :
  let r := functionalize sample_allowed_function_ids sample_torch_namespace
             (mk_world mutation_then_read ∅) in
  (λ g, map (λ m, (kind m, args m)) (nodes g)) <$> match r.1 with
                                                    | Ok g => Some g
                                                    | Raise _ => None
                                                    end
  = Some [ (placeholder "p", []);
           (call_function (torch_fn "sin"), [ANode 0]);
           (call_function (torch_fn "relu"), [ANode 1]);
           (call_function (torch_fn "exp"), [ANode 2]);
           (output, [ANode 3]) ]
  ∧ counters r.2 = ∅.
Proof. cbv zeta. split; vm_compute; reflexivity. Qed.

(** C3: the witness, [relu_(x); z = exp(x)] after [x = sin(p)]. *)
Lemma functionalization_relu_then_exp_witness :
  env after_sin !! 1 = Some (ANode 1) ∧
  ∃ s1 s2,
    step sample_allowed_function_ids sample_torch_namespace
      (mk_node 2 (call_function (torch_fn "relu_")) [ANode 1] ∅ tensor_meta)
      [ mk_node 3 (call_function (torch_fn "exp")) [ANode 1] ∅ tensor_meta;
        mk_node 4 output [ANode 3] ∅ tensor_meta ] after_sin
    = (Ok (ANode 2), s1)
    ∧ env s1 !! 1 = Some (ANode 2)
    ∧ step sample_allowed_function_ids sample_torch_namespace
        (mk_node 3 (call_function (torch_fn "exp")) [ANode 1] ∅ tensor_meta)
        [ mk_node 4 output [ANode 3] ∅ tensor_meta ] s1
      = (Ok (ANode 3), s2)
    ∧ nodes (new_graph s2) =
        nodes (new_graph after_sin) ++
        [ {| name := 2; kind := call_function (torch_fn "relu"); args := [ANode 1];
             kwargs := ∅; meta := no_meta |};
          {| name := 3; kind := call_function (torch_fn "exp"); args := [ANode 2];
             kwargs := ∅; meta := no_meta |} ].
Proof.
  split; [reflexivity|].
  apply (functionalization_relu_then_exp sample_allowed_function_ids
           sample_torch_namespace after_sin 1 (ANode 1)
           (mk_node 2 (call_function (torch_fn "relu_")) [ANode 1] ∅ tensor_meta)
           (mk_node 3 (call_function (torch_fn "exp")) [ANode 1] ∅ tensor_meta)
           [ mk_node 4 output [ANode 3] ∅ tensor_meta ] Tensor Tensor);
    reflexivity.
Defined.

(** C3, as stated, fails when [relu_(x)] is marked as an input mutation:
    the call is re-emitted as [torch.relu_] and [exp] reads the node bound
    to the original [x]. *)
Lemma functionalize_keeps_relu_on_input :
  let r := functionalize sample_allowed_function_ids sample_torch_namespace
             (mk_world mutation_of_input ∅) in
  (λ g, map (λ m, (kind m, args m)) (nodes g))
    <$> match r.1 with Ok g => Some g | Raise _ => None end
  = Some [ (placeholder "x", []);
           (call_function (torch_fn "relu_"), [ANode 0]);
           (call_function (torch_fn "exp"), [ANode 0]);
           (output, [ANode 2]) ].
Proof. cbv zeta. vm_compute. reflexivity. Qed.



(** C9: the witness, [relu(x, inplace=False)] on a call result. *)
Lemma functionalization_inplace_false_witness :
  kwargs (relu_inplace false) !! "inplace" = Some (ALit (LBool false)) ∧
  run_node sample_allowed_function_ids sample_torch_namespace
    (relu_inplace false) after_sin =
    (Ok (ANode 2),
     appended (call_function (F "relu")) [ANode 1]
       (delete "inplace" {[ "inplace" := ALit (LBool false) ]}) after_sin)
  ∧ env (run_node sample_allowed_function_ids sample_torch_namespace
           (relu_inplace false) after_sin).2 = env after_sin
  ∧ world (run_node sample_allowed_function_ids sample_torch_namespace
             (relu_inplace false) after_sin).2 = world after_sin.
Proof.
  split; [reflexivity|].
  apply (functionalization_inplace_false sample_allowed_function_ids
           sample_torch_namespace (relu_inplace false) after_sin Tensor
           [ANode 1] {[ "inplace" := ALit (LBool false) ]});
    reflexivity.
Defined.

(** C6: the witness, the three passes on [mutation_then_read]. *)
Lemma passes_preserve_placeholders_witness :
  graph_wf (graph (mk_world mutation_then_read ∅)) ∧
  placeholders
    (nodes (graph (normalize (mk_world mutation_then_read ∅)).2)) = ["p"]
  ∧ placeholders
      (nodes (graph (inplacify sample_signature_repr
                       (mk_world mutation_then_read ∅)).2)) = ["p"]
  ∧ match functionalize sample_allowed_function_ids sample_torch_namespace
            (mk_world mutation_then_read ∅) with
    | (Ok g', _) => placeholders (nodes g') = ["p"]
    | (Raise _, _) => False
    end.
Proof.
  assert (graph_wf (graph (mk_world mutation_then_read ∅))) as Hwf.
  { split; [|reflexivity]. apply (bool_decide_unpack _). vm_compute. exact I. }
  split; [exact Hwf|].
  destruct (passes_preserve_placeholders sample_signature_repr
              sample_allowed_function_ids sample_torch_namespace
              (mk_world mutation_then_read ∅)) as (H1 & H2 & H3).
  split; [exact H1|]. split; [exact H2|].
  destruct (functionalize _ _ _) as [[g'|e] w'] eqn:E.
  - exact (H3 Hwf g' w' eq_refl).
  - vm_compute in E. discriminate E.
Defined.


(** * Further properties *)

(** ** Functionalization: the branches of run_node *)

Lemma map_kwargs_opt_is_Some f (k kw : gmap string Arg) key a :
  map_kwargs_opt f k = Some kw → k !! key = Some a → is_Some (map_arg_opt f a).
Proof.
  unfold map_kwargs_opt. case_bool_decide as H; [|done]. intros _ Hk.
  by apply (H key a).
Qed.

Section FunctionalizationBranches.
Variable allowed_function_ids : func → option string.
Variable torch_namespace : string → bool.
Implicit Types (n : Node) (s : Interp).

Lemma purifiable_input_mutation n s :
  m_is_input_mutation (meta n) = Some true → purifiable n s = (Ok false, s).
Proof. intros Him. unfold purifiable. rewrite Him, bind_unfold. reflexivity. Qed.

Lemma purifiable_nontensor n s ty :
  m_is_input_mutation (meta n) = Some false →
  m_type (meta n) = Some ty → issubclass_Tensor ty = false →
  purifiable n s = (Ok false, s).
Proof.
  intros Him Hty Hsub. unfold purifiable.
  rewrite Him, bind_unfold. cbn [from_option ret].
  rewrite Hty, bind_unfold. cbn [from_option ret]. by rewrite Hsub.
Qed.

Lemma reemitted_not_getattr k a ms :
  reemitted k a ms = true → is_builtins_getattr k = false.
Proof. destruct k; try done. cbn. by destruct (bool_decide _). Qed.

(** X1: for a node that is tensor-producing, not an input mutation, and
    carries an [out] keyword naming the node [y] (and no [inplace]
    keyword), [run_node] emits the same call with the resolved arguments
    and without [out], and rebinds [y] in the environment to the emitted
    node: later readers of the output buffer read the result. *)
Theorem functionalization_out_keyword (n : Node) (s : Interp) (ty : pytype)
    (y : nat) (a : list Arg) (kw : gmap string Arg) :
  m_is_input_mutation (meta n) = Some false →
  m_type (meta n) = Some ty → issubclass_Tensor ty = true →
  kwargs n !! "inplace" = None →
  kwargs n !! "out" = Some (ANode y) →
  map_args_opt (λ x, env s !! x) (args n) = Some a →
  map_kwargs_opt (λ x, env s !! x) (kwargs n) = Some kw →
  insert_point (new_graph s) = None →
  reemitted (kind n) a (submodules (world s)) = true →
  run_node allowed_function_ids torch_namespace n s =
    (Ok (ANode (next_name (new_graph s))),
     set_env (<[y := ANode (next_name (new_graph s))]> (env s))
       (appended (kind n) a (delete "out" kw) s)).
Proof.
  intros Him Hty Hsub Hin Hout Ha Hkw Hip Hre.
  unfold run_node. rewrite bind_unfold.
  rewrite (fetch_args_kwargs_from_env_ok n s a kw Ha Hkw).
  rewrite bind_unfold. unfold purify.
  rewrite bind_unfold, (purifiable_true n s ty Him Hty Hsub), Hin, Hout.
  cbn [ret]. rewrite bind_unfold. unfold fold_getattr.
  rewrite (reemitted_not_getattr _ _ _ Hre).
  rewrite bind_unfold, Hty. cbn [from_option ret].
  rewrite bind_unfold, Hsub. cbn [ret].
  rewrite bind_unfold, (dispatch_reemitted _ _ _ _ Hip Hre).
  rewrite bind_unfold. cbn [apply_patches].
  rewrite bind_unfold. cbn [gets appended env].
  rewrite bind_unfold, bool_decide_true.
  2:{ apply (map_kwargs_opt_is_Some _ _ _ _ _ Hkw Hout). }
  cbn [modify]. reflexivity.
Qed.

(** X2: for a node that is tensor-producing, not an input mutation, and
    carries [inplace=True], [run_node] emits the same call with the
    resolved arguments and without the [inplace] keyword, and rebinds the
    first positional argument [x] in the environment to the emitted node. *)
Theorem functionalization_inplace_true (n : Node) (s : Interp) (ty : pytype)
    (x : nat) (a : list Arg) (kw : gmap string Arg) :
  m_is_input_mutation (meta n) = Some false →
  m_type (meta n) = Some ty → issubclass_Tensor ty = true →
  kwargs n !! "inplace" = Some (ALit (LBool true)) →
  args n !! 0 = Some (ANode x) →
  map_args_opt (λ x, env s !! x) (args n) = Some a →
  map_kwargs_opt (λ x, env s !! x) (kwargs n) = Some kw →
  insert_point (new_graph s) = None →
  reemitted (kind n) a (submodules (world s)) = true →
  run_node allowed_function_ids torch_namespace n s =
    (Ok (ANode (next_name (new_graph s))),
     set_env (<[x := ANode (next_name (new_graph s))]> (env s))
       (appended (kind n) a (delete "inplace" kw) s)).
Proof.
  intros Him Hty Hsub Hin Hx Ha Hkw Hip Hre.
  assert (is_Some (env s !! x)) as Hbound.
  { destruct (args n) as [|a0 rest] eqn:Hargs; [done|]. injection Hx as ->.
    cbn [map_args_opt map_arg_opt] in Ha. by destruct (env s !! x). }
  unfold run_node. rewrite bind_unfold.
  rewrite (fetch_args_kwargs_from_env_ok n s a kw Ha Hkw).
  rewrite bind_unfold. unfold purify.
  rewrite bind_unfold, (purifiable_true n s ty Him Hty Hsub), Hin.
  rewrite bind_unfold.
  rewrite (map_kwargs_opt_lookup _ _ _ "inplace" Hkw), Hin.
  cbn [mbind option_bind map_arg_opt from_option ret].
  rewrite bind_unfold. cbn [truthy ret]. rewrite bind_unfold.
  unfold first_arg at 1. rewrite bind_unfold, Hx. cbn [from_option ret].
  rewrite bind_unfold. unfold fold_getattr.
  rewrite (reemitted_not_getattr _ _ _ Hre).
  rewrite bind_unfold, Hty. cbn [from_option ret].
  rewrite bind_unfold, Hsub. cbn [ret].
  rewrite bind_unfold, (dispatch_reemitted _ _ _ _ Hip Hre).
  rewrite bind_unfold. cbn [apply_patches].
  rewrite bind_unfold. cbn [gets appended env].
  rewrite bind_unfold, bool_decide_true by done.
  cbn [modify]. reflexivity.
Qed.

(** X3: a tensor-producing node marked as an input mutation is re-emitted
    as it is, with its target and all its keyword arguments ([inplace] and
    [out] included); the environment and the counters are left alone. *)
Theorem functionalization_input_mutation_kept (n : Node) (s : Interp) (ty : pytype)
    (a : list Arg) (kw : gmap string Arg) :
  m_is_input_mutation (meta n) = Some true →
  m_type (meta n) = Some ty → issubclass_Tensor ty = true →
  map_args_opt (λ x, env s !! x) (args n) = Some a →
  map_kwargs_opt (λ x, env s !! x) (kwargs n) = Some kw →
  insert_point (new_graph s) = None →
  reemitted (kind n) a (submodules (world s)) = true →
  run_node allowed_function_ids torch_namespace n s =
    (Ok (ANode (next_name (new_graph s))), appended (kind n) a kw s).
Proof.
  intros Him Hty Hsub Ha Hkw Hip Hre.
  unfold run_node. rewrite bind_unfold.
  rewrite (fetch_args_kwargs_from_env_ok n s a kw Ha Hkw).
  rewrite bind_unfold. unfold purify.
  rewrite bind_unfold, (purifiable_input_mutation n s Him).
  cbn [ret]. rewrite bind_unfold. unfold fold_getattr.
  rewrite (reemitted_not_getattr _ _ _ Hre).
  rewrite bind_unfold, Hty. cbn [from_option ret].
  rewrite bind_unfold, Hsub. cbn [ret].
  rewrite bind_unfold, (dispatch_reemitted _ _ _ _ Hip Hre).
  rewrite bind_unfold. reflexivity.
Qed.

(** X4: a call of a function of [_operator] whose name does not start
    with [i], other than [getitem], [setitem] and [truediv], on a node that
    is tensor-producing and not an input mutation, is re-emitted as the
    call of the function of [torch] of the same name ([bitwise_and] for
    [and_], [bitwise_or] for [or_]) with the same arguments and no patch;
    when [torch] has no such attribute, [run_node] raises [AttributeError]
    and emits nothing.  The entry [truediv -> div] of the renaming table
    cannot be reached. *)
Theorem functionalization_operator_renamed (n : Node) (s : Interp) (ty : pytype)
    (f : func) (a : list Arg) (kw : gmap string Arg) :
  kind n = call_function f →
  f_module f = "_operator" → startswith_i (f_name f) = false →
  f_name f ∉ [ "getitem"; "setitem"; "truediv" ] →
  m_is_input_mutation (meta n) = Some false →
  m_type (meta n) = Some ty → issubclass_Tensor ty = true →
  kwargs n !! "inplace" = None → kwargs n !! "out" = None →
  map_args_opt (λ x, env s !! x) (args n) = Some a →
  map_kwargs_opt (λ x, env s !! x) (kwargs n) = Some kw →
  insert_point (new_graph s) = None →
  let nm := if decide (f_name f = "and_") then "bitwise_and"
            else if decide (f_name f = "or_") then "bitwise_or"
            else f_name f in
  run_node allowed_function_ids torch_namespace n s =
    if torch_namespace nm
    then (Ok (ANode (next_name (new_graph s))),
          appended (call_function (torch_fn nm)) a kw s)
    else (Raise AttributeError, s).
Proof.
  intros Hk Hmod Hi Hex Him Hty Hsub Hin Hout Ha Hkw Hip nm.
  unfold run_node. rewrite bind_unfold.
  rewrite (fetch_args_kwargs_from_env_ok n s a kw Ha Hkw).
  rewrite bind_unfold. unfold purify.
  rewrite bind_unfold, (purifiable_true n s ty Him Hty Hsub), Hin, Hout.
  unfold purify_target. rewrite Hk.
  rewrite decide_False.
  2:{ intros ->. done. }
  rewrite (bool_decide_true (f_module f = "_operator")) by done.
  rewrite Hi. cbn [andb].
  rewrite bool_decide_false.
  2:{ intros Hf. apply Hex. destruct f as [m nm0]. cbn in *.
      rewrite !elem_of_cons in Hf. rewrite !elem_of_cons.
      unfold operator_fn in Hf.
      destruct Hf as [Hf|[Hf|[Hf|Hf]]]; [injection Hf as _ ->; auto ..|].
      by apply elem_of_nil in Hf. }
  cbn [negb].
  rewrite (decide_False (P := f_name f = "truediv")).
  2:{ intros He. apply Hex. rewrite He. set_solver. }
  fold nm. rewrite bind_unfold. unfold torch_getattr.
  destruct (torch_namespace nm); [|reflexivity].
  cbn [ret]. rewrite bind_unfold. unfold fold_getattr. cbn [is_builtins_getattr].
  rewrite bool_decide_false by done.
  rewrite bind_unfold, Hty. cbn [from_option ret].
  rewrite bind_unfold, Hsub. cbn [ret].
  rewrite bind_unfold, (dispatch_reemitted _ _ _ _ Hip) by done.
  rewrite bind_unfold. reflexivity.
Qed.

(** X5: for a function of [_operator] whose name starts with [i] (the
    in-place operators, but also [index], [inv], [invert], [is_]) the
    target is looked up in [torch] under the name without its first
    letter; when [torch] has no such attribute [run_node] raises
    [AttributeError], emits nothing and leaves the state as it was. *)
Theorem functionalization_inplace_operator_missing (n : Node) (s : Interp)
    (ty : pytype) (f : func) (a : list Arg) (kw : gmap string Arg) :
  kind n = call_function f →
  f_module f = "_operator" → startswith_i (f_name f) = true →
  torch_namespace (drop_first (f_name f)) = false →
  m_is_input_mutation (meta n) = Some false →
  m_type (meta n) = Some ty → issubclass_Tensor ty = true →
  kwargs n !! "inplace" = None → kwargs n !! "out" = None →
  map_args_opt (λ x, env s !! x) (args n) = Some a →
  map_kwargs_opt (λ x, env s !! x) (kwargs n) = Some kw →
  run_node allowed_function_ids torch_namespace n s = (Raise AttributeError, s).
Proof.
  intros Hk Hmod Hi Hns Him Hty Hsub Hin Hout Ha Hkw.
  unfold run_node. rewrite bind_unfold.
  rewrite (fetch_args_kwargs_from_env_ok n s a kw Ha Hkw).
  rewrite bind_unfold. unfold purify.
  rewrite bind_unfold, (purifiable_true n s ty Him Hty Hsub), Hin, Hout.
  unfold purify_target. rewrite Hk.
  rewrite decide_False.
  2:{ intros ->. done. }
  rewrite (bool_decide_true (f_module f = "_operator")) by done.
  rewrite Hi. cbn [andb]. rewrite bind_unfold. unfold torch_getattr.
  rewrite Hns. reflexivity.
Qed.

(** X6: a read [getattr(x, "dtype")] or [getattr(x, "device")] that
    produces no tensor is folded: [run_node] returns the value recorded in
    the metadata of the source node [x], emits no node, and leaves the
    environment and the counters as they were. *)
Theorem functionalization_getattr_folded (n src : Node) (s : Interp) (ty : pytype)
    (x : nat) (a : list Arg) (kw : gmap string Arg)
    (attr : string) (field : Meta → option Lit) (v : Lit) :
  kind n = call_function builtins_getattr →
  (attr = "dtype" ∧ field = m_dtype) ∨ (attr = "device" ∧ field = m_device) →
  args n !! 0 = Some (ANode x) →
  a !! 1 = Some (ALit (LStr attr)) →
  find_node x (graph (world s)) = Some src →
  field (meta src) = Some v →
  m_is_input_mutation (meta n) = Some false →
  m_type (meta n) = Some ty → issubclass_Tensor ty = false →
  map_args_opt (λ x, env s !! x) (args n) = Some a →
  map_kwargs_opt (λ x, env s !! x) (kwargs n) = Some kw →
  run_node allowed_function_ids torch_namespace n s = (Ok (ALit v), s).
Proof.
  intros Hk Hattr Hx Ha1 Hsrc Hv Him Hty Hsub Ha Hkw.
  unfold run_node. rewrite bind_unfold.
  rewrite (fetch_args_kwargs_from_env_ok n s a kw Ha Hkw).
  rewrite bind_unfold. unfold purify.
  rewrite bind_unfold, (purifiable_nontensor n s ty Him Hty Hsub).
  cbn [ret]. rewrite bind_unfold. unfold fold_getattr. rewrite Hk.
  cbn [is_builtins_getattr]. rewrite bool_decide_true by done.
  rewrite bind_unfold, Ha1. cbn [from_option ret].
  assert (arg0_meta n field s = (Ok (ALit v), s)) as Hmeta.
  { unfold arg0_meta, first_arg. rewrite bind_unfold, Hx. cbn [from_option ret].
    rewrite bind_unfold. cbn [gets]. rewrite bind_unfold, Hsrc. cbn [from_option ret].
    rewrite bind_unfold, Hv. reflexivity. }
  destruct Hattr as [[-> ->]|[-> ->]].
  - rewrite bind_unfold, Hmeta. reflexivity.
  - rewrite bind_unfold, Hmeta. reflexivity.
Qed.

(** X7: any other attribute read that produces no tensor is re-emitted
    as a [getattr] call and counted once under [counters["getattr"][attr]]
    (and not under [nontensor]). *)
Theorem functionalization_getattr_counted (n : Node) (s : Interp) (ty : pytype)
    (a : list Arg) (kw : gmap string Arg) (attr : string) :
  kind n = call_function builtins_getattr →
  a !! 1 = Some (ALit (LStr attr)) →
  attr ≠ "dtype" → attr ≠ "device" →
  m_is_input_mutation (meta n) = Some false →
  m_type (meta n) = Some ty → issubclass_Tensor ty = false →
  map_args_opt (λ x, env s !! x) (args n) = Some a →
  map_kwargs_opt (λ x, env s !! x) (kwargs n) = Some kw →
  insert_point (new_graph s) = None →
  run_node allowed_function_ids torch_namespace n s =
    (Ok (ANode (next_name (new_graph s))),
     appended (kind n) a kw (with_counter "getattr" attr s)).
Proof.
  intros Hk Ha1 Hnd Hnv Him Hty Hsub Ha Hkw Hip.
  unfold run_node. rewrite bind_unfold.
  rewrite (fetch_args_kwargs_from_env_ok n s a kw Ha Hkw).
  rewrite bind_unfold. unfold purify.
  rewrite bind_unfold, (purifiable_nontensor n s ty Him Hty Hsub).
  cbn [ret]. rewrite bind_unfold. unfold fold_getattr. rewrite Hk.
  cbn [is_builtins_getattr]. rewrite bool_decide_true by done.
  rewrite bind_unfold, Ha1. cbn [from_option ret].
  assert (∀ (X Y Z : M Interp (option Arg)),
            match attr with
            | "dtype" => X | "device" => Y | _ => Z end = Z) as Hm.
  { intros X Y Z.
    repeat (match goal with
            | |- context [match ?x with _ => _ end] => destruct x
            end; try done). }
  rewrite Hm, bind_unfold. cbn [in_world bump_counter modify attr_key ret].
  change ({| world := _; new_graph := new_graph s; env := env s |})
    with (with_counter "getattr" attr s).
  rewrite bind_unfold. cbn [dispatch]. rewrite emit_appended by exact Hip.
  rewrite bind_unfold. reflexivity.
Qed.

(** X8: a function call marked as a mutation that none of the branches
    removes (no [inplace], no [out], not [torch.relu_], not a function of
    [_operator]) is re-emitted unchanged and counted once under
    [counters["mutation"]], keyed by the name of the allowed-function table
    or, failing that, by [module.name]. *)
Theorem functionalization_mutation_tallied (n : Node) (s : Interp) (ty : pytype)
    (f : func) (a : list Arg) (kw : gmap string Arg) :
  kind n = call_function f →
  f ≠ torch_fn "relu_" → f_module f ≠ "_operator" → f ≠ builtins_getattr →
  kwargs n !! "inplace" = None → kwargs n !! "out" = None →
  m_is_input_mutation (meta n) = Some false →
  m_type (meta n) = Some ty → issubclass_Tensor ty = true →
  m_is_mutation (meta n) = Some true →
  map_args_opt (λ x, env s !! x) (args n) = Some a →
  map_kwargs_opt (λ x, env s !! x) (kwargs n) = Some kw →
  insert_point (new_graph s) = None →
  run_node allowed_function_ids torch_namespace n s =
    (Ok (ANode (next_name (new_graph s))),
     appended (call_function f) a kw
       (with_counter "mutation"
          (default (f_module f +:+ "." +:+ f_name f) (allowed_function_ids f)) s)).
Proof.
  intros Hk Hr Ho Hg Hin Hout Him Hty Hsub Hmut Ha Hkw Hip.
  unfold run_node. rewrite bind_unfold.
  rewrite (fetch_args_kwargs_from_env_ok n s a kw Ha Hkw).
  rewrite bind_unfold. unfold purify.
  rewrite bind_unfold, (purifiable_true n s ty Him Hty Hsub), Hin, Hout.
  unfold purify_target. rewrite Hk.
  rewrite decide_False by done.
  rewrite (bool_decide_false (f_module f = "_operator")) by done.
  cbn [andb]. rewrite bind_unfold, Hmut. cbn [from_option ret].
  rewrite bind_unfold.
  assert (tally allowed_function_ids "mutation" n s =
          (Ok tt, with_counter "mutation"
             (default (f_module f +:+ "." +:+ f_name f) (allowed_function_ids f)) s))
    as ->.
  { unfold tally, in_world, long_name, short_name. rewrite Hk.
    rewrite !bind_unfold. reflexivity. }
  cbn [ret]. rewrite bind_unfold.
  unfold fold_getattr. cbn [is_builtins_getattr].
  rewrite bool_decide_false by done.
  rewrite bind_unfold. cbn [with_counter]. rewrite Hty. cbn [from_option ret].
  rewrite bind_unfold, Hsub. cbn [ret].
  rewrite bind_unfold, (dispatch_reemitted _ _ _ _); [| done |].
  2:{ cbn. by rewrite bool_decide_false. }
  rewrite bind_unfold. reflexivity.
Qed.

(** X9: a function call (other than [getattr]) whose result is not a
    tensor is re-emitted unchanged, keywords included, and counted once
    under [counters["nontensor"]]. *)
Theorem functionalization_nontensor_tallied (n : Node) (s : Interp) (ty : pytype)
    (f : func) (a : list Arg) (kw : gmap string Arg) :
  kind n = call_function f → f ≠ builtins_getattr →
  m_is_input_mutation (meta n) = Some false →
  m_type (meta n) = Some ty → issubclass_Tensor ty = false →
  map_args_opt (λ x, env s !! x) (args n) = Some a →
  map_kwargs_opt (λ x, env s !! x) (kwargs n) = Some kw →
  insert_point (new_graph s) = None →
  run_node allowed_function_ids torch_namespace n s =
    (Ok (ANode (next_name (new_graph s))),
     appended (call_function f) a kw
       (with_counter "nontensor"
          (default (f_module f +:+ "." +:+ f_name f) (allowed_function_ids f)) s)).
Proof.
  intros Hk Hg Him Hty Hsub Ha Hkw Hip.
  unfold run_node. rewrite bind_unfold.
  rewrite (fetch_args_kwargs_from_env_ok n s a kw Ha Hkw).
  rewrite bind_unfold. unfold purify.
  rewrite bind_unfold, (purifiable_nontensor n s ty Him Hty Hsub).
  cbn [ret]. rewrite bind_unfold. unfold fold_getattr. rewrite Hk.
  cbn [is_builtins_getattr]. rewrite bool_decide_false by done.
  rewrite bind_unfold, Hty. cbn [from_option ret].
  rewrite bind_unfold, Hsub.
  assert (tally allowed_function_ids "nontensor" n s =
          (Ok tt, with_counter "nontensor"
             (default (f_module f +:+ "." +:+ f_name f) (allowed_function_ids f)) s))
    as ->.
  { unfold tally, in_world, long_name, short_name. rewrite Hk.
    rewrite !bind_unfold. reflexivity. }
  cbn [ret]. rewrite bind_unfold, (dispatch_reemitted _ _ _ _); [| done |].
  2:{ cbn. by rewrite bool_decide_false. }
  rewrite bind_unfold. reflexivity.
Qed.

(** X10: on a placeholder whose recorded type is not a tensor type,
    [run_node] raises [AssertionError]: the tally under [nontensor] asks
    [long_name] for a name, and [short_name] has no case for placeholders.
    Nothing is emitted and the state is as before. *)
Theorem functionalization_nontensor_placeholder (n : Node) (s : Interp)
    (t : string) (ty : pytype) (im : bool) (a : list Arg) (kw : gmap string Arg) :
  kind n = placeholder t →
  m_is_input_mutation (meta n) = Some im →
  m_type (meta n) = Some ty → issubclass_Tensor ty = false →
  map_args_opt (λ x, env s !! x) (args n) = Some a →
  map_kwargs_opt (λ x, env s !! x) (kwargs n) = Some kw →
  run_node allowed_function_ids torch_namespace n s = (Raise AssertionError, s).
Proof.
  intros Hk Him Hty Hsub Ha Hkw.
  unfold run_node. rewrite bind_unfold.
  rewrite (fetch_args_kwargs_from_env_ok n s a kw Ha Hkw).
  rewrite bind_unfold. unfold purify. rewrite bind_unfold.
  assert (purifiable n s = (Ok false, s)) as ->.
  { destruct im; [by apply purifiable_input_mutation
                 | by apply (purifiable_nontensor n s ty)]. }
  cbn [ret]. rewrite bind_unfold.
  unfold fold_getattr. rewrite Hk. cbn [is_builtins_getattr].
  rewrite bind_unfold, Hty. cbn [from_option ret].
  rewrite bind_unfold, Hsub.
  unfold tally, in_world, long_name, short_name. rewrite Hk.
  rewrite !bind_unfold. cbn [raise]. by destruct s.
Qed.

End FunctionalizationBranches.

(** ** Functionalization: what it leaves alone *)

Lemma short_name_pure n w : (short_name n w).2 = w.
Proof.
  unfold short_name. destruct (kind n); try reflexivity.
  rewrite bind_unfold. unfold get_submodule. rewrite bind_unfold. cbn [gets].
  by destruct (submodules w !! target).
Qed.

Section FunctionalizationInvariants.
Variable allowed_function_ids : func → option string.
Variable torch_namespace : string → bool.
Implicit Types (n : Node) (s : Interp) (P : Interp → Prop).

Lemma long_name_pure n w : (long_name allowed_function_ids n w).2 = w.
Proof.
  unfold long_name. rewrite bind_unfold.
  pose proof (short_name_pure n w) as Hs.
  destruct (short_name n w) as [[nm|e] w1]; cbn [snd] in Hs; subst w1; [|done].
  destruct (kind n); try reflexivity.
  rewrite bind_unfold. unfold get_submodule. rewrite bind_unfold. cbn [gets].
  by destruct (submodules w !! target).
Qed.

Lemma keeps_tally_frame P group n :
  interp_frame P → keeps P (tally allowed_function_ids group n).
Proof.
  intros (Hb & _) s Hs. unfold tally, in_world. rewrite bind_unfold.
  pose proof (long_name_pure n (world s)) as Hl.
  destruct (long_name allowed_function_ids n (world s)) as [[key|e] w1];
    cbn [snd] in Hl; subst w1.
  - apply (Hb group key s Hs).
  - cbn. by destruct s.
Qed.

Lemma keeps_purify_target_frame P n kw :
  interp_frame P →
  keeps P (purify_target allowed_function_ids torch_namespace n kw).
Proof.
  intros HP.
  assert (keeps P (mut ← from_option KeyError (m_is_mutation (meta n));
                   (if (mut : bool) then tally allowed_function_ids "mutation" n
                    else ret tt);;
                   ret (kind n, kw, @nil Arg))) as Hun.
  { apply keeps_bind; [apply keeps_from_option|]. intros mut.
    apply keeps_bind; [|intros _; apply keeps_ret].
    destruct mut; [by apply keeps_tally_frame | apply keeps_ret]. }
  unfold purify_target. destruct (kind n) as [| |target| | |]; try exact Hun.
  destruct (decide _).
  { apply keeps_bind; [apply keeps_first_arg|]. intros a0. apply keeps_ret. }
  destruct (_ && _).
  { apply keeps_bind; [apply keeps_torch_getattr|]. intros t.
    apply keeps_bind; [apply keeps_first_arg|]. intros a0. apply keeps_ret. }
  destruct (_ && _); [|exact Hun].
  apply keeps_bind; [apply keeps_torch_getattr|]. intros t. apply keeps_ret.
Qed.

Lemma keeps_purify_frame P n kw :
  interp_frame P → keeps P (purify allowed_function_ids torch_namespace n kw).
Proof.
  intros HP. unfold purify. apply keeps_bind; [apply keeps_purifiable|].
  intros []; [|apply keeps_ret].
  destruct (kwargs n !! "inplace").
  { apply keeps_bind; [apply keeps_from_option|]. intros v.
    apply keeps_bind; [apply keeps_truthy|]. intros b.
    apply keeps_bind; [|intros p; apply keeps_ret].
    destruct b; [|apply keeps_ret].
    apply keeps_bind; [apply keeps_first_arg|]. intros a0. apply keeps_ret. }
  destruct (kwargs n !! "out"); [apply keeps_ret|].
  by apply keeps_purify_target_frame.
Qed.

Lemma keeps_fold_getattr_frame P n k a :
  interp_frame P → keeps P (fold_getattr allowed_function_ids n k a).
Proof.
  intros HP. unfold fold_getattr. destruct (is_builtins_getattr k).
  - apply keeps_bind; [apply keeps_from_option|]. intros a1.
    assert (keeps P (in_world (bump_counter "getattr" (attr_key a1));;
                     ret (@None Arg))) as Hother.
    { apply keeps_bind; [apply HP | intros _; apply keeps_ret]. }
    destruct a1 as [[]| |]; try exact Hother; try apply keeps_raise.
    repeat (match goal with
            | |- context [match ?x with _ => _ end] => destruct x
            end; try exact Hother);
    (apply keeps_bind; [apply keeps_arg0_meta | intros v; apply keeps_ret]).
  - apply keeps_bind; [apply keeps_from_option|]. intros ty.
    apply keeps_bind; [|intros _; apply keeps_ret].
    destruct (issubclass_Tensor ty); [apply keeps_ret | by apply keeps_tally_frame].
Qed.

Lemma keeps_fetch_args_kwargs_from_env P n : keeps P (fetch_args_kwargs_from_env n).
Proof.
  unfold fetch_args_kwargs_from_env. apply keeps_bind; [apply keeps_gets|]. intros e.
  apply keeps_bind; [apply keeps_from_option|]. intros a.
  apply keeps_bind; [apply keeps_from_option|]. intros kw. apply keeps_ret.
Qed.

Lemma keeps_dispatch_frame P k a kw :
  interp_frame P → keeps P (dispatch k a kw).
Proof.
  intros (_ & He & _). destruct k as [t|t|f|t|t|]; cbn [dispatch].
  - by apply He.
  - by apply He.
  - by apply He.
  - destruct a as [|[] ?]; try apply keeps_raise. by apply He.
  - apply keeps_bind; [apply keeps_gets|]. intros ms.
    destruct (ms !! t); [by apply He | apply keeps_raise].
  - apply keeps_from_option.
Qed.

Lemma keeps_apply_patches_frame P patches r :
  interp_frame P → keeps P (apply_patches patches r).
Proof.
  intros (_ & _ & Hp).
  induction patches as [|[| x |] rest IH]; cbn [apply_patches];
    try apply keeps_raise; [apply keeps_ret|].
  intros s Hs. rewrite bind_unfold. cbn [gets].
  rewrite bind_unfold. case_bool_decide as Hx; cbn [modify ret].
  - apply IH. by apply Hp.
  - by apply IH.
Qed.

Lemma keeps_run_node_frame P n :
  interp_frame P → keeps P (run_node allowed_function_ids torch_namespace n).
Proof.
  intros HP. unfold run_node.
  apply keeps_bind; [apply keeps_fetch_args_kwargs_from_env|]. intros [a kw].
  apply keeps_bind; [by apply keeps_purify_frame|]. intros [[k kw'] patches].
  apply keeps_bind; [by apply keeps_fold_getattr_frame|]. intros [v|].
  { apply keeps_ret. }
  apply keeps_bind; [by apply keeps_dispatch_frame|]. intros r.
  apply keeps_bind; [by apply keeps_apply_patches_frame|]. intros _.
  apply keeps_ret.
Qed.

Lemma keeps_forget_frame P xs : env_blind P → keeps P (forget xs).
Proof.
  intros HP. induction xs as [|x xs IH]; cbn [forget]; [apply keeps_ret|].
  intros s Hs. rewrite bind_unfold. cbn [gets].
  destruct (env s !! x); [|done].
  rewrite bind_unfold. cbn [modify]. apply IH. by apply HP.
Qed.

Lemma keeps_step_frame P n later :
  interp_frame P → env_blind P →
  keeps P (step allowed_function_ids torch_namespace n later).
Proof.
  intros HP He. unfold step.
  apply keeps_bind; [by apply keeps_run_node_frame|]. intros r.
  apply keeps_bind; [apply leads_modify; intros s Hs; by apply He|]. intros _.
  apply keeps_bind; [by apply keeps_forget_frame|]. intros _. apply keeps_ret.
Qed.

Lemma keeps_run_frame P l :
  interp_frame P → env_blind P →
  keeps P (run allowed_function_ids torch_namespace l).
Proof.
  intros HP He. induction l as [|n later IH]; cbn [run]; [apply keeps_ret|].
  apply keeps_bind; [apply keeps_gets|]. intros e.
  destruct (bool_decide _); [exact IH|].
  apply keeps_bind; [by apply keeps_step_frame|]. intros r.
  destruct (is_output n); [apply keeps_ret | exact IH].
Qed.

Lemma source_is_frame w0 : interp_frame (source_is w0) ∧ env_blind (source_is w0).
Proof.
  split; [split; [|split]|].
  - intros group key s Hs. exact Hs.
  - intros k a kw _ s Hs. unfold emit.
    destruct (create_node _ _ _ _ _). exact Hs.
  - intros s x r Hs _. exact Hs.
  - intros s e Hs. exact Hs.
Qed.

(** X13: on every exit path, [Functionalization] leaves the source graph,
    the sub-modules and the standard output as they were: of the world it
    only writes the counters. *)
Theorem functionalize_source_untouched (w : World) :
  let w' := (functionalize allowed_function_ids torch_namespace w).2 in
  graph w' = graph w ∧ submodules w' = submodules w ∧ stdout w' = stdout w.
Proof.
  cbv zeta. unfold functionalize.
  set (s0 := {| world := w; new_graph := empty_graph; env := ∅ |}).
  destruct (source_is_frame w) as [HP He].
  assert (keeps (source_is w) (transform allowed_function_ids torch_namespace)) as Hk.
  { unfold transform. apply keeps_bind; [apply keeps_gets|]. intros g.
    apply keeps_bind; [by apply keeps_run_frame|]. intros res.
    apply keeps_bind; [|intros _; apply keeps_gets].
    assert (∀ v, keeps (source_is w) (emit output [v] ∅;; ret tt)) as Hem.
    { intros v. apply keeps_bind; [|intros _; apply keeps_ret].
      intros s Hs. unfold emit. destruct (create_node _ _ _ _ _). exact Hs. }
    destruct res as [[[]| |]|]; try apply keeps_ret; apply Hem. }
  specialize (Hk s0). destruct (transform _ _ s0) as [r s1]. by apply Hk.
Qed.

(** X12: on every exit path, [run_node] leaves the set of bound nodes of
    the environment as it was: a patch overwrites the binding of a node
    that is bound and never binds one that is not. *)
Theorem run_node_env_domain (n : Node) (s : Interp) :
  dom (env (run_node allowed_function_ids torch_namespace n s).2) = dom (env s).
Proof.
  apply (keeps_run_node_frame (λ s0, dom (env s0) = dom (env s)) n); [|done].
  split; [|split].
  - intros group key s0 Hs. exact Hs.
  - intros k a kw _ s0 Hs. unfold emit. destruct (create_node _ _ _ _ _). exact Hs.
  - intros s0 x r Hs Hx. cbn. rewrite dom_insert_L, <- Hs.
    apply subseteq_union_1_L, singleton_subseteq_l, elem_of_dom. exact Hx.
Qed.

Lemma no_output_frame : interp_frame no_output ∧ env_blind no_output.
Proof.
  split; [split; [|split]|].
  - intros group key s Hs. exact Hs.
  - intros k a kw Hk s [Hip Hs]. rewrite emit_appended by done.
    split; [done|]. cbn. apply Forall_app. split; [done|].
    apply Forall_singleton. unfold is_output. cbn. by destruct k.
  - intros s x r Hs _. exact Hs.
  - intros s e Hs. exact Hs.
Qed.

(** X14: the graph [Functionalization] returns holds at most one [output]
    node, and it is the last node. *)
Theorem functionalize_output_last (w : World) (g' : Graph) (w' : World) :
  functionalize allowed_function_ids torch_namespace w = (Ok g', w') →
  ∃ l, (nodes g' = l ∨ ∃ o, nodes g' = l ++ [o] ∧ is_output o = true)
       ∧ Forall (λ m, is_output m = false) l.
Proof.
  unfold functionalize.
  set (s0 := {| world := w; new_graph := empty_graph; env := ∅ |}).
  destruct (transform _ _ s0) as [r sf] eqn:Ht. intros [= -> _].
  unfold transform in Ht. rewrite bind_unfold in Ht. cbn [gets] in Ht.
  apply bind_Ok_inv in Ht as (res & s1 & Hrun & Ht).
  destruct no_output_frame as [HP He].
  pose proof (keeps_run_frame no_output (nodes (graph (world s0))) HP He s0) as Hk.
  rewrite Hrun in Hk. destruct Hk as [Hip Hk]; [by split|]. cbn [snd] in *.
  apply bind_Ok_inv in Ht as ([] & s2 & Hout & Ht). injection Ht as <- _.
  exists (nodes (new_graph s1)). split; [|done].
  destruct res as [[[]| |]|];
    try (injection Hout as <-; by left);
    apply bind_Ok_inv in Hout as (? & s3 & Hem & Hout);
    rewrite emit_appended in Hem by done; injection Hem as _ <-;
    injection Hout as <-; right; eauto.
Qed.

(** X11: a node without the [is_input_mutation] entry in its metadata
    (or, not being an input mutation, without the [type] entry) makes
    [run_node] raise [KeyError] before anything is emitted or counted. *)
Theorem functionalization_missing_meta (n : Node) (s : Interp)
    (a : list Arg) (kw : gmap string Arg) :
  m_is_input_mutation (meta n) = None
  ∨ (m_is_input_mutation (meta n) = Some false ∧ m_type (meta n) = None) →
  map_args_opt (λ x, env s !! x) (args n) = Some a →
  map_kwargs_opt (λ x, env s !! x) (kwargs n) = Some kw →
  run_node allowed_function_ids torch_namespace n s = (Raise KeyError, s).
Proof.
  intros Hm Ha Hkw. unfold run_node. rewrite bind_unfold.
  rewrite (fetch_args_kwargs_from_env_ok n s a kw Ha Hkw).
  rewrite bind_unfold. unfold purify. rewrite bind_unfold. unfold purifiable.
  destruct Hm as [Him|[Him Hty]]; rewrite Him, bind_unfold; [reflexivity|].
  cbn [from_option ret]. rewrite Hty, bind_unfold. reflexivity.
Qed.

End FunctionalizationInvariants.

(** ** Lists of nodes under a replacement *)

Lemma find_node_elem x g n : find_node x g = Some n → n ∈ nodes g.
Proof.
  unfold find_node. intros H. apply find_some in H as [H _].
  by apply list_elem_of_In.
Qed.

Lemma find_split x (l : list Node) node :
  find (λ n, bool_decide (name n = x)) l = Some node →
  ∃ l1 l2, l = l1 ++ node :: l2 ∧ Forall (λ n, name n ≠ x) l1 ∧ name node = x.
Proof.
  induction l as [|n l IH]; [done|]. cbn [find].
  case_bool_decide as Hn.
  - intros [= <-]. exists [], l. by split.
  - intros Hf. destruct (IH Hf) as (l1 & l2 & -> & Hl1 & Hx).
    exists (n :: l1), l2. split; [done|]. split; [|done]. by apply Forall_cons.
Qed.

Lemma insert_before_split x new (l : list Node) nx l2 :
  Forall (λ n, name n ≠ x) l → name nx = x →
  insert_before x new (l ++ nx :: l2) = l ++ new :: nx :: l2.
Proof.
  intros Hl Hx. induction l as [|n l IH]; cbn [insert_before app].
  - by rewrite decide_True.
  - apply Forall_cons in Hl as [Hn Hl]. rewrite decide_False by done.
    by rewrite IH.
Qed.

Lemma remove_node_split x (l : list Node) nx l2 :
  Forall (λ n, name n ≠ x) l → name nx = x →
  remove_node x (l ++ nx :: l2) = l ++ l2.
Proof.
  intros Hl Hx. induction l as [|n l IH]; cbn [remove_node app].
  - by rewrite decide_True.
  - apply Forall_cons in Hl as [Hn Hl]. rewrite decide_False by done.
    by rewrite IH.
Qed.

(** The graph after such a replacement, node by node. *)
Lemma replaced_nodes x k new (l1 l2 : list Node) node :
  Forall (λ n, name n ≠ x) l1 → name node = x → name new = k → k ≠ x →
  remove_node x (map (subst_node x (ANode k)) (insert_before x new (l1 ++ node :: l2)))
  = map (subst_node x (ANode k)) (l1 ++ new :: l2).
Proof.
  intros Hl1 Hx Hk Hne.
  rewrite insert_before_split by done.
  rewrite !map_app. cbn [map].
  assert (∀ (a : list Node) b c, a ++ b :: c = (a ++ [b]) ++ c) as Hassoc.
  { intros a b c. by rewrite <- app_assoc. }
  rewrite Hassoc.
  rewrite remove_node_split; [by rewrite <- Hassoc| |done].
  apply Forall_app. split.
  - apply Forall_fmap. by apply (Forall_impl _ _ _ Hl1).
  - apply Forall_singleton. cbn. congruence.
Qed.

Lemma map_name_subst x a (l : list Node) :
  map name (map (subst_node x a) l) = map name l.
Proof. induction l as [|n l IH]; [done|]. cbn [map]. by rewrite IH. Qed.

Lemma map_kind_subst {A} (f : NodeKind → A) x a (l : list Node) :
  map (λ n, f (kind n)) (map (subst_node x a) l) = map (λ n, f (kind n)) l.
Proof. induction l as [|n l IH]; [done|]. cbn [map]. by rewrite IH. Qed.

Lemma NoDup_replace (l1 l2 : list nat) x k :
  NoDup (l1 ++ x :: l2) → k ∉ l1 → k ∉ l2 → NoDup (l1 ++ k :: l2).
Proof.
  rewrite !NoDup_app, !NoDup_cons. intros (H1 & H2 & H3 & H4) Hk1 Hk2.
  split; [done|]. split; [|done].
  intros y Hy. rewrite elem_of_cons. intros [->|Hy2]; [done|].
  apply (H2 y Hy). by right.
Qed.

(** ** expand_module_call: exits and splicing *)

Lemma keeps_expand_nodes_created (P : World → Prop) prefix args0 sub i vars :
  (∀ k a kw m, spliced prefix k → keeps P (graph_create_node k a kw m)) →
  keeps P (expand_nodes prefix args0 sub i vars).
Proof.
  intros HP. revert i vars.
  induction sub as [|node rest IH]; intros i vars; cbn [expand_nodes].
  { apply keeps_raise. }
  assert (∀ k, kind node = k → spliced prefix k →
               keeps P (x ← node_copy node vars;
                        expand_nodes prefix args0 rest i (<[name node := ANode x]> vars)))
    as Hcopy.
  { intros k Hk Hs. apply keeps_bind; [|intros x; apply IH].
    unfold node_copy.
    apply keeps_bind; [apply keeps_from_option|]. intros a.
    apply keeps_bind; [apply keeps_from_option|]. intros kw.
    rewrite Hk. by apply HP. }
  destruct (kind node) as [t|t|f|t|t|] eqn:Hk.
  - apply keeps_bind; [apply keeps_from_option|]. intros v. apply IH.
  - apply keeps_bind; [|intros x; apply IH]. apply HP. cbn. eauto.
  - by apply (Hcopy (call_function f)).
  - by apply (Hcopy (call_method t)).
  - by apply (Hcopy (call_module t)).
  - destruct (args node) as [|a [|]]; try apply keeps_raise.
    apply keeps_from_option.
Qed.

(** What the guarded body of [expand_module_call] can change is the graph. *)
Lemma expand_body_frame (ms : gmap string Module) (c : gmap (string * string) nat)
    (so : list string) prefix args0 (kwargs0 : gmap string Arg) module :
  keeps (λ w, submodules w = ms ∧ counters w = c ∧ stdout w = so)
    ((if bool_decide (kwargs0 = ∅) then ret tt else raise AssertionError);;
     m ← get_submodule module;
     sub ← lift_result (traced m);
     expand_nodes prefix args0 sub 0 ∅).
Proof.
  apply keeps_bind.
  { apply keeps_if; [apply keeps_ret | apply keeps_raise]. }
  intros _. apply keeps_bind; [apply keeps_get_submodule|]. intros m.
  apply keeps_bind; [apply keeps_lift_result|]. intros sub.
  apply keeps_expand_nodes_created.
  intros k a kw m0 _ w Hw. unfold graph_create_node.
  destruct (create_node k a kw m0 (graph w)). exact Hw.
Qed.

Lemma set_dict_item_stub module (m : Module) w :
  submodules w !! module = Some m →
  set_dict_item module "_check_input_dim" always_true w
  = (Ok tt, set_submodules (<[module := with_stub m]> (submodules w)) w).
Proof.
  intros Hm. unfold set_dict_item, modify. do 2 f_equal.
  apply map_eq. intros i. destruct (decide (module = i)) as [<-|Hne].
  - by rewrite lookup_alter_eq, Hm, lookup_insert_eq.
  - by rewrite lookup_alter_ne, lookup_insert_ne.
Qed.

Lemma del_dict_item_stub module (m : Module) w ms :
  submodules w = <[module := with_stub m]> ms →
  del_dict_item module "_check_input_dim" w
  = (Ok tt, set_submodules (<[module := without_stub m]> ms) w).
Proof.
  intros Hms. unfold del_dict_item. rewrite bind_unfold.
  unfold get_submodule. rewrite bind_unfold. cbn [gets].
  rewrite Hms, lookup_insert_eq. cbn [from_option ret inst_dict with_stub].
  rewrite lookup_insert_eq. unfold modify. do 2 f_equal. rewrite Hms.
  apply map_eq. intros i. destruct (decide (module = i)) as [<-|Hne].
  - rewrite lookup_alter_eq, !lookup_insert_eq. cbn. unfold without_stub.
    by rewrite delete_insert_eq.
  - by rewrite lookup_alter_ne, !lookup_insert_ne.
Qed.

(** [expand_module_call] in terms of its guarded body, run on the world
    with the stub installed. *)
Lemma expand_module_call_unfold (prefix module : string)
    (args0 : list Arg) (kwargs0 : gmap string Arg) (w : World) (m : Module) :
  submodules w !! module = Some m →
  expand_module_call prefix module args0 kwargs0 w =
  match ((if bool_decide (kwargs0 = ∅) then ret tt else raise AssertionError);;
         m ← get_submodule module;
         sub ← lift_result (traced m);
         expand_nodes prefix args0 sub 0 ∅)
          (set_submodules (<[module := with_stub m]> (submodules w)) w) with
  | (r, w2) =>
      (r, {| graph := graph w2;
             submodules := <[module := without_stub m]> (submodules w);
             counters := counters w;
             stdout := match r with
                       | Ok _ => stdout w
                       | Raise _ =>
                           stdout w ++ ["Error while expanding " +:+ class_name m]
                       end |})
  end.
Proof.
  intros Hm. unfold expand_module_call.
  rewrite bind_unfold, (set_dict_item_stub module m w Hm).
  set (w1 := set_submodules _ w).
  pose proof (expand_body_frame _ (counters w) (stdout w) prefix args0 kwargs0
                module w1 (conj eq_refl (conj eq_refl eq_refl))) as Hb.
  match goal with
  | |- context [try_except_reraise ?b _] => set (body := b) in *
  end.
  unfold try_finally, try_except_reraise.
  destruct (body w1) as [[v|e] w2]; cbn [snd] in Hb; destruct Hb as (Hms & Hc & Hso);
    unfold w1 in Hms; cbn [submodules set_submodules] in Hms.
  - rewrite (del_dict_item_stub module m w2 (submodules w)) by exact Hms.
    unfold set_submodules. by rewrite Hc, Hso.
  - rewrite bind_unfold. unfold get_submodule at 1. rewrite bind_unfold. cbn [gets].
    rewrite Hms, lookup_insert_eq. cbn [from_option ret print modify].
    rewrite (del_dict_item_stub module m _ (submodules w)) by exact Hms.
    unfold set_submodules. cbn. by rewrite Hc, Hso.
Qed.

(** X15: [expand_module_call] never touches the counters; when it
    returns it has printed nothing, and when it raises it has printed
    exactly one line, [Error while expanding] followed by the class name of
    the module. *)
Theorem expand_module_call_diagnostic (prefix module : string)
    (args0 : list Arg) (kwargs0 : gmap string Arg) (w : World) (m : Module) :
  submodules w !! module = Some m →
  let r := expand_module_call prefix module args0 kwargs0 w in
  counters r.2 = counters w
  ∧ stdout r.2 = match r.1 with
                 | Ok _ => stdout w
                 | Raise _ => stdout w ++ ["Error while expanding " +:+ class_name m]
                 end.
Proof.
  intros Hm r. subst r.
  rewrite (expand_module_call_unfold prefix module args0 kwargs0 w m Hm).
  match goal with
  | |- context [match ?x with pair _ _ => _ end] => destruct x as [[v|e] w2]
  end; done.
Qed.

(** X16: with keyword arguments [expand_module_call] raises
    [AssertionError], and when tracing the module raises it re-raises that
    exception; in both cases the graph is untouched, the diagnostic is
    printed and the stub is removed from the instance. *)
Theorem expand_module_call_refused (prefix module : string)
    (args0 : list Arg) (kwargs0 : gmap string Arg) (w : World) (m : Module)
    (e : exn) :
  submodules w !! module = Some m →
  (kwargs0 ≠ ∅ ∧ e = AssertionError) ∨ (kwargs0 = ∅ ∧ traced m = Raise e) →
  expand_module_call prefix module args0 kwargs0 w =
    (Raise e,
     {| graph := graph w;
        submodules := <[module := without_stub m]> (submodules w);
        counters := counters w;
        stdout := stdout w ++ ["Error while expanding " +:+ class_name m] |}).
Proof.
  intros Hm He.
  rewrite (expand_module_call_unfold prefix module args0 kwargs0 w m Hm).
  set (w1 := set_submodules _ w).
  rewrite bind_unfold. destruct He as [[Hk ->]|[Hk Ht]].
  - by rewrite bool_decide_false.
  - rewrite bool_decide_true by done. cbn [ret].
    rewrite bind_unfold. unfold get_submodule. rewrite bind_unfold. cbn [gets].
    unfold w1 at 1. cbn [submodules set_submodules].
    rewrite lookup_insert_eq. cbn [from_option ret].
    rewrite bind_unfold. cbn [traced with_stub lift_result]. by rewrite Ht.
Qed.

Lemma spliced_before_create prefix n0 l1 nx l2 news k a kw m w :
  Forall (λ n, name n ≠ name nx) l1 → (name nx < n0)%nat →
  spliced prefix k →
  spliced_before prefix n0 l1 nx l2 news (graph w) →
  ∃ news', spliced_before prefix n0 l1 nx l2 news'
             (graph (graph_create_node k a kw m w).2).
Proof.
  intros Hl1 Hx Hk (Hn & Hnames & Hkinds & Hnext & Hip).
  set (new := {| name := next_name (graph w); kind := k; args := a;
                 kwargs := kw; meta := m |}).
  exists (news ++ [new]). unfold graph_create_node, create_node, spliced_before.
  cbn. rewrite Hip, Hn. split; [|split; [|split; [|split]]].
  - rewrite app_assoc, insert_before_split; [by rewrite <- !app_assoc | | done].
    apply Forall_app. split; [done|].
    apply Forall_forall. intros n Hin Heq.
    assert (name n ∈ map name news) as Hin'.
    { apply list_elem_of_fmap. eauto. }
    rewrite Hnames in Hin'. apply elem_of_seq in Hin'. lia.
  - rewrite map_app, length_app, Hnames. cbn [map length].
    rewrite Nat.add_1_r, seq_S. unfold new. cbn [name]. by rewrite Hnext.
  - apply Forall_app. split; [done|]. by apply Forall_singleton.
  - rewrite length_app. cbn. lia.
  - done.
Qed.

(** X17: on every exit path, the graph after [expand_module_call] is the
    graph before it with a block of new nodes spliced in right before the
    insertion point: the nodes that were there are unchanged and in order,
    the new nodes carry consecutive fresh identities, and each is a call
    copied from the traced module or an attribute read whose target starts
    with the prefix (never a placeholder or an output). *)
Theorem expand_module_call_splices (prefix module : string)
    (args0 : list Arg) (kwargs0 : gmap string Arg) (w : World)
    (l1 : list Node) (nx : Node) (l2 : list Node) :
  nodes (graph w) = l1 ++ nx :: l2 →
  insert_point (graph w) = Some (name nx) →
  Forall (λ n, name n ≠ name nx) l1 →
  (name nx < next_name (graph w))%nat →
  ∃ news,
    spliced_before prefix (next_name (graph w)) l1 nx l2 news
      (graph (expand_module_call prefix module args0 kwargs0 w).2).
Proof.
  intros Hn Hip Hl1 Hx.
  set (P := λ w' : World,
         ∃ news, spliced_before prefix (next_name (graph w)) l1 nx l2 news (graph w')).
  assert (graph_only P) as HG.
  { intros w1 w2 Hg [news H]. exists news. by rewrite Hg. }
  assert (keeps P (expand_module_call prefix module args0 kwargs0)) as Hk.
  { unfold expand_module_call.
    apply keeps_bind; [by apply keeps_set_dict_item|]. intros _.
    apply (leads_try_finally P P P); [|by apply keeps_del_dict_item].
    apply keeps_try_except_reraise.
    - apply keeps_bind.
      { apply keeps_if; [apply keeps_ret | apply keeps_raise]. }
      intros _. apply keeps_bind; [apply keeps_get_submodule|]. intros m.
      apply keeps_bind; [apply keeps_lift_result|]. intros sub.
      apply keeps_expand_nodes_created.
      intros k a kw m0 Hs w' [news H].
      by apply (spliced_before_create prefix _ l1 nx l2 news).
    - apply keeps_bind; [apply keeps_get_submodule|]. intros m.
      apply leads_modify. intros w'. by apply HG. }
  apply Hk. exists []. unfold spliced_before. cbn. rewrite Nat.add_0_r. done.
Qed.

(** ** Inplacifier: what a run can change *)

Section FixedNodes.
Variable keep : NodeKind → bool.
Implicit Types (l : list Node) (L : list (nat * NodeKind)).

Lemma fixed_nodes_app l1 l2 :
  fixed_nodes keep (l1 ++ l2) = fixed_nodes keep l1 ++ fixed_nodes keep l2.
Proof. apply omap_app. Qed.

Lemma fixed_nodes_cons n l :
  fixed_nodes keep (n :: l) =
  (if keep (kind n) then [(name n, kind n)] else []) ++ fixed_nodes keep l.
Proof. unfold fixed_nodes. cbn [omap list_omap]. by destruct (keep (kind n)). Qed.

Lemma fixed_nodes_insert_before anchor new l :
  keep (kind new) = false →
  fixed_nodes keep (insert_before anchor new l) = fixed_nodes keep l.
Proof.
  intros Hn. induction l as [|n l IH]; cbn [insert_before].
  - rewrite fixed_nodes_cons. by rewrite Hn.
  - destruct (decide (name n = anchor)).
    + rewrite (fixed_nodes_cons new). by rewrite Hn.
    + by rewrite !fixed_nodes_cons, IH.
Qed.

Lemma fixed_nodes_subst old new l :
  fixed_nodes keep (map (subst_node old new) l) = fixed_nodes keep l.
Proof.
  induction l as [|n l IH]; [done|].
  cbn [map]. by rewrite !fixed_nodes_cons, IH.
Qed.

Lemma loose_cons x n l :
  loose keep x (n :: l) →
  (name n = x → keep (kind n) = false) ∧ (name n ≠ x → loose keep x l).
Proof.
  intros H. split.
  - intros Hx. apply H. cbn. by rewrite bool_decide_true.
  - intros Hx n' Hf. apply H. cbn. by rewrite bool_decide_false.
Qed.

Lemma loose_insert_before x anchor new l :
  keep (kind new) = false → loose keep x l →
  loose keep x (insert_before anchor new l).
Proof.
  intros Hn. induction l as [|n l IH]; intros Hl; cbn [insert_before].
  - intros n'. cbn. case_bool_decide; [|done]. by intros [= <-].
  - destruct (decide (name n = anchor)).
    + intros n'. cbn [find]. case_bool_decide; [by intros [= <-]|]. apply Hl.
    + apply loose_cons in Hl as [Hl1 Hl2].
      intros n'. cbn [find]. case_bool_decide; [intros [= <-]; auto|].
      apply IH; auto.
Qed.

Lemma loose_app x new l :
  keep (kind new) = false → loose keep x l → loose keep x (l ++ [new]).
Proof.
  intros Hn. induction l as [|n l IH]; intros Hl; cbn [app].
  - intros n'. cbn. case_bool_decide; [|done]. by intros [= <-].
  - apply loose_cons in Hl as [Hl1 Hl2].
    intros n'. cbn [find]. case_bool_decide; [intros [= <-]; auto|].
    apply IH; auto.
Qed.

Lemma loose_subst x old new l :
  loose keep x l → loose keep x (map (subst_node old new) l).
Proof.
  induction l as [|n l IH]; intros Hl; [done|].
  apply loose_cons in Hl as [Hl1 Hl2].
  intros n'. cbn [map find name subst_node].
  case_bool_decide; [intros [= <-]; auto|]. apply IH; auto.
Qed.

Lemma fixed_nodes_remove_node x l :
  loose keep x l → fixed_nodes keep (remove_node x l) = fixed_nodes keep l.
Proof.
  induction l as [|n l IH]; intros Hl; [done|].
  apply loose_cons in Hl as [Hl1 Hl2]. cbn [remove_node].
  destruct (decide (name n = x)) as [Hx|Hx].
  - rewrite fixed_nodes_cons. by rewrite Hl1.
  - by rewrite !fixed_nodes_cons, IH by auto.
Qed.

Lemma keeps_create_loosening x L k a kw m :
  keep k = false → keeps (loosening keep x L) (graph_create_node k a kw m).
Proof.
  intros Hk w [Hw1 Hw2]. unfold graph_create_node, loosening.
  pose proof (create_node_nodes k a kw m (graph w)) as Hn.
  destruct (create_node k a kw m (graph w)) as [y g]. cbn in *.
  rewrite Hn. destruct (insert_point (graph w)); split.
  - by rewrite fixed_nodes_insert_before.
  - by apply loose_insert_before.
  - rewrite fixed_nodes_app, fixed_nodes_cons. cbn. rewrite Hk. cbn.
    by rewrite app_nil_r.
  - by apply loose_app.
Qed.

Lemma keeps_replace_loosening x L old new :
  keeps (loosening keep x L) (graph_replace_all_uses_with old new).
Proof.
  apply keeps_replace_all_uses_with. intros w [Hw1 Hw2].
  split; cbn [graph set_graph nodes replace_all_uses_with].
  - by rewrite fixed_nodes_subst.
  - by apply loose_subst.
Qed.

Lemma leads_erase_loosening x L :
  leads (loosening keep x L) (graph_erase_node x) (fixed_are keep L).
Proof.
  intros w [Hw1 Hw2]. unfold graph_erase_node, erase_node, fixed_are.
  destruct (existsb (uses x) (nodes (graph w)));
    cbn [snd graph set_graph nodes]; [done|].
  by rewrite fixed_nodes_remove_node.
Qed.

Lemma leads_reissue_loosening L node target kw :
  keep (call_function target) = false →
  leads (loosening keep (name node) L) (reissue node target kw) (fixed_are keep L).
Proof.
  intros Hk. unfold reissue. apply (leads_bind _ (loosening keep (name node) L)).
  - intros w Hw. unfold inserting_before.
    apply (leads_try_finally (loosening keep (name node) L)
             (loosening keep (name node) L) (loosening keep (name node) L)).
    + apply keeps_bind; [by apply keeps_create_loosening|]. intros new.
      apply keeps_replace_loosening.
    + by apply leads_modify.
    + exact Hw.
  - intros _. apply leads_erase_loosening.
  - by intros w [H _].
Qed.

End FixedNodes.

Section InplacifierInvariants.
Variable signature_repr : func → string.

(** The shape of [rewrite_node]: a state predicate that holds before and
    survives the counter update is carried to the end by the two rewrites. *)
Lemma leads_rewrite_node_shape (P P1 R : World → Prop) node c :
  (∀ w, P w → R w) →
  (∀ key w, key = "inplace" ∨ key = "out" → P w →
            P1 (set_counters (bump "optimizations" key (counters w)) w)) →
  (∀ target kw, kind node = call_function target →
                rewritable signature_repr (kind node) = true →
                leads P1 (reissue node target kw) R) →
  leads P (rewrite_node signature_repr node c) R.
Proof.
  intros HPR Hbump Hre. unfold rewrite_node.
  assert (∀ o : Outcome, leads P (ret o) R) as Hret.
  { intros o. apply leads_of_keeps; [apply keeps_ret | done]. }
  destruct (kind node) as [| |target| | |] eqn:Hk; try apply Hret.
  destruct (_ =? _)%nat; [|apply Hret].
  apply (leads_bind _ P); [| |done].
  { unfold sole_argument. destruct (args node); [apply keeps_raise | apply keeps_ret]. }
  intros [ | a | ]; try apply Hret.
  apply (leads_bind _ P); [apply keeps_from_option | |done].
  intros u. destruct (usage_is_zero u); [|apply Hret].
  destruct (SKIP_INPLACE target) eqn:Hs; [apply Hret|].
  assert (∀ key kw, key = "inplace" ∨ key = "out" →
            rewritable signature_repr (call_function target) = true →
            leads P (bump_counter "optimizations" key;;
                     reissue node target kw;; ret Rewritten) R) as Hgo.
  { intros key kw Hkey Hrw w Hw. rewrite bind_unfold. cbn [bump_counter modify].
    apply (leads_bind P1 R R (reissue node target kw) (λ _, ret Rewritten));
      [by apply Hre | intros _; apply keeps_ret | done |].
    by apply Hbump. }
  destruct (has_inplace_variant target) eqn:Hi.
  { apply Hgo; [by left|]. cbn. by rewrite Hs, Hi. }
  destruct (accepts_out signature_repr target) eqn:Ho; [|apply Hret].
  apply Hgo; [by right|]. cbn. by rewrite Hs, Hi, Ho.
Qed.

Lemma leads_inplacify_shape (I : World → Prop) :
  (∀ x node c, leads (λ w, I w ∧ find_node x (graph w) = Some node)
                     (rewrite_node signature_repr node c) I) →
  keeps I (inplacify signature_repr).
Proof.
  intros Hrw.
  assert (∀ x c, keeps I (inplacify_node signature_repr x c)) as Hnode.
  { intros x c w Hw. unfold inplacify_node. rewrite bind_unfold. cbn [gets].
    destruct (find_node x (graph w)) as [node|] eqn:Hf; [|exact Hw].
    assert (I w ∧ find_node x (graph w) = Some node) as Hpre by done.
    revert Hpre. generalize w. clear -Hrw.
    apply (leads_bind _ I); [apply Hrw | | done].
    intros []; try apply keeps_ret. apply keeps_record_usages. }
  assert (∀ xs c, keeps I (inplacify_nodes signature_repr xs c)) as Hnodes.
  { intros xs. induction xs as [|x xs IH]; intros c; cbn [inplacify_nodes].
    - apply keeps_ret.
    - apply keeps_bind; [apply Hnode | intros c'; apply IH]. }
  unfold inplacify. apply keeps_bind; [apply keeps_gets|]. intros g.
  apply keeps_bind; [apply keeps_alias_nodes|]. intros counts.
  apply keeps_bind; [apply keeps_gets|]. intros g'.
  apply keeps_bind; [apply Hnodes|]. intros _. apply keeps_ret.
Qed.

(** X18: on every exit path, [inplacify] has neither removed nor added
    nor reordered any node other than calls of functions that are outside
    [SKIP_INPLACE] and have an in-place variant or accept an output buffer:
    the identities and kinds of all other nodes (calls of [math],
    [builtins] and [operator] functions, method and module calls,
    attributes, placeholders, outputs) are the same list. *)
Theorem inplacify_only_rewritable (w : World) :
  let keep := λ k, negb (rewritable signature_repr k) in
  fixed_nodes keep (nodes (graph (inplacify signature_repr w).2))
  = fixed_nodes keep (nodes (graph w)).
Proof.
  intros keep.
  apply (leads_inplacify_shape
           (fixed_are keep (fixed_nodes keep (nodes (graph w))))); [|done].
  intros x node c.
  set (L := fixed_nodes keep (nodes (graph w))).
  destruct (rewritable signature_repr (kind node)) eqn:Hrw.
  - apply (leads_weaken (loosening keep (name node) L) _ (fixed_are keep L)
             (fixed_are keep L)); [| |done].
    + apply (leads_rewrite_node_shape _ (loosening keep (name node) L)).
      * by intros w' [H _].
      * intros key w' _ Hw'. exact Hw'.
      * intros target kw Hk _. apply leads_reissue_loosening.
        unfold keep. by rewrite <- Hk, Hrw.
    + intros w' [Hw' Hf]. split; [exact Hw'|].
      rewrite (find_node_name _ _ _ Hf). intros n' Hf'.
      unfold find_node in Hf. rewrite Hf in Hf'. injection Hf' as <-.
      unfold keep. by rewrite Hrw.
  - apply (leads_weaken (fixed_are keep L) _ (fixed_are keep L) (fixed_are keep L));
      [| by intros w' [H _] | done].
    apply (leads_rewrite_node_shape _ (fixed_are keep L)); [done| |].
    + intros key w' _ Hw'. exact Hw'.
    + intros target kw _ Hc. congruence.
Qed.

Lemma optimizations_bump key c :
  key = "inplace" ∨ key = "out" →
  optimizations (bump "optimizations" key c) = S (optimizations c).
Proof.
  unfold optimizations. intros [-> | ->].
  - rewrite bump_lookup, bump_lookup_ne by done. cbn. lia.
  - rewrite bump_lookup, bump_lookup_ne by done. cbn. lia.
Qed.

Lemma counted_graph pending w0 w g :
  next_name g = next_name (graph w) →
  counted pending w0 w → counted pending w0 (set_graph g w).
Proof. intros Hg (H1 & H2). split; [|done]. cbn. by rewrite Hg. Qed.

Lemma leads_reissue_counted w0 node target kw :
  leads (counted 1 w0) (reissue node target kw) (counted 0 w0).
Proof.
  unfold reissue. apply (leads_bind _ (counted 0 w0)); [| |done].
  - intros w Hw. unfold inserting_before.
    apply (leads_try_finally (counted 1 w0) (counted 0 w0) (counted 0 w0)).
    + apply (leads_bind _ (counted 0 w0)); [| |done].
      * intros w' (H1 & H2). unfold graph_create_node, create_node.
        cbn [snd]. split; [cbn; lia|exact H2].
      * intros new. apply keeps_replace_all_uses_with.
        intros w' Hw'. by apply counted_graph.
    + apply leads_modify. intros w' Hw'. by apply counted_graph.
    + by apply counted_graph.
  - intros _ w Hw. unfold graph_erase_node.
    destruct (erase_node _ _) as [g|e] eqn:He; [|exact Hw].
    apply counted_graph; [|exact Hw].
    unfold erase_node in He. destruct (existsb _ _); [done|]. by injection He as <-.
Qed.

(** X19: on every exit path of [inplacify], the sum of
    [counters["optimizations"]["inplace"]] and
    [counters["optimizations"]["out"]] has grown by exactly the number of
    nodes created; the other counters, the sub-modules and the standard
    output are as they were. *)
Theorem inplacify_counts_rewrites (w : World) :
  counted 0 w (inplacify signature_repr w).2.
Proof.
  apply (leads_inplacify_shape (counted 0 w)).
  2:{ split; [lia|done]. }
  intros x node c.
  apply (leads_weaken (counted 0 w) _ (counted 0 w) (counted 0 w));
    [| by intros w' [H _] | done].
  apply (leads_rewrite_node_shape _ (counted 1 w)); [done| |].
  - intros key w' Hkey (H1 & H2 & H3 & H4). split; [|split; [|split]]; try done.
    + cbn. rewrite (optimizations_bump key) by done. lia.
    + intros k' Hk1 Hk2. cbn. rewrite bump_lookup_ne; [by apply H4|].
      destruct Hkey as [-> | ->]; done.
  - intros target kw _ _. apply leads_reissue_counted.
Qed.

Lemma has_inplace_variant_plain h :
  has_inplace_variant h = true →
  SKIP_INPLACE h = false ∧ view_name (f_name h) = false.
Proof.
  unfold has_inplace_variant. intros H%bool_decide_eq_true.
  unfold INPLACE_OPS in H. rewrite !elem_of_cons in H.
  repeat (destruct H as [-> | H]; [by vm_compute|]).
  by apply elem_of_nil in H.
Qed.

Lemma fork_alias (f h g : func) m0 m1 m2 m3 m4 w :
  view_name (f_name f) = false → view_name (f_name h) = false →
  view_name (f_name g) = false →
  alias_nodes (fork f h g m0 m1 m2 m3 m4) counts_empty w =
  (Ok (counts_fresh 4 Inf (counts_fresh 3 (Count 0) (counts_fresh 2 (Count 0)
        (counts_fresh 1 (Count 0) (counts_fresh 0 Inf counts_empty))))), w).
Proof.
  intros Hf Hh Hg. unfold fork.
  rewrite alias_nodes_cons, alias_node_other by done.
  rewrite alias_nodes_cons, (alias_node_call_function _ f) by done.
  rewrite alias_nodes_cons, (alias_node_call_function _ h) by done.
  rewrite alias_nodes_cons, (alias_node_call_function _ g) by done.
  rewrite alias_nodes_cons, alias_node_other by done.
  reflexivity.
Qed.

(** The two [continue] branches. *)
Lemma rewrite_node_skipped n g a c w :
  kind n = call_function g → args n = [ANode a] →
  delete "inplace" (kwargs n) = ∅ →
  counts_usages a c = Some (Count 0) →
  SKIP_INPLACE g = true
  ∨ (has_inplace_variant g = false ∧ accepts_out signature_repr g = false) →
  rewrite_node signature_repr n c w = (Ok Skipped, w).
Proof.
  intros Hk Ha Hkw Hu Hskip.
  rewrite (rewrite_node_candidate signature_repr n g a) by done.
  destruct Hskip as [-> | [-> ->]]; [done|]. by destruct (SKIP_INPLACE g).
Qed.

(** X20: a candidate that is skipped does not count as a reader.  For
    [x = f(p); y = h(x); z = g(x); output((y, z))], with [h] a function
    that has an in-place variant and [g] a function the second loop skips
    (it is in [SKIP_INPLACE], or it has neither an in-place variant nor an
    output parameter), [inplacify] reissues [h(x)] with [inplace=True]
    although [z = g(x)] reads [x] afterwards: the [continue] of the skipped
    call bypasses [record_usage]. *)
Theorem inplacify_ignores_skipped_reader (f h g : func) (m0 m1 m2 m3 m4 : Meta)
    (ms : gmap string Module) (c : gmap (string * string) nat) (so : list string) :
  view_name (f_name f) = false →
  view_name (f_name g) = false →
  has_inplace_variant h = true →
  SKIP_INPLACE g = true
  ∨ (has_inplace_variant g = false ∧ accepts_out signature_repr g = false) →
  inplacify signature_repr
    {| graph := mk_graph (fork f h g m0 m1 m2 m3 m4);
       submodules := ms; counters := c; stdout := so |} =
    (Ok tt,
     {| graph := fork_reissued f h g m0 m1 m3 m4;
        submodules := ms;
        counters := bump "optimizations" "inplace" c;
        stdout := so |}).
Proof.
  intros Hf Hg Hh Hskip.
  destruct (has_inplace_variant_plain h Hh) as [Hhs Hhv].
  unfold inplacify.
  rewrite bind_unfold; cbn [gets graph mk_graph nodes].
  rewrite bind_unfold, fork_alias by done.
  rewrite bind_unfold; cbn [gets graph nodes mk_graph].
  rewrite bind_unfold.
  change (rev (map name (fork f h g m0 m1 m2 m3 m4))) with [4; 3; 2; 1; 0].
  rewrite inplacify_nodes_cons.
  match goal with
  | |- context [inplacify_node ?s ?x ?c ?w] =>
      let r := eval vm_compute in (inplacify_node s x c w) in
      replace (inplacify_node s x c w) with r by (vm_compute; reflexivity)
  end.
  rewrite inplacify_nodes_cons.
  erewrite inplacify_node_found by (vm_compute; reflexivity).
  erewrite (rewrite_node_skipped _ g 1);
    [| reflexivity | reflexivity | vm_compute; reflexivity
     | vm_compute; reflexivity | done ].
  rewrite inplacify_nodes_cons.
  erewrite inplacify_node_found by (vm_compute; reflexivity).
  erewrite (rewrite_node_inplace _ _ h 1);
    [| reflexivity | reflexivity | vm_compute; reflexivity
     | vm_compute; reflexivity | done | done ].
  cbn [counters set_counters graph submodules stdout].
  generalize (bump "optimizations" "inplace" c). intros c'.
  vm_compute. reflexivity.
Qed.

End InplacifierInvariants.

(** ** Inplacifier: graph inputs *)

Lemma stored_cons n l :
  stored (n :: l) = (if is_call n then [] else [name n]) ++ stored l.
Proof. unfold stored. cbn [omap list_omap]. by destruct (is_call n). Qed.

Lemma elem_of_stored y l :
  y ∈ stored l ↔ ∃ p, p ∈ l ∧ name p = y ∧ is_call p = false.
Proof.
  unfold stored. rewrite list_elem_of_omap. split.
  - intros (p & Hp & H). exists p. destruct (is_call p); [done|].
    injection H as <-. done.
  - intros (p & Hp & <- & Hc). exists p. by rewrite Hc.
Qed.

Lemma live_forever_fresh S x u c :
  x ∉ S → live_forever S c → live_forever S (counts_fresh x u c).
Proof.
  intros Hx Hc y Hy. destruct (Hc y Hy) as [H1 H2].
  assert (x ≠ y) by (intros ->; done).
  unfold counts_fresh. cbn. by rewrite !lookup_insert_ne.
Qed.

Lemma alias_node_live S node c w c' w' :
  name node ∉ S → live_forever S c →
  alias_node node c w = (Ok c', w') →
  live_forever (S ++ stored [node]) c'.
Proof.
  intros Hx Hc. unfold alias_node. rewrite stored_cons.
  change (stored []) with (@nil nat). rewrite app_nil_r.
  assert (∀ a c1 w0 w1, counts_alias (name node) a c w0 = (Ok c1, w1) →
                        live_forever S c1) as Halias.
  { intros a c1 w0 w1. destruct a as [|y|]; try done. cbn [counts_alias].
    intros H. apply bind_Ok_inv in H as (cell & w2 & _ & H). injection H as <- _.
    intros y' Hy'. destruct (Hc y' Hy') as [H1 H2].
    assert (name node ≠ y') by (intros Heq; by rewrite Heq in Hx).
    cbn. by rewrite lookup_insert_ne. }
  destruct (is_call node).
  - rewrite app_nil_r.
    intros H. apply bind_Ok_inv in H as (v & w1 & _ & H). destruct v.
    + destruct (args node); [done|]. by apply Halias in H.
    + destruct (kwargs node !! "out"); [by apply Halias in H|].
      injection H as <- _. by apply live_forever_fresh.
  - intros [= <- _]. intros y Hy.
    apply elem_of_app in Hy as [Hy|Hy].
    + by apply (live_forever_fresh S).
    + apply list_elem_of_singleton in Hy as ->.
      unfold counts_fresh. cbn. by rewrite !lookup_insert_eq.
Qed.

Lemma alias_nodes_live l S c w c' w' :
  NoDup (map name l) → (∀ m, m ∈ l → name m ∉ S) → live_forever S c →
  alias_nodes l c w = (Ok c', w') →
  live_forever (S ++ stored l) c'.
Proof.
  revert S c w. induction l as [|node l IH]; intros S c w Hnd Hl Hc H.
  { injection H as <- _. cbn. by rewrite app_nil_r. }
  cbn [alias_nodes] in H. apply bind_Ok_inv in H as (c1 & w1 & H1 & H).
  cbn [map] in Hnd. apply NoDup_cons in Hnd as [Hn Hnd].
  apply alias_node_live with (S := S) in H1; [| apply Hl; by left | done].
  apply (IH (S ++ stored [node])) in H; [|done| |done].
  - rewrite stored_cons, app_assoc.
    rewrite stored_cons in H. change (stored []) with (@nil nat) in H.
    rewrite app_nil_r in H. exact H.
  - intros m Hm. rewrite elem_of_app. intros [Hin|Hin].
    + apply (Hl m); [by right|done].
    + rewrite stored_cons in Hin. change (stored []) with (@nil nat) in Hin.
      rewrite app_nil_r in Hin.
      destruct (is_call node); [by apply elem_of_nil in Hin|].
      apply list_elem_of_singleton in Hin. apply Hn. rewrite <- Hin.
      apply list_elem_of_fmap. eauto.
Qed.

Lemma record_usages_live S ys c w :
  live_forever S c →
  (record_usages ys c w).2 = w
  ∧ ∀ c', (record_usages ys c w).1 = Ok c' → live_forever S c'.
Proof.
  revert c. induction ys as [|y ys IH]; intros c Hc; cbn [record_usages].
  { split; [done|]. by intros c' [= <-]. }
  rewrite bind_unfold. unfold record_usage. rewrite bind_unfold.
  destruct (cell_of c !! y) as [cell|]; [|done]. cbn [from_option ret].
  rewrite bind_unfold. destruct (usages c !! cell) as [u|] eqn:Hu; [|done].
  cbn [from_option ret]. apply IH.
  intros y' Hy'. destruct (Hc y' Hy') as [H1 H2]. cbn. split; [done|].
  destruct (decide (cell = y')) as [->|Hne].
  - rewrite lookup_insert_eq. rewrite H2 in Hu. by injection Hu as <-.
  - by rewrite lookup_insert_ne.
Qed.

Section InplacifierInputs.
Variable signature_repr : func → string.

(** A node whose first argument lives in a stored buffer is no candidate. *)
Lemma rewrite_node_spares_reader S n c w :
  live_forever S c → Forall (λ y, y ∈ S) (node_uses n) →
  (rewrite_node signature_repr n c w).2 = w.
Proof.
  intros Hc Hn. unfold rewrite_node.
  destruct (kind n); try done. destruct (_ =? _)%nat; [|done].
  rewrite bind_unfold. unfold sole_argument.
  destruct (args n) as [|[|a|] rest] eqn:Ha; try done.
  cbn [ret]. rewrite bind_unfold.
  assert (a ∈ S) as Ha'.
  { rewrite Forall_forall in Hn. apply Hn. unfold node_uses. rewrite Ha.
    cbn. by left. }
  destruct (Hc a Ha') as [H1 H2]. unfold counts_usages.
  rewrite H1. cbn. rewrite H2. reflexivity.
Qed.

(** The rewrite, when the identity of the node is not the next fresh one. *)
Lemma reissue_replaces node target kw w :
  name node ≠ next_name (graph w) →
  reissue node target kw w =
    (Ok tt,
     set_graph
       {| nodes :=
            remove_node (name node)
              (map (subst_node (name node) (ANode (next_name (graph w))))
                 (insert_before (name node)
                    {| name := next_name (graph w); kind := call_function target;
                       args := args node; kwargs := kw; meta := no_meta |}
                    (nodes (graph w))));
          next_name := S (next_name (graph w));
          insert_point := insert_point (graph w) |} w).
Proof.
  intros Hx. unfold reissue. rewrite bind_unfold.
  unfold inserting_before, try_finally.
  rewrite bind_unfold. unfold graph_create_node at 1.
  cbn [create_node graph set_graph set_insert_point insert_point nodes next_name].
  unfold graph_replace_all_uses_with. rewrite bind_unfold. cbn [modify].
  rewrite bind_unfold. cbn [gets graph set_graph replace_all_uses_with nodes].
  rewrite existsb_uses_subst by done. cbn [ret modify].
  unfold graph_erase_node, erase_node.
  cbn [graph set_graph replace_all_uses_with nodes set_insert_point].
  rewrite existsb_uses_subst by done.
  cbn [graph set_graph nodes next_name insert_point set_insert_point
       replace_all_uses_with]. reflexivity.
Qed.

Lemma arg_subst_unused x new (a : Arg) :
  x ∉ arg_nodes a → map_arg (λ y, if decide (y = x) then new else ANode y) a = a.
Proof.
  revert a. fix IH 1. intros [l|y|xs]; cbn [map_arg arg_nodes]; intros Hx.
  - done.
  - rewrite decide_False; [done|]. intros ->. apply Hx. by left.
  - f_equal. induction xs as [|a xs IHxs]; [done|].
    cbn [map flat_map] in *. rewrite elem_of_app in Hx. f_equal.
    + apply IH. tauto.
    + apply IHxs. tauto.
Qed.

Lemma subst_node_unused x new n :
  x ∉ node_uses n → subst_node x new n = n.
Proof.
  intros Hx. unfold node_uses in Hx. rewrite elem_of_app in Hx.
  destruct n as [nm k a kw m]. unfold subst_node. cbn [name kind args kwargs meta] in *.
  f_equal.
  - induction a as [|a0 a IH]; [done|].
    cbn [map flat_map] in *. rewrite elem_of_app in Hx. f_equal.
    + apply arg_subst_unused. tauto.
    + apply IH. tauto.
  - apply map_eq. intros key. rewrite lookup_fmap.
    destruct (kw !! key) as [v|] eqn:Hv; [|done]. cbn. f_equal.
    apply arg_subst_unused. intros Hin. apply Hx. right.
    apply list_elem_of_In, in_flat_map. exists v. split.
    + apply list_elem_of_In, list_elem_of_fmap. exists (key, v). split; [done|].
      by apply elem_of_map_to_list.
    + by apply list_elem_of_In.
Qed.

(** Replacing a call other than [n] keeps the invariant. *)
Lemma sparing_replaced S n w node target kw :
  Forall (λ y, y ∈ S) (node_uses n) →
  sparing S n (graph w) →
  find_node (name node) (graph w) = Some node →
  is_call node = true → name node ≠ name n →
  sparing S n (graph (reissue node target kw w).2).
Proof.
  intros Hn (Hnd & Hnb & Hin & HS) Hf Hcall Hne.
  pose proof (find_node_elem _ _ _ Hf) as Hnode.
  assert (name node ≠ next_name (graph w)) as Hfresh.
  { specialize (Hnb node Hnode). lia. }
  rewrite reissue_replaces by done. cbn [snd graph set_graph].
  unfold find_node in Hf. apply find_split in Hf as (l1 & l2 & Hl & Hl1 & _).
  rewrite Hl in *.
  set (x := name node) in *. set (k := next_name (graph w)) in *.
  set (new := {| name := k; kind := call_function target; args := args node;
                 kwargs := kw; meta := no_meta |}).
  rewrite (replaced_nodes x k new l1 l2 node) by (done || by intros ->).
  assert (∀ m, m ∈ l1 ++ node :: l2 → m ≠ node → m ∈ l1 ++ new :: l2) as Hkeep.
  { intros m. rewrite !elem_of_app, !elem_of_cons. intros [?|[?|?]] ?; tauto. }
  assert (∀ m, m ∈ l1 ++ new :: l2 →
               m = new ∨ (m ∈ l1 ++ node :: l2 ∧ name m ≠ x)) as Hmem.
  { intros m. rewrite !elem_of_app, !elem_of_cons.
    intros [H|[->|H]]; [right|by left|right].
    - split; [by left|]. rewrite Forall_forall in Hl1. by apply Hl1.
    - split; [by right; right|].
      rewrite map_app in Hnd. cbn [map] in Hnd.
      apply NoDup_app in Hnd as (_ & _ & Hnd).
      apply NoDup_cons in Hnd as [Hnd _]. intros Heq. apply Hnd.
      fold x. rewrite <- Heq. apply list_elem_of_fmap. eauto. }
  assert (∀ p, p ∈ l1 ++ node :: l2 → is_call p = false → x ≠ name p) as Hstored.
  { intros p Hp Hc Heq. assert (p = node) as ->; [|congruence].
    apply elem_of_app in Hp as [Hp|Hp].
    { rewrite Forall_forall in Hl1. by destruct (Hl1 p Hp). }
    apply elem_of_cons in Hp as [Hp|Hp]; [done|]. exfalso.
    rewrite map_app in Hnd. cbn [map] in Hnd.
    apply NoDup_app in Hnd as (_ & _ & Hnd).
    apply NoDup_cons in Hnd as [Hnd _]. apply Hnd.
    fold x. rewrite Heq. apply list_elem_of_fmap. eauto. }
  split; [|split; [|split]]; cbn [nodes next_name].
  - rewrite map_name_subst. rewrite map_app in *. cbn [map] in *.
    apply (NoDup_replace _ _ (name node)); [done| |].
    + intros Hk1. apply list_elem_of_fmap in Hk1 as (m & Hm1 & Hm2).
      unfold new in Hm1. cbn [name] in Hm1.
      assert (name m < k)%nat; [|lia]. apply Hnb. apply elem_of_app. by left.
    + intros Hk1. apply list_elem_of_fmap in Hk1 as (m & Hm1 & Hm2).
      unfold new in Hm1. cbn [name] in Hm1.
      assert (name m < k)%nat; [|lia]. apply Hnb. apply elem_of_app. right. by right.
  - intros m Hm. apply list_elem_of_fmap in Hm as (m0 & -> & Hm0).
    cbn [name subst_node]. apply Hmem in Hm0 as [->|[Hm0 _]]; [cbn; lia|].
    specialize (Hnb m0 Hm0). lia.
  - apply list_elem_of_fmap. exists n. split.
    + symmetry. apply subst_node_unused. intros Hu.
      rewrite Forall_forall in Hn. destruct (HS x (Hn x Hu)) as (p & Hp & Hpx & Hpc).
      by apply (Hstored p Hp Hpc).
    + apply Hkeep; [done|]. by intros ->.
  - intros y Hy. destruct (HS y Hy) as (p & Hp & Hpy & Hpc).
    exists (subst_node x (ANode k) p). split; [|done].
    apply list_elem_of_fmap. exists p. split; [done|].
    apply Hkeep; [done|]. intros ->. congruence.
Qed.

Lemma rewrite_node_sparing S n node c w :
  Forall (λ y, y ∈ S) (node_uses n) →
  live_forever S c → sparing S n (graph w) →
  find_node (name node) (graph w) = Some node →
  sparing S n (graph (rewrite_node signature_repr node c w).2).
Proof.
  intros Hn Hc Hw Hf.
  destruct (decide (name node = name n)) as [Heq|Hne].
  { assert (node = n) as ->.
    { destruct Hw as (Hnd & _ & Hin & _).
      pose proof (find_node_elem _ _ _ Hf) as Hnode.
      apply list_elem_of_lookup in Hin as [i Hi].
      apply list_elem_of_lookup in Hnode as [j Hj].
      assert (i = j) as ->; [|congruence].
      apply (NoDup_lookup _ i j (name n) Hnd);
        rewrite list_lookup_fmap; [by rewrite Hi | rewrite Hj; cbn; by rewrite Heq]. }
    by rewrite (rewrite_node_spares_reader S n c w). }
  set (P := λ w0 : World, sparing S n (graph w0)
                          ∧ find_node (name node) (graph w0) = Some node).
  apply (leads_rewrite_node_shape signature_repr P P (λ w0, sparing S n (graph w0)));
    [by intros w0 [H _] | by intros key w0 _ H | | done].
  intros target kw Hk _ w0 [H0 Hf0]. apply sparing_replaced; try done.
  unfold is_call. by rewrite Hk.
Qed.

Lemma inplacify_node_sparing S n x c w :
  Forall (λ y, y ∈ S) (node_uses n) →
  live_forever S c → sparing S n (graph w) →
  sparing S n (graph (inplacify_node signature_repr x c w).2)
  ∧ ∀ c', (inplacify_node signature_repr x c w).1 = Ok c' → live_forever S c'.
Proof.
  intros Hn Hc Hw.
  destruct (find_node x (graph w)) as [node|] eqn:Hf.
  2:{ unfold inplacify_node. rewrite bind_unfold. cbn [gets]. rewrite Hf.
      split; [done|]. by intros c' [= <-]. }
  rewrite (inplacify_node_found signature_repr x node c w Hf).
  pose proof (find_node_name _ _ _ Hf) as <-.
  pose proof (rewrite_node_sparing S n node c w Hn Hc Hw Hf) as Hrw.
  destruct (rewrite_node signature_repr node c w) as [[[]|e] w1]; cbn [snd] in Hrw.
  - split; [done|]. by intros c' [= <-].
  - split; [done|]. by intros c' [= <-].
  - destruct (record_usages_live S (node_uses node) c w1 Hc) as [H1 H2].
    rewrite H1. done.
  - done.
Qed.

Lemma inplacify_nodes_sparing S n xs c w :
  Forall (λ y, y ∈ S) (node_uses n) →
  live_forever S c → sparing S n (graph w) →
  sparing S n (graph (inplacify_nodes signature_repr xs c w).2).
Proof.
  intros Hn. revert c w. induction xs as [|x xs IH]; intros c w Hc Hw; [done|].
  rewrite inplacify_nodes_cons.
  destruct (inplacify_node_sparing S n x c w Hn Hc Hw) as [H1 H2].
  destruct (inplacify_node signature_repr x c w) as [[c'|e] w1]; cbn [fst snd] in *.
  - apply IH; [by apply H2 | done].
  - done.
Qed.

(** X21: a node all of whose arguments are nodes that are not calls
    (graph inputs, attributes) is still in the graph, unchanged, after
    [inplacify], on every exit path: the buffer of such an argument has an
    infinite usage count, so the node is never a candidate, and its
    arguments are never redirected. *)
Theorem inplacify_spares_inputs (w : World) (n : Node) :
  NoDup (map name (nodes (graph w))) → named_below (graph w) →
  n ∈ nodes (graph w) →
  Forall (λ y, y ∈ stored (nodes (graph w))) (node_uses n) →
  n ∈ nodes (graph (inplacify signature_repr w).2).
Proof.
  intros Hnd Hnb Hin Hn.
  assert (sparing (stored (nodes (graph w))) n (graph w)) as Hw.
  { unfold named_below in Hnb. rewrite Forall_forall in Hnb.
    split; [done|]. split; [done|]. split; [done|].
    intros y Hy. by apply elem_of_stored. }
  unfold inplacify. rewrite bind_unfold. cbn [gets]. rewrite bind_unfold.
  pose proof (keeps_alias_nodes (λ w0, w0 = w) (nodes (graph w)) counts_empty w eq_refl)
    as Hsame.
  destruct (alias_nodes (nodes (graph w)) counts_empty w) as [[c|e] w1] eqn:Ha;
    cbn [snd] in Hsame; subst w1; [|done].
  apply (alias_nodes_live _ []) in Ha;
    [|done|intros m _; apply not_elem_of_nil|by intros y Hy%elem_of_nil].
  cbn [app] in Ha.
  rewrite bind_unfold. cbn [gets]. rewrite bind_unfold.
  pose proof (inplacify_nodes_sparing _ n (rev (map name (nodes (graph w)))) c w Hn Ha Hw)
    as (_ & _ & H & _).
  by destruct (inplacify_nodes _ _ _ _) as [[c'|e] w2].
Qed.

End InplacifierInputs.

(** ** Inplacifier: views *)

Section InplacifierViews.
Variable signature_repr : func → string.

(** A view lives in the buffer of its first argument. *)
Lemma alias_node_view n f a rest c w :
  kind n = call_function f → view_name (f_name f) = true →
  args n = a :: rest →
  alias_node n c w = counts_alias (name n) a c w.
Proof.
  intros Hk Hv Ha. unfold alias_node, is_call, can_be_view, short_name.
  rewrite Hk. unfold_monad. rewrite Hv, Ha. reflexivity.
Qed.

(** X25: a view lives in the buffer of its first argument.  For
    [x = f(p); y = g(x); output(y)] with [f] a view operation on the graph
    input [p], [inplacify] rewrites nothing, whatever the function [g]:
    [x] shares the buffer of [p], whose usage count is infinite. *)
Theorem inplacify_view_of_input_unchanged (f g : func) (m0 m1 m2 m3 : Meta)
    (ms : gmap string Module) (c : gmap (string * string) nat) (so : list string) :
  view_name (f_name f) = true →
  let w := {| graph := mk_graph (chain f g m0 m1 m2 m3);
              submodules := ms; counters := c; stdout := so |} in
  inplacify signature_repr w = (Ok tt, w).
Proof.
  intros Hf w. unfold w, inplacify.
  rewrite bind_unfold; cbn [gets graph mk_graph nodes].
  rewrite bind_unfold. unfold chain.
  rewrite alias_nodes_cons, alias_node_other by reflexivity.
  rewrite alias_nodes_cons, (alias_node_view _ f (ANode 0) []) by (reflexivity || exact Hf).
  cbn [counts_alias name mk_node]. rewrite bind_unfold.
  replace (cell_of (counts_fresh 0 Inf counts_empty) !! 0) with (Some 0)
    by (vm_compute; reflexivity).
  cbn [from_option ret].
  destruct (view_name (f_name g)) eqn:Hg.
  - rewrite alias_nodes_cons, (alias_node_view _ g (ANode 1) []) by (reflexivity || exact Hg).
    cbn [counts_alias name mk_node]. rewrite bind_unfold.
    match goal with
    | |- context [from_option KeyError ?o] =>
        replace o with (Some 0) by (vm_compute; reflexivity)
    end.
    cbn [from_option ret].
    rewrite alias_nodes_cons, alias_node_other by reflexivity.
    cbn [alias_nodes ret]. rewrite bind_unfold. cbn [gets graph nodes].
    rewrite bind_unfold. vm_compute. reflexivity.
  - rewrite alias_nodes_cons, (alias_node_call_function _ g) by (reflexivity || exact Hg).
    rewrite alias_nodes_cons, alias_node_other by reflexivity.
    cbn [alias_nodes ret]. rewrite bind_unfold. cbn [gets graph nodes].
    rewrite bind_unfold. vm_compute. reflexivity.
Qed.

End InplacifierViews.

(** ** normalize without module calls *)

Lemma set_graph_graph w : set_graph (graph w) w = w.
Proof. by destruct w. Qed.

Lemma inserting_before_ret {A} x (a : A) w : inserting_before x (ret a) w = (Ok a, w).
Proof.
  unfold inserting_before, try_finally. cbn. f_equal.
  destruct w as [[] ? ? ?]. reflexivity.
Qed.

(** One iteration of [normalize] on a settled node changes nothing. *)
Lemma normalize_node_settled x w :
  Forall (settled (submodules w)) (nodes (graph w)) →
  normalize_node x w = (Ok tt, w).
Proof.
  intros Hs. unfold normalize_node. rewrite bind_unfold. cbn [gets].
  destruct (find_node x (graph w)) as [node|] eqn:Hf; [|done].
  apply find_node_elem in Hf. rewrite Forall_forall in Hs.
  specialize (Hs node Hf). unfold settled in Hs.
  destruct (kind node) as [| | |t|t|]; try apply inserting_before_ret.
  - rewrite Hs. apply inserting_before_ret.
  - destruct Hs as (m & Hm & Hc).
    unfold inserting_before, try_finally.
    rewrite bind_unfold. unfold get_submodule. rewrite bind_unfold.
    cbn [gets submodules set_graph]. rewrite Hm. cbn [from_option ret].
    rewrite bool_decide_true by done. cbn. f_equal.
    destruct w as [[] ? ? ?]. reflexivity.
Qed.

Lemma for_each_normalize_settled xs w :
  Forall (settled (submodules w)) (nodes (graph w)) →
  for_each xs normalize_node w = (Ok tt, w).
Proof.
  intros Hs. induction xs as [|x xs IH]; [done|].
  cbn [for_each]. rewrite bind_unfold, normalize_node_settled by done. exact IH.
Qed.

(** X22: on a graph whose method calls are all outside
    [NORMALIZE_METHODS] and whose module calls are all of a class in
    [DONT_EXPAND_MODULES], [normalize] returns and changes nothing: graph,
    insertion point, sub-modules, counters and output are the same. *)
Theorem normalize_settled (w : World) :
  Forall (settled (submodules w)) (nodes (graph w)) →
  normalize w = (Ok tt, w).
Proof.
  intros Hs. unfold normalize. rewrite bind_unfold. cbn [gets].
  by apply for_each_normalize_settled.
Qed.

(** A method call of the table is replaced in place. *)
Lemma normalize_node_method x w node t f :
  find_node x (graph w) = Some node →
  kind node = call_method t → NORMALIZE_METHODS !! t = Some f →
  x ≠ next_name (graph w) →
  normalize_node x w =
    (Ok tt,
     set_graph
       {| nodes :=
            remove_node x
              (map (subst_node x (ANode (next_name (graph w))))
                 (insert_before x
                    {| name := next_name (graph w); kind := call_function f;
                       args := args node; kwargs := kwargs node; meta := no_meta |}
                    (nodes (graph w))));
          next_name := S (next_name (graph w));
          insert_point := insert_point (graph w) |} w).
Proof.
  intros Hf Hk Hnm Hx.
  unfold normalize_node. rewrite bind_unfold. cbn [gets]. rewrite Hf, Hk, Hnm.
  unfold inserting_before, try_finally.
  rewrite bind_unfold. unfold graph_create_node at 1.
  cbn [create_node graph set_graph set_insert_point insert_point nodes next_name].
  unfold swap_node. rewrite bind_unfold.
  unfold graph_replace_all_uses_with. rewrite bind_unfold. cbn [modify].
  rewrite bind_unfold. cbn [gets graph set_graph replace_all_uses_with nodes].
  rewrite existsb_uses_subst by done. cbn [ret].
  unfold graph_erase_node, erase_node.
  cbn [graph set_graph replace_all_uses_with nodes].
  rewrite existsb_uses_subst by done.
  cbn [modify graph set_graph nodes next_name insert_point set_insert_point
       replace_all_uses_with]. reflexivity.
Qed.

Lemma to_normalize_false k : to_normalize k = false → normalized_kind k = k.
Proof.
  destruct k as [| | |t| |]; try done. cbn [to_normalize normalized_kind].
  destruct (NORMALIZE_METHODS !! t); [|done].
  rewrite bool_decide_true by eauto. done.
Qed.

(** One iteration of the loop keeps the invariant. *)
Lemma normalize_node_normalizing K x xs w :
  normalizing K (x :: xs) (graph w) →
  ∃ g', normalize_node x w = (Ok tt, set_graph g' w)
        ∧ normalizing K xs g'
        ∧ insert_point g' = insert_point (graph w).
Proof.
  intros (Hnd & Hnb & HK & Hto & Hmf).
  destruct (find_node x (graph w)) as [node|] eqn:Hf.
  2:{ exists (graph w). split; [|split; [|done]].
      - unfold normalize_node. rewrite bind_unfold. cbn [gets]. rewrite Hf.
        by rewrite set_graph_graph.
      - split; [done|]. split; [done|]. split; [done|]. split; [|done].
        intros n Hn Ht. specialize (Hto n Hn Ht).
        apply elem_of_cons in Hto as [Hx|Hto]; [|done]. exfalso.
        unfold find_node in Hf. apply list_elem_of_In in Hn.
        apply (find_none _ _ Hf) in Hn. by rewrite bool_decide_true in Hn. }
  pose proof (find_node_elem _ _ _ Hf) as Hin.
  unfold find_node in Hf. pose proof Hf as Hfind.
  apply find_split in Hf as (l1 & l2 & Hl & Hl1 & Hx).
  destruct (to_normalize (kind node)) eqn:Htn.
  - (* a method call of the table *)
    destruct (kind node) as [| | |t| |] eqn:Hk; try done.
    cbn [to_normalize] in Htn. apply bool_decide_eq_true in Htn as [f Hnm].
    set (k := next_name (graph w)).
    assert (k ≠ x) as Hkx.
    { specialize (Hnb node Hin). unfold k. lia. }
    set (new := {| name := k; kind := call_function f; args := args node;
                   kwargs := kwargs node; meta := no_meta |}).
    exists {| nodes := map (subst_node x (ANode k)) (l1 ++ new :: l2);
              next_name := S k; insert_point := insert_point (graph w) |}.
    split; [|split; [|done]].
    + rewrite (normalize_node_method x w node t f) by done.
      fold k new. rewrite Hl. by rewrite (replaced_nodes x k new l1 l2 node).
    + unfold normalizing in *.
      rewrite Hl in Hnd, Hnb, HK, Hto, Hmf. cbn [nodes next_name].
      assert (∀ n, n ∈ l1 ++ new :: l2 →
                   n = new ∨ (n ∈ l1 ++ node :: l2 ∧ name n ≠ x)) as Hmem.
      { intros n. rewrite !elem_of_app, !elem_of_cons.
        intros [H|[->|H]]; [right|by left|right].
        - split; [by left|]. rewrite Forall_forall in Hl1. by apply Hl1.
        - split; [by right; right|].
          rewrite map_app in Hnd. cbn [map] in Hnd.
          apply NoDup_app in Hnd as (_ & _ & Hnd).
          apply NoDup_cons in Hnd as [Hnd _]. intros Heq. apply Hnd.
          rewrite Hx, <- Heq. apply list_elem_of_fmap. eauto. }
      split; [|split; [|split; [|split]]].
      * rewrite map_name_subst.
        rewrite map_app in *. cbn [map] in *.
        apply (NoDup_replace _ _ (name node)); [done| |].
        -- intros Hk1. apply list_elem_of_fmap in Hk1 as (n & Hn1 & Hn2).
           specialize (Hnb n). unfold new, k in Hn1. cbn [name] in Hn1.
           assert (name n < next_name (graph w))%nat; [|lia].
           apply Hnb. apply elem_of_app. by left.
        -- intros Hk1. apply list_elem_of_fmap in Hk1 as (n & Hn1 & Hn2).
           specialize (Hnb n). unfold new, k in Hn1. cbn [name] in Hn1.
           assert (name n < next_name (graph w))%nat; [|lia].
           apply Hnb. apply elem_of_app. right. by right.
      * intros n Hn. cbn [nodes next_name] in *.
        apply list_elem_of_fmap in Hn as (n0 & -> & Hn0). cbn [name subst_node].
        apply Hmem in Hn0 as [->|[Hn0 _]]; [cbn; lia|].
        specialize (Hnb n0 Hn0). unfold k. lia.
      * rewrite <- HK, map_kind_subst.
        rewrite !map_app. cbn [map]. f_equal. f_equal.
        rewrite Hk. cbn [kind subst_node new normalized_kind]. by rewrite Hnm.
      * intros n Hn Ht.
        apply list_elem_of_fmap in Hn as (n0 & -> & Hn0). cbn [name kind subst_node] in *.
        apply Hmem in Hn0 as [->|[Hn0 Hne]]; [done|].
        specialize (Hto n0 Hn0 Ht). apply elem_of_cons in Hto as [?|?]; done.
      * intros n Hn t'.
        apply list_elem_of_fmap in Hn as (n0 & -> & Hn0). cbn [kind subst_node].
        apply Hmem in Hn0 as [->|[Hn0 _]]; [done|]. by apply Hmf.
  - (* nothing to do for this node *)
    exists (graph w). split; [|split; [|done]].
    + rewrite set_graph_graph.
      unfold normalize_node. rewrite bind_unfold. cbn [gets].
      unfold find_node. rewrite Hfind.
      destruct (kind node) as [| | |t|t|] eqn:Hk; try apply inserting_before_ret.
      * cbn [to_normalize] in Htn. destruct (NORMALIZE_METHODS !! t) as [f|].
        { rewrite bool_decide_true in Htn by eauto. done. }
        apply inserting_before_ret.
      * by destruct (Hmf node Hin t).
    + split; [done|]. split; [done|]. split; [done|]. split; [|done].
      intros n Hn Ht. specialize (Hto n Hn Ht).
      apply elem_of_cons in Hto as [Hnx|Hto]; [|done]. exfalso.
      assert (n = node) as ->; [|congruence].
      rewrite Hl in Hn, Hnd. rewrite map_app in Hnd. cbn [map] in Hnd.
      apply elem_of_app in Hn as [Hn|Hn].
      { rewrite Forall_forall in Hl1. by destruct (Hl1 n Hn). }
      apply elem_of_cons in Hn as [Hn|Hn]; [done|]. exfalso.
      apply NoDup_app in Hnd as (_ & _ & Hnd).
      apply NoDup_cons in Hnd as [Hnd _]. apply Hnd.
      rewrite Hx, <- Hnx. apply list_elem_of_fmap. eauto.
Qed.

Lemma for_each_normalizing K xs w :
  normalizing K xs (graph w) →
  ∃ g', for_each xs normalize_node w = (Ok tt, set_graph g' w)
        ∧ normalizing K [] g'
        ∧ insert_point g' = insert_point (graph w).
Proof.
  revert w. induction xs as [|x xs IH]; intros w Hw.
  { exists (graph w). by rewrite set_graph_graph. }
  destruct (normalize_node_normalizing K x xs w Hw) as (g1 & Hstep & Hinv & Hip).
  destruct (IH (set_graph g1 w) Hinv) as (g' & Hrest & Hinv' & Hip').
  exists g'. split; [|split; [done|]].
  - cbn [for_each]. rewrite bind_unfold, Hstep. exact Hrest.
  - by rewrite Hip'.
Qed.

Lemma normalizing_start g :
  NoDup (map name (nodes g)) → named_below g → module_free (nodes g) →
  normalizing (map (λ n, normalized_kind (kind n)) (nodes g)) (map name (nodes g)) g.
Proof.
  intros Hnd Hnb Hmf. unfold named_below, module_free in *.
  rewrite Forall_forall in Hnb, Hmf.
  split; [done|]. split; [done|]. split; [done|]. split.
  - intros n Hn _. apply list_elem_of_fmap. eauto.
  - intros n Hn t Hk. specialize (Hmf n Hn). unfold is_module_call in Hmf.
    by rewrite Hk in Hmf.
Qed.

Lemma normalizing_end K g :
  normalizing K [] g →
  map kind (nodes g) = K ∧ ∀ ms, Forall (settled ms) (nodes g).
Proof.
  intros (_ & _ & HK & Hto & Hmf).
  assert (∀ n, n ∈ nodes g → to_normalize (kind n) = false) as Hf.
  { intros n Hn. destruct (to_normalize (kind n)) eqn:Ht; [|done].
    specialize (Hto n Hn Ht). by apply elem_of_nil in Hto. }
  split.
  - rewrite <- HK. apply list_fmap_ext.
    intros i n Hn. symmetry. apply to_normalize_false, Hf.
    by apply list_elem_of_lookup_2 in Hn.
  - intros ms. apply Forall_forall. intros n Hn. unfold settled.
    specialize (Hf n Hn). specialize (Hmf n Hn).
    destruct (kind n) as [| | |t|t|]; try done.
    + cbn [to_normalize] in Hf. destruct (NORMALIZE_METHODS !! t); [|done].
      rewrite bool_decide_true in Hf by eauto. done.
    + by destruct (Hmf t).
Qed.

(** X23: on a graph without module calls (node identities distinct and
    below the supply of fresh ones), [normalize] returns, and the kinds of
    the nodes of the result are, position by position, those of the source
    with each method call of [NORMALIZE_METHODS] replaced by the call of
    the function the table gives; the insertion point is restored. *)
Theorem normalize_methods (w : World) :
  NoDup (map name (nodes (graph w))) → named_below (graph w) →
  module_free (nodes (graph w)) →
  ∃ g', normalize w = (Ok tt, set_graph g' w)
        ∧ map kind (nodes g') = map (λ n, normalized_kind (kind n)) (nodes (graph w))
        ∧ insert_point g' = insert_point (graph w).
Proof.
  intros Hnd Hnb Hmf.
  destruct (for_each_normalizing _ _ w (normalizing_start _ Hnd Hnb Hmf))
    as (g' & Hrun & Hinv & Hip).
  exists g'. split; [|split; [|done]].
  - unfold normalize. rewrite bind_unfold. cbn [gets]. exact Hrun.
  - by apply normalizing_end in Hinv as [HK _].
Qed.

(** X24: on a graph without module calls, a second run of [normalize]
    changes nothing. *)
Theorem normalize_idempotent_without_modules (w : World) :
  NoDup (map name (nodes (graph w))) → named_below (graph w) →
  module_free (nodes (graph w)) →
  (normalize w).1 = Ok tt
  ∧ normalize (normalize w).2 = (Ok tt, (normalize w).2).
Proof.
  intros Hnd Hnb Hmf.
  destruct (for_each_normalizing _ _ w (normalizing_start _ Hnd Hnb Hmf))
    as (g' & Hrun & Hinv & Hip).
  assert (normalize w = (Ok tt, set_graph g' w)) as ->.
  { unfold normalize. rewrite bind_unfold. cbn [gets]. exact Hrun. }
  split; [done|]. cbn [snd].
  apply normalizing_end in Hinv as [_ Hs].
  unfold normalize. rewrite bind_unfold. cbn [gets].
  apply for_each_normalize_settled. apply Hs.
Qed.

(** ** Instances of the further properties *)

(** X1: a witness, [exp(x, out=x)] on a call result. *)
Lemma functionalization_out_keyword_witness :
  kwargs (mk_node 2 (call_function (torch_fn "exp")) [ANode 1]
            {[ "out" := ANode 1 ]} tensor_meta) !! "out" = Some (ANode 1) ∧
  run_node sample_allowed_function_ids sample_torch_namespace
    (mk_node 2 (call_function (torch_fn "exp")) [ANode 1]
       {[ "out" := ANode 1 ]} tensor_meta) after_sin =
    (Ok (ANode 2),
     set_env (<[1 := ANode 2]> (env after_sin))
       (appended (call_function (torch_fn "exp")) [ANode 1]
          (delete "out" {[ "out" := ANode 1 ]}) after_sin)).
Proof.
  split; [reflexivity|].
  apply (functionalization_out_keyword sample_allowed_function_ids
           sample_torch_namespace
           (mk_node 2 (call_function (torch_fn "exp")) [ANode 1]
              {[ "out" := ANode 1 ]} tensor_meta)
           after_sin Tensor 1 [ANode 1] {[ "out" := ANode 1 ]});
    reflexivity.
Defined.

(** X3: a witness, [relu(x, inplace=True)] marked as an input mutation. *)
Lemma functionalization_input_mutation_kept_witness :
  m_is_input_mutation (meta (mk_node 2 (call_function (F "relu")) [ANode 1]
       {[ "inplace" := ALit (LBool true) ]} input_mutation_meta)) = Some true ∧
  run_node sample_allowed_function_ids sample_torch_namespace
    (mk_node 2 (call_function (F "relu")) [ANode 1]
       {[ "inplace" := ALit (LBool true) ]} input_mutation_meta) after_sin =
    (Ok (ANode 2),
     appended (call_function (F "relu")) [ANode 1]
       {[ "inplace" := ALit (LBool true) ]} after_sin).
Proof.
  split; [reflexivity|].
  apply (functionalization_input_mutation_kept sample_allowed_function_ids
           sample_torch_namespace
           (mk_node 2 (call_function (F "relu")) [ANode 1]
              {[ "inplace" := ALit (LBool true) ]} input_mutation_meta)
           after_sin Tensor [ANode 1] {[ "inplace" := ALit (LBool true) ]});
    reflexivity.
Defined.

(** X4: a witness, [operator.and_(x, x)]. *)
Lemma functionalization_operator_renamed_witness :
  startswith_i "and_" = false ∧
  run_node sample_allowed_function_ids sample_torch_namespace
    (mk_node 2 (call_function (operator_fn "and_")) [ANode 1; ANode 1] ∅ tensor_meta)
    after_sin =
    (Ok (ANode 2),
     appended (call_function (torch_fn "bitwise_and")) [ANode 1; ANode 1] ∅ after_sin).
Proof.
  split; [reflexivity|].
  apply (functionalization_operator_renamed sample_allowed_function_ids
           sample_torch_namespace
           (mk_node 2 (call_function (operator_fn "and_")) [ANode 1; ANode 1] ∅
              tensor_meta)
           after_sin Tensor (operator_fn "and_") [ANode 1; ANode 1] ∅);
    try reflexivity.
  apply (bool_decide_unpack _). vm_compute. exact I.
Defined.

(** X5: a witness, [operator.invert(x)], looked up as [torch.nvert]. *)
Lemma functionalization_inplace_operator_missing_witness :
  startswith_i "invert" = true ∧ sample_torch_namespace "nvert" = false ∧
  run_node sample_allowed_function_ids sample_torch_namespace
    (mk_node 2 (call_function (operator_fn "invert")) [ANode 1] ∅ tensor_meta)
    after_sin = (Raise AttributeError, after_sin).
Proof.
  split; [reflexivity|]. split; [reflexivity|].
  apply (functionalization_inplace_operator_missing sample_allowed_function_ids
           sample_torch_namespace
           (mk_node 2 (call_function (operator_fn "invert")) [ANode 1] ∅ tensor_meta)
           after_sin Tensor (operator_fn "invert") [ANode 1] ∅);
    reflexivity.
Defined.

(** X6: a witness, [x.dtype] on a graph input. *)
Lemma functionalization_getattr_folded_witness :
  find_node 0 (graph (world after_input))
  = Some (mk_node 0 (placeholder "x") [] ∅ typed_meta) ∧
  run_node sample_allowed_function_ids sample_torch_namespace
    (mk_node 1 (call_function builtins_getattr) [ANode 0; ALit (LStr "dtype")] ∅
       (object_meta "torch.dtype")) after_input
  = (Ok (ALit (LObj "torch.float32")), after_input).
Proof.
  split; [reflexivity|].
  apply (functionalization_getattr_folded sample_allowed_function_ids
           sample_torch_namespace
           (mk_node 1 (call_function builtins_getattr)
              [ANode 0; ALit (LStr "dtype")] ∅ (object_meta "torch.dtype"))
           (mk_node 0 (placeholder "x") [] ∅ typed_meta)
           after_input (OtherType "torch.dtype") 0
           [ANode 0; ALit (LStr "dtype")] ∅ "dtype" m_dtype (LObj "torch.float32"));
    try reflexivity.
  left. split; reflexivity.
Defined.

(** X7: a witness, [x.shape] on a graph input. *)
Lemma functionalization_getattr_counted_witness :
  "shape" ≠ "dtype" ∧
  run_node sample_allowed_function_ids sample_torch_namespace
    (mk_node 2 (call_function builtins_getattr) [ANode 0; ALit (LStr "shape")] ∅
       (object_meta "torch.Size")) after_input
  = (Ok (ANode 1),
     appended (call_function builtins_getattr) [ANode 0; ALit (LStr "shape")] ∅
       (with_counter "getattr" "shape" after_input)).
Proof.
  split; [discriminate|].
  apply (functionalization_getattr_counted sample_allowed_function_ids
           sample_torch_namespace
           (mk_node 2 (call_function builtins_getattr)
              [ANode 0; ALit (LStr "shape")] ∅ (object_meta "torch.Size"))
           after_input (OtherType "torch.Size")
           [ANode 0; ALit (LStr "shape")] ∅ "shape");
    try reflexivity; discriminate.
Defined.

(** X8: a witness, [torch.sigmoid_(x)] marked as a mutation. *)
Lemma functionalization_mutation_tallied_witness :
  m_is_mutation (meta (mk_node 2 (call_function (torch_fn "sigmoid_")) [ANode 1] ∅
                         mutation_meta)) = Some true ∧
  run_node sample_allowed_function_ids sample_torch_namespace
    (mk_node 2 (call_function (torch_fn "sigmoid_")) [ANode 1] ∅ mutation_meta)
    after_sin
  = (Ok (ANode 2),
     appended (call_function (torch_fn "sigmoid_")) [ANode 1] ∅
       (with_counter "mutation" "torch.sigmoid_" after_sin)).
Proof.
  split; [reflexivity|].
  apply (functionalization_mutation_tallied sample_allowed_function_ids
           sample_torch_namespace
           (mk_node 2 (call_function (torch_fn "sigmoid_")) [ANode 1] ∅ mutation_meta)
           after_sin Tensor (torch_fn "sigmoid_") [ANode 1] ∅);
    try reflexivity; discriminate.
Defined.

(** X10: a witness, a graph input of type [int]. *)
Lemma functionalization_nontensor_placeholder_witness :
  issubclass_Tensor (OtherType "int") = false ∧
  run_node sample_allowed_function_ids sample_torch_namespace
    (mk_node 0 (placeholder "n") [] ∅ (object_meta "int"))
    {| world := mk_world [ mk_node 0 (placeholder "n") [] ∅ (object_meta "int") ] ∅;
       new_graph := empty_graph; env := ∅ |}
  = (Raise AssertionError,
     {| world := mk_world [ mk_node 0 (placeholder "n") [] ∅ (object_meta "int") ] ∅;
        new_graph := empty_graph; env := ∅ |}).
Proof.
  split; [reflexivity|].
  apply (functionalization_nontensor_placeholder sample_allowed_function_ids
           sample_torch_namespace
           (mk_node 0 (placeholder "n") [] ∅ (object_meta "int")) _
           "n" (OtherType "int") false [] ∅);
    reflexivity.
Defined.

(** X11: a witness, a call without metadata. *)
Lemma functionalization_missing_meta_witness :
  m_is_input_mutation (meta (mk_node 2 (call_function (torch_fn "exp")) [ANode 1] ∅
                               no_meta)) = None ∧
  run_node sample_allowed_function_ids sample_torch_namespace
    (mk_node 2 (call_function (torch_fn "exp")) [ANode 1] ∅ no_meta) after_sin
  = (Raise KeyError, after_sin).
Proof.
  split; [reflexivity|].
  apply (functionalization_missing_meta sample_allowed_function_ids
           sample_torch_namespace
           (mk_node 2 (call_function (torch_fn "exp")) [ANode 1] ∅ no_meta)
           after_sin [ANode 1] ∅);
    try reflexivity.
  left. reflexivity.
Defined.

(** X14: a witness, the graph made of [mutation_then_read]. *)
Lemma functionalize_output_last_witness :
  match functionalize sample_allowed_function_ids sample_torch_namespace
          (mk_world mutation_then_read ∅) with
  | (Ok g', _) =>
      ∃ l, (nodes g' = l ∨ ∃ o, nodes g' = l ++ [o] ∧ is_output o = true)
           ∧ Forall (λ m, is_output m = false) l
  | (Raise _, _) => False
  end.
Proof.
  destruct (functionalize _ _ _) as [[g'|e] w'] eqn:E.
  - exact (functionalize_output_last sample_allowed_function_ids
             sample_torch_namespace (mk_world mutation_then_read ∅) g' w' E).
  - vm_compute in E. discriminate E.
Defined.

(** X15: a witness, a module that cannot be traced. *)
Lemma expand_module_call_diagnostic_witness :
  submodules at_flatten_call !! "dyn" = Some Untraceable ∧
  let r := expand_module_call "dyn." "dyn" [ANode 0] ∅ at_flatten_call in
  counters r.2 = counters at_flatten_call
  ∧ stdout r.2 = match r.1 with
                 | Ok _ => stdout at_flatten_call
                 | Raise _ =>
                     stdout at_flatten_call
                     ++ ["Error while expanding " +:+ class_name Untraceable]
                 end.
Proof.
  split; [reflexivity|].
  apply (expand_module_call_diagnostic "dyn." "dyn" [ANode 0] ∅ at_flatten_call
           Untraceable).
  reflexivity.
Defined.

(** X16: a witness, [self.flat(x, dim=1)]. *)
Lemma expand_module_call_refused_witness :
  submodules at_flatten_call !! "flat" = Some Flatten ∧
  expand_module_call "flat." "flat" [ANode 0] {[ "dim" := ALit (LInt 1) ]}
    at_flatten_call =
    (Raise AssertionError,
     {| graph := graph at_flatten_call;
        submodules := <["flat" := without_stub Flatten]> (submodules at_flatten_call);
        counters := counters at_flatten_call;
        stdout := stdout at_flatten_call
                  ++ ["Error while expanding " +:+ class_name Flatten] |}).
Proof.
  split; [reflexivity|].
  apply (expand_module_call_refused "flat." "flat" [ANode 0]
           {[ "dim" := ALit (LInt 1) ]} at_flatten_call Flatten AssertionError).
  - reflexivity.
  - left. split; [|reflexivity]. intros H.
    apply (f_equal (λ m : gmap string Arg, m !! "dim")) in H.
    vm_compute in H. discriminate H.
Defined.

(** X17: a witness, [self.flat(x)] with [flat] a [torch.nn.Flatten]. *)
Lemma expand_module_call_splices_witness :
  nodes (graph at_flatten_call) =
    [ mk_node 0 (placeholder "x") [] ∅ tensor_meta ]
    ++ mk_node 1 (call_module "flat") [ANode 0] ∅ tensor_meta
    :: [ mk_node 2 output [ANode 1] ∅ tensor_meta ] ∧
  ∃ news,
    spliced_before "flat." 3
      [ mk_node 0 (placeholder "x") [] ∅ tensor_meta ]
      (mk_node 1 (call_module "flat") [ANode 0] ∅ tensor_meta)
      [ mk_node 2 output [ANode 1] ∅ tensor_meta ] news
      (graph (expand_module_call "flat." "flat" [ANode 0] ∅ at_flatten_call).2).
Proof.
  split; [reflexivity|].
  apply (expand_module_call_splices "flat." "flat" [ANode 0] ∅ at_flatten_call
           [ mk_node 0 (placeholder "x") [] ∅ tensor_meta ]
           (mk_node 1 (call_module "flat") [ANode 0] ∅ tensor_meta)
           [ mk_node 2 output [ANode 1] ∅ tensor_meta ]).
  - reflexivity.
  - reflexivity.
  - apply (bool_decide_unpack _). vm_compute. exact I.
  - vm_compute. lia.
Defined.

(** X20: a witness, [x = sin(p); y = relu(x); z = operator.neg(x)]. *)
Lemma inplacify_ignores_skipped_reader_witness :
  SKIP_INPLACE (operator_fn "neg") = true ∧
  inplacify sample_signature_repr
    {| graph := mk_graph (fork (torch_fn "sin") (F "relu") (operator_fn "neg")
                            tensor_meta tensor_meta tensor_meta tensor_meta
                            tensor_meta);
       submodules := ∅; counters := ∅; stdout := [] |} =
    (Ok tt,
     {| graph := fork_reissued (torch_fn "sin") (F "relu") (operator_fn "neg")
                   tensor_meta tensor_meta tensor_meta tensor_meta;
        submodules := ∅;
        counters := bump "optimizations" "inplace" ∅;
        stdout := [] |}).
Proof.
  split; [reflexivity|].
  apply (inplacify_ignores_skipped_reader sample_signature_repr (torch_fn "sin")
           (F "relu") (operator_fn "neg") tensor_meta tensor_meta tensor_meta
           tensor_meta tensor_meta ∅ ∅ []); try reflexivity.
  left. reflexivity.
Defined.

(** X21: a witness, [relu(x)] on the graph input [x]. *)
Lemma inplacify_spares_inputs_witness :
  mk_node 1 (call_function (F "relu")) [ANode 0] ∅ tensor_meta
    ∈ nodes (graph (mk_world relu_of_input ∅)) ∧
  mk_node 1 (call_function (F "relu")) [ANode 0] ∅ tensor_meta
    ∈ nodes (graph (inplacify sample_signature_repr (mk_world relu_of_input ∅)).2).
Proof.
  assert (mk_node 1 (call_function (F "relu")) [ANode 0] ∅ tensor_meta
            ∈ nodes (graph (mk_world relu_of_input ∅))) as Hin.
  { right. left. }
  split; [exact Hin|].
  apply (inplacify_spares_inputs sample_signature_repr (mk_world relu_of_input ∅)
           (mk_node 1 (call_function (F "relu")) [ANode 0] ∅ tensor_meta)).
  - apply (bool_decide_unpack _). vm_compute. exact I.
  - apply (bool_decide_unpack _). vm_compute. exact I.
  - exact Hin.
  - apply (bool_decide_unpack _). vm_compute. exact I.
Defined.

(** X22: a witness, [relu_of_input], which has no method or module call. *)
Lemma normalize_settled_witness :
  Forall (settled (submodules (mk_world relu_of_input ∅)))
    (nodes (graph (mk_world relu_of_input ∅))) ∧
  normalize (mk_world relu_of_input ∅) = (Ok tt, mk_world relu_of_input ∅).
Proof.
  assert (Forall (settled (submodules (mk_world relu_of_input ∅)))
            (nodes (graph (mk_world relu_of_input ∅)))) as Hs.
  { repeat constructor. }
  split; [exact Hs|].
  exact (normalize_settled (mk_world relu_of_input ∅) Hs).
Defined.

(** X23: a witness, [x.add_(b)]. *)
Lemma normalize_methods_witness :
  module_free (nodes (graph (mk_world add_method_call ∅))) ∧
  ∃ g', normalize (mk_world add_method_call ∅)
        = (Ok tt, set_graph g' (mk_world add_method_call ∅))
        ∧ map kind (nodes g') =
            [ placeholder "x"; placeholder "b";
              call_function (operator_fn "iadd"); output ]
        ∧ insert_point g' = None.
Proof.
  assert (module_free (nodes (graph (mk_world add_method_call ∅)))) as Hmf.
  { apply (bool_decide_unpack _). vm_compute. exact I. }
  split; [exact Hmf|].
  apply (normalize_methods (mk_world add_method_call ∅)).
  - apply (bool_decide_unpack _). vm_compute. exact I.
  - apply (bool_decide_unpack _). vm_compute. exact I.
  - exact Hmf.
Defined.

(** X24: a witness, [x.add_(b)]. *)
Lemma normalize_idempotent_without_modules_witness :
  module_free (nodes (graph (mk_world add_method_call ∅))) ∧
  (normalize (mk_world add_method_call ∅)).1 = Ok tt ∧
  normalize (normalize (mk_world add_method_call ∅)).2
  = (Ok tt, (normalize (mk_world add_method_call ∅)).2).
Proof.
  assert (module_free (nodes (graph (mk_world add_method_call ∅)))) as Hmf.
  { apply (bool_decide_unpack _). vm_compute. exact I. }
  split; [exact Hmf|].
  apply (normalize_idempotent_without_modules (mk_world add_method_call ∅)).
  - apply (bool_decide_unpack _). vm_compute. exact I.
  - apply (bool_decide_unpack _). vm_compute. exact I.
  - exact Hmf.
Defined.

(** X2: a witness, [relu(x, inplace=True)] on a call result. *)
Lemma functionalization_inplace_true_witness :
  kwargs (relu_inplace true) !! "inplace" = Some (ALit (LBool true)) ∧
  run_node sample_allowed_function_ids sample_torch_namespace
    (relu_inplace true) after_sin =
    (Ok (ANode 2),
     set_env (<[1 := ANode 2]> (env after_sin))
       (appended (call_function (F "relu")) [ANode 1]
          (delete "inplace" {[ "inplace" := ALit (LBool true) ]}) after_sin)).
Proof.
  split; [reflexivity|].
  apply (functionalization_inplace_true sample_allowed_function_ids
           sample_torch_namespace (relu_inplace true) after_sin Tensor 1
           [ANode 1] {[ "inplace" := ALit (LBool true) ]});
    reflexivity.
Defined.

(** X9: a witness, [torch.numel(x)], an [int]. *)
Lemma functionalization_nontensor_tallied_witness :
  issubclass_Tensor (OtherType "int") = false ∧
  run_node sample_allowed_function_ids sample_torch_namespace
    (mk_node 2 (call_function (torch_fn "numel")) [ANode 1] ∅ (object_meta "int"))
    after_sin
  = (Ok (ANode 2),
     appended (call_function (torch_fn "numel")) [ANode 1] ∅
       (with_counter "nontensor" "torch.numel" after_sin)).
Proof.
  split; [reflexivity|].
  apply (functionalization_nontensor_tallied sample_allowed_function_ids
           sample_torch_namespace
           (mk_node 2 (call_function (torch_fn "numel")) [ANode 1] ∅
              (object_meta "int"))
           after_sin (OtherType "int") (torch_fn "numel") [ANode 1] ∅);
    try reflexivity; discriminate.
Defined.

(** X25: a witness, [x = p.t(); y = relu(x)]. *)
Lemma inplacify_view_of_input_unchanged_witness :
  view_name (f_name (torch_fn "t")) = true ∧
  inplacify sample_signature_repr
    {| graph := mk_graph (chain (torch_fn "t") (F "relu") tensor_meta tensor_meta
                            tensor_meta tensor_meta);
       submodules := ∅; counters := ∅; stdout := [] |}
  = (Ok tt,
     {| graph := mk_graph (chain (torch_fn "t") (F "relu") tensor_meta tensor_meta
                             tensor_meta tensor_meta);
        submodules := ∅; counters := ∅; stdout := [] |}).
Proof.
  split; [reflexivity|].
  apply (inplacify_view_of_input_unchanged sample_signature_repr (torch_fn "t")
           (F "relu") tensor_meta tensor_meta tensor_meta tensor_meta ∅ ∅ []).
  reflexivity.
Defined.
